(** * A pointer-level model of the pairing heap of [PairingHeap.ts]

    The heap of the source is a graph of mutable [PairingNode] objects that
    reference each other through [child], [next] and [prev].  The model keeps
    that graph: a store maps references to node records, every field access
    of the source is a lookup and every assignment an insertion.  Functions
    of the source become state-passing functions over the store; a [throw]
    becomes the [Throw] outcome and a loop takes fuel. *)

From Stdlib Require Import ZArith List Permutation Sorted Lia Bool.
From stdpp Require Import base option gmap.

Set Default Proof Using "Type".
Open Scope Z_scope.

(** ** Outcomes *)

(** [AlreadyDeleted] is the [Error] thrown by [delete]; [TypeError] is what
    JavaScript raises on a property access through [null]; [Dangling] marks a
    reference without an object, which no JavaScript state contains.  A
    [Throw] carries no state: [delete] and [decreaseKey] throw before their
    first assignment, so the state at a [Throw] is the state before the call.
    [Timeout] stands for a loop that has used up its fuel. *)
Inductive Error := AlreadyDeleted | TypeError | Dangling.

Inductive Res (A : Type) : Type :=
| Ok (a : A)
| Throw (e : Error)
| Timeout.
Arguments Ok {A} a.
Arguments Throw {A} e.
Arguments Timeout {A}.

(** ** Nodes and the store *)

Definition ref := positive.

Record PairingNode (TItem : Type) : Type := mkNode {
  item : TItem;
  child : option ref;
  next : option ref;
  prev : option ref
}.
Arguments mkNode {TItem} item child next prev.
Arguments item {TItem} p.
Arguments child {TItem} p.
Arguments next {TItem} p.
Arguments prev {TItem} p.

(** [IObjectPool]: the pool hands out and takes back node references.  Its
    [size] and [maxSize] are not read by the heap. *)
Class IObjectPool (P : Type) : Type := {
  get : P → option ref * P;
  release : ref → P → P
}.

(** What the heap relies on in a pool: it hands out only nodes it holds, and
    it holds no node twice.  [pool_wf] is the pool's own invariant. *)
Class PoolLaws (P : Type) `{IObjectPool P} : Type := {
  pool_wf : P → Prop;
  pool_holds : P → ref → Prop;
  pool_get_wf p : pool_wf p → pool_wf (get p).2;
  pool_get_holds p n :
    pool_wf p → pool_holds (get p).2 n →
    pool_holds p n ∧ (get p).1 ≠ Some n;
  pool_get_held p n : pool_wf p → (get p).1 = Some n → pool_holds p n;
  pool_release_wf p n : pool_wf p → ¬ pool_holds p n → pool_wf (release n p);
  pool_release_holds p n m :
    pool_wf p → pool_holds (release n p) m → pool_holds p m ∨ m = n
}.

(** ** Items and pools of the examples *)

(** JavaScript values as far as the examples need them. *)
Inductive JsValue : Type :=
| JsUndefined
| JsNumber (z : Z).

(** [lessThanDefault]: [o1 < o2]; a comparison with [undefined] is false. *)
Definition lessThanDefault (o1 o2 : JsValue) : bool :=
  match o1, o2 with
  | JsNumber a, JsNumber b => a <? b
  | _, _ => false
  end.

(** A caller's comparator: numbers ascending, [undefined] after every number. *)
Definition numbersFirst (o1 o2 : JsValue) : bool :=
  match o1, o2 with
  | JsNumber a, JsNumber b => a <? b
  | JsNumber _, JsUndefined => true
  | JsUndefined, _ => false
  end.

(** The same with the numbers descending. *)
Definition numbersFirstDescending (o1 o2 : JsValue) : bool :=
  match o1, o2 with
  | JsNumber a, JsNumber b => b <? a
  | JsNumber _, JsUndefined => true
  | JsUndefined, _ => false
  end.

(** The field [_lessThanFunc] as the constructor sets it:
    [lessThanFunc || lessThanDefault]. *)
Definition _lessThanFunc (lessThanFunc : option (JsValue → JsValue → bool))
    : JsValue → JsValue → bool :=
  match lessThanFunc with
  | Some f => f
  | None => lessThanDefault
  end.

(** The comparator that the tests pass for their variant [sort]: none when
    [sort] is [null], else a function that returns [o1 < o2] when [sort > 0]
    and [o2 < o1] otherwise. *)
Definition test_lessThanFunc (sort : option Z) : option (JsValue → JsValue → bool) :=
  match sort with
  | None => None
  | Some k => Some (λ o1 o2, if 0 <? k then lessThanDefault o1 o2 else lessThanDefault o2 o1)
  end.

Definition is_number (o : JsValue) : Prop := ∃ z, o = JsNumber z.

(** Modelled from the spec: the class [ObjectPool] of [src/test/object-pool],
    which the tests pass as [objectPool], is not among the sources.  Following
    the collaborator contract of the spec, [get] hands out a held node or
    nothing and [release] accepts a node for reuse; this pool is a stack that
    ignores a release beyond [maxSize]. *)
Record ObjectPool : Type := mkPool {
  _stack : list ref;
  maxSize : nat
}.

#[export] Instance ObjectPool_pool : IObjectPool ObjectPool := {|
  get p :=
    match _stack p with
    | [] => (None, p)
    | n :: st => (Some n, mkPool st (maxSize p))
    end;
  release n p :=
    if (length (_stack p) <? maxSize p)%nat then mkPool (n :: _stack p) (maxSize p)
    else p
|}.

#[export] Instance ObjectPool_laws : PoolLaws ObjectPool.
Proof.
  refine {| pool_wf p := NoDup (_stack p); pool_holds p n := n ∈ _stack p |}.
  - intros [st m] Hwf. simpl in *. destruct st as [|n st]; [done|].
    simpl. by apply NoDup_cons in Hwf as [_ ?].
  - intros [st m] n Hwf. simpl in *. destruct st as [|k st]; simpl; [done|].
    apply NoDup_cons in Hwf as [Hk _]. intros Hn. split; [set_solver|].
    intros [= ->]. done.
  - intros [st m] n Hwf. simpl in *. destruct st as [|k st]; simpl; [done|].
    intros [= ->]. set_solver.
  - intros [st m] n Hwf Hn. simpl in *.
    destruct (length st <? m)%nat; simpl; [|done]. by apply NoDup_cons.
  - intros [st m] n k Hwf. simpl.
    destruct (length st <? m)%nat; simpl; set_solver.
Defined.

Section Heap.

Context {TItem : Type}.
(** The value [void 0] that [delete] stores in the item of a removed node. *)
Variable undefined : TItem.
Variable lessThanFunc : TItem → TItem → bool.
Context {P : Type} {pool : IObjectPool P} {laws : PoolLaws P}.

Abbreviation Node := (PairingNode TItem).
Abbreviation Store := (gmap ref (PairingNode TItem)).

(** ** The state monad of the store *)

Definition M (A : Type) : Type := Store → Res (A * Store).

Definition ret {A} (a : A) : M A := λ s, Ok (a, s).
Definition throw {A} (e : Error) : M A := λ _, Throw e.
Definition timeout {A} : M A := λ _, Timeout.
Definition bind {A B} (m : M A) (k : A → M B) : M B :=
  λ s, match m s with
       | Ok (a, s') => k a s'
       | Throw e => Throw e
       | Timeout => Timeout
       end.

Notation "'let*' x := m 'in' k" := (bind m (λ x, k))
  (at level 10, x pattern, m at level 100, k at level 200).
Notation "m ;; k" := (bind m (λ _, k))
  (at level 100, k at level 200, right associativity).

Definition load (a : ref) : M Node :=
  λ s, match s !! a with
       | Some v => Ok (v, s)
       | None => Throw Dangling
       end.

Definition store (a : ref) (f : Node → Node) : M unit :=
  λ s, match s !! a with
       | Some v => Ok (tt, <[a := f v]> s)
       | None => Throw Dangling
       end.

Definition get_item (a : ref) : M TItem := let* v := load a in ret (item v).
Definition get_child (a : ref) : M (option ref) := let* v := load a in ret (child v).
Definition get_next (a : ref) : M (option ref) := let* v := load a in ret (next v).
Definition get_prev (a : ref) : M (option ref) := let* v := load a in ret (prev v).

Definition with_item (x : TItem) (v : Node) : Node := mkNode x (child v) (next v) (prev v).
Definition with_child (c : option ref) (v : Node) : Node := mkNode (item v) c (next v) (prev v).
Definition with_next (n : option ref) (v : Node) : Node := mkNode (item v) (child v) n (prev v).
Definition with_prev (p : option ref) (v : Node) : Node := mkNode (item v) (child v) (next v) p.

Definition set_item (a : ref) (x : TItem) : M unit := store a (with_item x).
Definition set_child (a : ref) (c : option ref) : M unit := store a (with_child c).
Definition set_next (a : ref) (n : option ref) : M unit := store a (with_next n).
Definition set_prev (a : ref) (p : option ref) : M unit := store a (with_prev p).

(** An object literal: a new object at a reference not yet in the store. *)
Definition alloc (v : Node) : M ref :=
  λ s, let a := fresh (dom s) in Ok (a, <[a := v]> s).

(** ** merge *)

Definition merge (a b : option ref) : M (option ref) :=
  match a, b with
  | None, _ => ret b
  | Some _, None => ret a
  | Some ra, Some rb =>
    if decide (ra = rb) then ret a
    else
      let* ib := get_item rb in
      let* ia := get_item ra in
      let '(parent, chld) := if lessThanFunc ib ia then (rb, ra) else (ra, rb) in
      let* pc := get_child parent in
      set_next chld pc ;;
      let* pc' := get_child parent in
      match pc' with
      | Some c => set_prev c (Some chld)
      | None => ret tt
      end ;;
      set_prev chld (Some parent) ;;
      set_child parent (Some chld) ;;
      set_next parent None ;;
      set_prev parent None ;;
      ret (Some parent)
  end.

(** ** collapse *)

(** The first loop of [collapse]; it returns the final [tail]. *)
Fixpoint collapse_pass1 (fuel : nat) (nxt tail : option ref) : M (option ref) :=
  match nxt with
  | None => ret tail
  | Some a =>
    match fuel with
    | O => timeout
    | S fuel' =>
      let* b := get_next a in
      match b with
      | Some rb =>
        let* nxt' := get_next rb in
        let* result := merge (Some a) b in
        match result with
        | Some r => set_prev r tail ;; collapse_pass1 fuel' nxt' result
        | None => throw TypeError
        end
      | None => set_prev a tail ;; ret (Some a)
      end
    end
  end.

(** The second loop of [collapse]; it returns the final [result]. *)
Fixpoint collapse_pass2 (fuel : nat) (result tail : option ref) : M (option ref) :=
  match tail with
  | None => ret result
  | Some t =>
    match fuel with
    | O => timeout
    | S fuel' =>
      let* nxt := get_prev t in
      let* result' := merge result tail in
      collapse_pass2 fuel' result' nxt
    end
  end.

Definition collapse (fuel : nat) (node : option ref) : M (option ref) :=
  match node with
  | None => ret None
  | Some _ =>
    let* tail := collapse_pass1 fuel node None in
    collapse_pass2 fuel None tail
  end.

(** ** The heap object *)

Record PairingHeap : Type := mkHeap {
  _objectPool : option P;
  _size : Z;
  _root : option ref
}.

(** The constructor: [_size = 0], [_root = null]. *)
Definition new_heap (objectPool : option P) : PairingHeap := mkHeap objectPool 0 None.

Definition clear (h : PairingHeap) : PairingHeap := mkHeap (_objectPool h) 0 None.

Definition size (h : PairingHeap) : Z := _size h.

Definition isEmpty (h : PairingHeap) : bool := bool_decide (_root h = None).

Definition add (x : TItem) (h : PairingHeap) : M (ref * PairingHeap) :=
  let '(got, objectPool') :=
    match _objectPool h with
    | Some p => let '(n, p') := get p in (n, Some p')
    | None => (None, None)
    end in
  let* node :=
    match got with
    | None => alloc (mkNode x None None None)
    | Some n => set_item n x ;; ret n
    end in
  let* root := merge (_root h) (Some node) in
  ret (node, mkHeap objectPool' (_size h + 1) root).

Definition getMin (h : PairingHeap) : M TItem :=
  match _root h with
  | None => ret undefined
  | Some r => get_item r
  end.

Definition getMinNode (h : PairingHeap) : option ref := _root h.

(** The last five statements of [delete], which both of its branches reach. *)
Definition delete_finish (node : ref) (root : option ref) (h : PairingHeap) : M PairingHeap :=
  set_child node None ;;
  set_prev node None ;;
  set_next node None ;;
  set_item node undefined ;;
  ret (mkHeap (option_map (release node) (_objectPool h)) (_size h - 1) root).

Definition delete (fuel : nat) (node : ref) (h : PairingHeap) : M PairingHeap :=
  if decide (Some node = _root h) then
    let* c := get_child node in
    let* root := collapse fuel c in
    delete_finish node root h
  else
    let* p := get_prev node in
    match p with
    | None =>
      match _objectPool h with
      | Some _ => throw AlreadyDeleted
      | None => ret h
      end
    | Some rp =>
      let* pc := get_child rp in
      let* nx := get_next node in
      (if decide (pc = Some node) then set_child rp nx else set_next rp nx) ;;
      let* nx' := get_next node in
      match nx' with
      | Some rn => let* p' := get_prev node in set_prev rn p'
      | None => ret tt
      end ;;
      let* c := get_child node in
      let* collapsed := collapse fuel c in
      let* root := merge (_root h) collapsed in
      delete_finish node root h
    end.

Definition deleteMin (fuel : nat) (h : PairingHeap) : M (TItem * PairingHeap) :=
  match _root h with
  | None => ret (undefined, h)
  | Some r =>
    let* result := get_item r in
    let* h' := delete fuel r h in
    ret (result, h')
  end.

Definition decreaseKey (node : ref) (h : PairingHeap) : M PairingHeap :=
  if decide (Some node = _root h) then ret h
  else
    let* p := get_prev node in
    match p with
    | None => throw TypeError
    | Some rp =>
      let* pc := get_child rp in
      let* nx := get_next node in
      (if decide (pc = Some node) then set_child rp nx else set_next rp nx) ;;
      let* nx' := get_next node in
      match nx' with
      | Some rn => let* p' := get_prev node in set_prev rn p'
      | None => ret tt
      end ;;
      let* root := merge (_root h) (Some node) in
      ret (mkHeap (_objectPool h) (_size h) root)
    end.

(** ** The iterator *)

(** The generator [iterate] is either not yet started on a node, suspended at
    the [yield] of a node, or finished.  A nested [yield* iterate(node.child)]
    runs to the nested generator's first [yield], and when the innermost
    generator returns all enclosing ones return, so the chain of generators
    needs no stack. *)
Inductive Iter : Type :=
| IterStart (node : option ref)
| IterAt (node : ref)
| IterDone.

Inductive Yield : Type :=
| YItem (x : TItem)
| YNode (n : ref).

(** [_iterate(nodes)] starts the generator on the root; the flag [nodes],
    which the generator's closure holds, is given to each of its steps. *)
Definition _iterate (h : PairingHeap) : Iter := IterStart (_root h).

(** From the start of [iterate(node)] to its first [yield]. *)
Definition iter_enter (nodes : bool) (node : option ref) : M (option Yield * Iter) :=
  match node with
  | None => ret (None, IterDone)
  | Some n =>
    if nodes then ret (Some (YNode n), IterAt n)
    else let* x := get_item n in ret (Some (YItem x), IterAt n)
  end.

(** One call of the iterator's [next()]. *)
Definition iter_next (fuel : nat) (nodes : bool) (it : Iter) : M (option Yield * Iter) :=
  match it with
  | IterDone => ret (None, IterDone)
  | IterStart node => iter_enter nodes node
  | IterAt n =>
    let* c := get_child n in
    match c with
    | None => ret (None, IterDone)
    | Some rc =>
      let* cn := get_next rc in
      match cn with
      | Some _ =>
        let* c' := collapse fuel c in
        set_child n c' ;;
        let* c'' := get_child n in
        match c'' with
        | Some r => set_prev r (Some n)
        | None => throw TypeError
        end
      | None => ret tt
      end ;;
      let* c2 := get_child n in
      iter_enter nodes c2
    end
  end.

(** A [for ... of] loop that collects everything the iterator yields.  The
    fuel bounds the number of [next()] calls and the loops of each [collapse]. *)
Fixpoint iter_collect (fuel : nat) (nodes : bool) (it : Iter) : M (list Yield) :=
  match fuel with
  | O => timeout
  | S fuel' =>
    let* (y, it') := iter_next fuel nodes it in
    match y with
    | None => ret []
    | Some v => let* rest := iter_collect fuel' nodes it' in ret (v :: rest)
    end
  end.

(** [n] calls of [deleteMin], collecting what they return. *)
Fixpoint drain (fuel : nat) (n : nat) (h : PairingHeap) : M (list TItem * PairingHeap) :=
  match n with
  | O => ret ([], h)
  | S n' =>
    let* (x, h') := deleteMin fuel h in
    let* (xs, h'') := drain fuel n' h' in
    ret (x :: xs, h'')
  end.

(** [add] of every item of a list, in order. *)
Fixpoint add_all (xs : list TItem) (h : PairingHeap) : M (list ref * PairingHeap) :=
  match xs with
  | [] => ret ([], h)
  | x :: xs' =>
    let* (n, h') := add x h in
    let* (ns, h'') := add_all xs' h' in
    ret (n :: ns, h'')
  end.

(** ** The shape of a heap

    A [bt] is the shape that [child] and [next] span from a node: the node,
    the list of its children ([c]) and the rest of its sibling list ([n]).
    It records the reference and the item of every node, so it determines
    the record of every node it contains. *)
Inductive bt : Type :=
| Leaf
| N (a : ref) (x : TItem) (c n : bt).

Definition root_of (t : bt) : option ref :=
  match t with
  | Leaf => None
  | N a _ _ _ => Some a
  end.

Fixpoint refs (t : bt) : list ref :=
  match t with
  | Leaf => []
  | N a _ c n => a :: refs c ++ refs n
  end.

Fixpoint items (t : bt) : list TItem :=
  match t with
  | Leaf => []
  | N _ x c n => x :: items c ++ items n
  end.

(** The store holds the shape [t], whose first node has [prev = p].  The
    [prev] of a first child is its parent and the [prev] of a later sibling
    is the sibling before it: in both cases the node one step up in [t]. *)
Fixpoint Rep (s : Store) (p : option ref) (t : bt) : Prop :=
  match t with
  | Leaf => True
  | N a x c n =>
    s !! a = Some (mkNode x (root_of c) (root_of n) p)
    ∧ Rep s (Some a) c ∧ Rep s (Some a) n
  end.

(** A single tree, as opposed to a sibling list. *)
Definition single (t : bt) : Prop :=
  match t with
  | Leaf => True
  | N _ _ _ n => n = Leaf
  end.

(** What [merge] does to the shapes of its two arguments. *)
Definition merge_t (ta tb : bt) : bt :=
  match ta, tb with
  | Leaf, _ => tb
  | _, Leaf => ta
  | N a x ca _, N b y cb _ =>
    if lessThanFunc y x then N b y (N a x ca cb) Leaf
    else N a x (N b y cb ca) Leaf
  end.

(** The temporary list of the first loop of [collapse], oldest result first. *)
Fixpoint pairs (l : bt) : list bt :=
  match l with
  | Leaf => []
  | N a x ca Leaf => [N a x ca Leaf]
  | N a x ca (N b y cb rest) => merge_t (N a x ca Leaf) (N b y cb Leaf) :: pairs rest
  end.

(** The second loop of [collapse] over a temporary list given newest first. *)
Definition fold_back (done : list bt) : bt := fold_left merge_t done Leaf.

Definition collapse_t (l : bt) : bt := fold_back (rev (pairs l)).

Fixpoint refs_all (ts : list bt) : list ref :=
  match ts with
  | [] => []
  | t :: ts' => refs t ++ refs_all ts'
  end.

Fixpoint items_all (ts : list bt) : list TItem :=
  match ts with
  | [] => []
  | t :: ts' => items t ++ items_all ts'
  end.

Definition head_root (ts : list bt) : option ref :=
  match ts with
  | [] => None
  | t :: _ => root_of t
  end.

(** The temporary list of [collapse] in the store: single trees chained
    through [prev], the newest first. *)
Fixpoint Temp (s : Store) (done : list bt) : Prop :=
  match done with
  | [] => True
  | t :: rest => t ≠ Leaf ∧ single t ∧ Rep s (head_root rest) t ∧ Temp s rest
  end.

(** ** The two-pass method on a list of trees

    The method as the specification words it: a first pass that merges each
    adjacent pair from left to right and passes an odd last tree through, and
    a second pass over its results from the last one back to the first that
    accumulates [merge_t accumulator tree]. *)
Fixpoint siblings (l : bt) : list bt :=
  match l with
  | Leaf => []
  | N a x c n => N a x c Leaf :: siblings n
  end.

Fixpoint pass_one (ts : list bt) : list bt :=
  match ts with
  | a :: b :: rest => merge_t a b :: pass_one rest
  | _ => ts
  end.

Definition pass_two (temp : list bt) : bt := fold_right (λ t acc, merge_t acc t) Leaf temp.

(** The same as one recursion over the sibling list. *)
Fixpoint two_pass_rec (ts : list bt) : bt :=
  match ts with
  | [] => Leaf
  | [a] => a
  | a :: b :: rest => merge_t (two_pass_rec rest) (merge_t a b)
  end.

(** ** Unlinking

    The statements that take [node] out of its sibling list, given the node
    [rp] that [node.prev] holds.  [delete] and [decreaseKey] each contain
    them; they are stated once here to compare the two. *)
Definition unlink_step (node rp : ref) : M unit :=
  let* pc := get_child rp in
  let* nx := get_next node in
  (if decide (pc = Some node) then set_child rp nx else set_next rp nx) ;;
  let* nx' := get_next node in
  match nx' with
  | Some rn => let* p' := get_prev node in set_prev rn p'
  | None => ret tt
  end.

(** ** Shapes under delete and decreaseKey *)

Definition children (t : bt) : bt :=
  match t with
  | Leaf => Leaf
  | N _ _ c _ => c
  end.

(** The shape without the node [n] and its descendants: the siblings after
    [n] move up into its place. *)
Fixpoint cut (n : ref) (t : bt) : bt :=
  match t with
  | Leaf => Leaf
  | N a x c nx => if decide (a = n) then nx else N a x (cut n c) (cut n nx)
  end.

(** The node [n] with its descendants, as a single tree. *)
Fixpoint sub (n : ref) (t : bt) : bt :=
  match t with
  | Leaf => Leaf
  | N a x c nx =>
    if decide (a = n) then N a x c Leaf
    else match sub n c with
         | Leaf => sub n nx
         | r => r
         end
  end.

Definition delete_t (n : ref) (t : bt) : bt :=
  if decide (root_of t = Some n) then collapse_t (children t)
  else merge_t (cut n t) (collapse_t (children (sub n t))).

Definition decreaseKey_t (n : ref) (t : bt) : bt :=
  if decide (root_of t = Some n) then t
  else merge_t (cut n t) (sub n t).

(** The shape with the children of node [n] replaced by [c']. *)
Fixpoint graft (n : ref) (c' : bt) (t : bt) : bt :=
  match t with
  | Leaf => Leaf
  | N a x c nx =>
    if decide (a = n) then N a x c' nx
    else N a x (graft n c' c) (graft n c' nx)
  end.

(** The shape after an assignment to the item of node [n]. *)
Fixpoint assign (n : ref) (x' : TItem) (t : bt) : bt :=
  match t with
  | Leaf => Leaf
  | N a x c nx => N a (if decide (a = n) then x' else x) (assign n x' c) (assign n x' nx)
  end.

(** ** Invariants *)

(** The comparator is a strict weak ordering. *)
Definition StrictWeakOrder : Prop :=
  (∀ x, lessThanFunc x x = false)
  ∧ (∀ x y z, lessThanFunc x y = true → lessThanFunc y z = true → lessThanFunc x z = true)
  ∧ (∀ x y z, lessThanFunc x y = false → lessThanFunc y z = false → lessThanFunc x z = false).

(** No descendant of a node ranks strictly before it. *)
Fixpoint heap_ordered (t : bt) : Prop :=
  match t with
  | Leaf => True
  | N _ x c n =>
    Forall (λ y, lessThanFunc y x = false) (items c)
    ∧ heap_ordered c ∧ heap_ordered n
  end.

Definition cleared (v : Node) : Prop :=
  child v = None ∧ next v = None ∧ prev v = None.

(** Every node the pool holds is an object outside the heap with clear links. *)
Definition pool_ok (s : Store) (t : bt) (objectPool : option P) : Prop :=
  match objectPool with
  | None => True
  | Some p =>
    pool_wf p
    ∧ ∀ n, pool_holds p n → (n ∉ refs t) ∧ (∃ v, s !! n = Some v ∧ cleared v)
  end.

(** The heap object [h] and the store [s] hold the tree [t]. *)
Definition Struct (h : PairingHeap) (s : Store) (t : bt) : Prop :=
  _root h = root_of t
  ∧ single t
  ∧ Rep s None t
  ∧ NoDup (refs t)
  ∧ _size h = Z.of_nat (length (refs t))
  ∧ pool_ok s t (_objectPool h).

(** ** The invariants read off the store *)

(** [b] is reached from the link [o] by following [child] and [next]. *)
Inductive reachable (s : Store) : option ref → ref → Prop :=
| reach_here a : reachable s (Some a) a
| reach_child a v b :
    s !! a = Some v → reachable s (child v) b → reachable s (Some a) b
| reach_next a v b :
    s !! a = Some v → reachable s (next v) b → reachable s (Some a) b.

(** The nodes of the heap: what is reachable from the root. *)
Definition live (h : PairingHeap) (s : Store) (n : ref) : Prop :=
  reachable s (_root h) n.

Definition descendant (s : Store) (a d : ref) : Prop :=
  ∃ v, s !! a = Some v ∧ reachable s (child v) d.

Definition heap_order (h : PairingHeap) (s : Store) : Prop :=
  ∀ a d va vd,
    live h s a → descendant s a d →
    s !! a = Some va → s !! d = Some vd →
    lessThanFunc (item vd) (item va) = false.

(** The root holds a minimum of the heap. *)
Definition root_is_min (h : PairingHeap) (s : Store) : Prop :=
  ∀ r n vr vn,
    _root h = Some r → live h s n →
    s !! r = Some vr → s !! n = Some vn →
    lessThanFunc (item vn) (item vr) = false.

Definition size_counts (h : PairingHeap) (s : Store) : Prop :=
  ∃ l : list ref,
    NoDup l ∧ (∀ a, a ∈ l ↔ live h s a) ∧ _size h = Z.of_nat (length l).

Definition root_detached (h : PairingHeap) (s : Store) : Prop :=
  ∀ r, _root h = Some r →
    ∃ v, s !! r = Some v ∧ prev v = None ∧ next v = None.

(** Every reference in the store refers to an object, as in every JavaScript
    state. *)
Definition allocated (s : Store) (o : option ref) : Prop :=
  match o with
  | Some a => is_Some (s !! a)
  | None => True
  end.

Definition closed (s : Store) : Prop :=
  ∀ a v, s !! a = Some v →
    allocated s (child v) ∧ allocated s (next v) ∧ allocated s (prev v).

(** The states of the heap: some tree is held. *)
Definition WellFormed (h : PairingHeap) (s : Store) : Prop :=
  ∃ t, Struct h s t.

Definition Inv (h : PairingHeap) (s : Store) : Prop :=
  ∃ t, Struct h s t ∧ heap_ordered t.

(** The invariants of the heap as they read on the store, together with the
    tree that carries them from one operation to the next. *)
Definition invariants_hold (h : PairingHeap) (s : Store) : Prop :=
  Inv h s ∧ heap_order h s ∧ root_is_min h s ∧ size_counts h s.

(** The items of a tree in the order in which repeated removal of the root
    produces them, at most [k] of them. *)
Fixpoint extract (k : nat) (t : bt) : list TItem :=
  match k with
  | O => []
  | S k' =>
    match t with
    | Leaf => []
    | N _ x c _ => x :: extract k' (collapse_t c)
    end
  end.

Definition min_t (t : bt) : TItem :=
  match t with
  | Leaf => undefined
  | N _ x _ _ => x
  end.

(** ** What the operations leave alone *)

(** Apart from the node [n], the store [s'] has the objects of [s] and each
    has the item it has in [s]: the two differ in links only. *)
Definition same_items_off (n : option ref) (s s' : Store) : Prop :=
  ∀ k, n ≠ Some k → item <$> (s' !! k) = item <$> (s !! k).

Definition same_items (s s' : Store) : Prop := same_items_off None s s'.

(** A computation that, whenever it returns, has kept every item apart from
    that of [n]. *)
Definition keeps {A} (n : option ref) (m : M A) : Prop :=
  ∀ s a s', m s = Ok (a, s') → same_items_off n s s'.

(** ** Callers' loops *)

(** [delete] of every handle of a list, in order. *)
Fixpoint delete_all (fuel : nat) (ns : list ref) (h : PairingHeap) : M PairingHeap :=
  match ns with
  | [] => ret h
  | n :: ns' => let* h' := delete fuel n h in delete_all fuel ns' h'
  end.

(** ** Shapes under iteration and repeated removal *)

(** A tree in which no node has a sibling. *)
Fixpoint chain (t : bt) : Prop :=
  match t with
  | Leaf => True
  | N _ _ c n => n = Leaf ∧ chain c
  end.

(** The nodes of a tree in the order in which repeated removal of the root
    reaches them, at most [k] of them, each with its item. *)
Fixpoint extract_nodes (k : nat) (t : bt) : list (ref * TItem) :=
  match k with
  | O => []
  | S k' =>
    match t with
    | Leaf => []
    | N a x c _ => (a, x) :: extract_nodes k' (collapse_t c)
    end
  end.

(** What the iterator yields at a node, by the flag [nodes]. *)
Definition yield_of (nodes : bool) (e : ref * TItem) : Yield :=
  if nodes then YNode e.1 else YItem e.2.

(** The tree that [k] removals of the root leave. *)
Fixpoint rest (k : nat) (t : bt) : bt :=
  match k with
  | O => t
  | S k' =>
    match t with
    | Leaf => Leaf
    | N _ _ c _ => rest k' (collapse_t c)
    end
  end.

(** The nodes of a sibling list itself, without their descendants: what
    following [next] from its head reaches. *)
Fixpoint top_refs (l : bt) : list ref :=
  match l with
  | Leaf => []
  | N a _ _ n => a :: top_refs n
  end.

Fixpoint top_items (l : bt) : list TItem :=
  match l with
  | Leaf => []
  | N _ x _ n => x :: top_items n
  end.

(** The root of [t] is a node of [rs], and no item of [ys] compares strictly
    less than its item. *)
Definition least_of (rs : list ref) (ys : list TItem) (t : bt) : Prop :=
  match t with
  | Leaf => rs = [] ∧ ys = []
  | N r z _ _ => r ∈ rs ∧ Forall (λ y, lessThanFunc y z = false) ys
  end.

(** * Lemmas *)

(** [set_solver] on a goal that does not mention the comparator, the pool or
    [undefined]: they are removed first, so that it cannot pick them up. *)
Ltac tidy :=
  repeat match goal with H : StrictWeakOrder |- _ => clear H end;
  try clear laws; try clear pool; try clear undefined; try clear lessThanFunc.
Ltac sets := tidy; set_solver.

(** ** Running the primitives *)

Lemma bind_Ok {A B} (m : M A) (k : A → M B) s a s' :
  m s = Ok (a, s') → bind m k s = k a s'.
Proof. unfold bind. intros ->. reflexivity. Qed.

Lemma load_Ok a s v : s !! a = Some v → load a s = Ok (v, s).
Proof. unfold load. intros ->. reflexivity. Qed.

Lemma store_Ok a f s v : s !! a = Some v → store a f s = Ok (tt, <[a := f v]> s).
Proof. unfold store. intros ->. reflexivity. Qed.

Lemma get_item_Ok a s v : s !! a = Some v → get_item a s = Ok (item v, s).
Proof. intros H. unfold get_item. erewrite bind_Ok by (apply load_Ok, H). reflexivity. Qed.
Lemma get_child_Ok a s v : s !! a = Some v → get_child a s = Ok (child v, s).
Proof. intros H. unfold get_child. erewrite bind_Ok by (apply load_Ok, H). reflexivity. Qed.
Lemma get_next_Ok a s v : s !! a = Some v → get_next a s = Ok (next v, s).
Proof. intros H. unfold get_next. erewrite bind_Ok by (apply load_Ok, H). reflexivity. Qed.
Lemma get_prev_Ok a s v : s !! a = Some v → get_prev a s = Ok (prev v, s).
Proof. intros H. unfold get_prev. erewrite bind_Ok by (apply load_Ok, H). reflexivity. Qed.

Lemma set_item_Ok a x s v : s !! a = Some v → set_item a x s = Ok (tt, <[a := with_item x v]> s).
Proof. apply store_Ok. Qed.
Lemma set_child_Ok a c s v : s !! a = Some v → set_child a c s = Ok (tt, <[a := with_child c v]> s).
Proof. apply store_Ok. Qed.
Lemma set_next_Ok a n s v : s !! a = Some v → set_next a n s = Ok (tt, <[a := with_next n v]> s).
Proof. apply store_Ok. Qed.
Lemma set_prev_Ok a p s v : s !! a = Some v → set_prev a p s = Ok (tt, <[a := with_prev p v]> s).
Proof. apply store_Ok. Qed.

(** ** merge on the store *)

Ltac look :=
  repeat first [rewrite lookup_insert_eq | rewrite lookup_insert_ne by congruence];
  first [eassumption | reflexivity].

Ltac run lem :=
  erewrite bind_Ok; [| apply lem; look]; cbn beta iota delta [item child next prev].

(** The pointer surgery of [merge] whatever the parent's former first child
    is: the records of parent and child come out the same; only the update of
    the former first child's [prev] needs it to be a third node. *)
Lemma merge_link_any (parent chld : ref) (vp vc : Node) (s : Store) :
  parent ≠ chld →
  s !! parent = Some vp → s !! chld = Some vc →
  allocated s (child vp) →
  ∃ s',
    (let* pc := get_child parent in
     set_next chld pc ;;
     let* pc' := get_child parent in
     match pc' with
     | Some c => set_prev c (Some chld)
     | None => ret tt
     end ;;
     set_prev chld (Some parent) ;;
     set_child parent (Some chld) ;;
     set_next parent None ;;
     set_prev parent None ;;
     ret (Some parent)) s = Ok (Some parent, s')
    ∧ s' !! parent = Some (mkNode (item vp) (Some chld) None None)
    ∧ s' !! chld = Some (mkNode (item vc) (child vc) (child vp) (Some parent))
    ∧ (∀ c vcc, child vp = Some c → c ≠ parent → c ≠ chld → s !! c = Some vcc →
         s' !! c = Some (mkNode (item vcc) (child vcc) (next vcc) (Some chld)))
    ∧ (∀ k, k ≠ parent → k ≠ chld → child vp ≠ Some k → s' !! k = s !! k).
Proof.
  intros Hne Hp Hc Hfc.
  run get_child_Ok. run set_next_Ok. run get_child_Ok.
  destruct (child vp) as [c|] eqn:Ec.
  - destruct Hfc as [vcc Hvcc].
    destruct (decide (c = chld)) as [->|Hcc]; [|destruct (decide (c = parent)) as [->|Hcp]].
    + (* the child is already the first child of the parent *)
      run set_prev_Ok. run set_prev_Ok. run set_child_Ok. run set_next_Ok. run set_prev_Ok.
      eexists. split; [reflexivity|]. split_and!.
      * look.
      * look.
      * intros c' v' [= <-] ? ?. done.
      * intros k H1 H2 H3. repeat (rewrite lookup_insert_ne by congruence). reflexivity.
    + (* the parent is its own first child *)
      rewrite Hp in Hvcc. injection Hvcc as <-.
      run set_prev_Ok. run set_prev_Ok. run set_child_Ok. run set_next_Ok. run set_prev_Ok.
      eexists. split; [reflexivity|]. split_and!.
      * look.
      * look.
      * intros c' v' [= <-] ? ?. done.
      * intros k H1 H2 H3. repeat (rewrite lookup_insert_ne by congruence). reflexivity.
    + run set_prev_Ok. run set_prev_Ok. run set_child_Ok. run set_next_Ok. run set_prev_Ok.
      eexists. split; [reflexivity|]. split_and!.
      * look.
      * look.
      * intros c' v' [= <-] _ _ Hv'. rewrite Hvcc in Hv'. injection Hv' as <-.
        look.
      * intros k H1 H2 H3. repeat (rewrite lookup_insert_ne by congruence). reflexivity.
  - erewrite bind_Ok by reflexivity.
    run set_prev_Ok. run set_child_Ok. run set_next_Ok. run set_prev_Ok.
    eexists. split; [reflexivity|]. split_and!.
    + look.
    + look.
    + intros c' v' [=].
    + intros k H1 H2 H3. repeat (rewrite lookup_insert_ne by congruence). reflexivity.
Qed.

(** ** Shapes in the store *)

Lemma root_of_refs t a : root_of t = Some a → a ∈ refs t.
Proof. destruct t; simpl; [discriminate|]. intros [= ->]. sets. Qed.

Lemma Rep_frame s s' p t :
  (∀ k, k ∈ refs t → s' !! k = s !! k) → Rep s p t → Rep s' p t.
Proof.
  revert p. induction t as [|a x c IHc n IHn]; intros p Hf; simpl; [done|].
  intros (Ha & Hc & Hn). split_and!.
  - rewrite Hf; [done|]. sets.
  - apply IHc; [|done]. intros k Hk. apply Hf. simpl. sets.
  - apply IHn; [|done]. intros k Hk. apply Hf. simpl. sets.
Qed.

Lemma Rep_lookup s p t k : Rep s p t → k ∈ refs t → is_Some (s !! k).
Proof.
  revert p. induction t as [|a x c IHc n IHn]; intros p; simpl; [sets|].
  intros (Ha & Hc & Hn) Hk.
  apply elem_of_cons in Hk as [->|Hk]; [eauto|].
  apply elem_of_app in Hk as [Hk|Hk]; eauto.
Qed.

(** Only the first node of a shape depends on the [prev] it is given. *)
Lemma Rep_reprev s s' p p' t :
  NoDup (refs t) →
  Rep s p t →
  (∀ a v, root_of t = Some a → s !! a = Some v → s' !! a = Some (with_prev p' v)) →
  (∀ k, k ∈ refs t → root_of t ≠ Some k → s' !! k = s !! k) →
  Rep s' p' t.
Proof.
  destruct t as [|a x c n]; simpl; [done|].
  intros Hnd (Ha & Hc & Hn) Hr Hf.
  apply NoDup_cons in Hnd as [Hnotin Hnd].
  split_and!.
  - rewrite (Hr a _ eq_refl Ha). reflexivity.
  - eapply Rep_frame; [|exact Hc]. intros k Hk. apply Hf; [sets|].
    intros [= ->]. sets.
  - eapply Rep_frame; [|exact Hn]. intros k Hk. apply Hf; [sets|].
    intros [= ->]. sets.
Qed.

Lemma merge_Rep s a b x y ca cb na pa nb pb :
  s !! a = Some (mkNode x (root_of ca) na pa) → Rep s (Some a) ca →
  s !! b = Some (mkNode y (root_of cb) nb pb) → Rep s (Some b) cb →
  NoDup (a :: refs ca ++ b :: refs cb) →
  let t' := merge_t (N a x ca Leaf) (N b y cb Leaf) in
  ∃ s', merge (Some a) (Some b) s = Ok (root_of t', s')
        ∧ Rep s' None t'
        ∧ (∀ k, k ∉ a :: refs ca ++ b :: refs cb → s' !! k = s !! k).
Proof.
  intros Ha Hca Hb Hcb Hnd t'.
  apply NoDup_cons in Hnd as [Hna Hnd].
  apply NoDup_app in Hnd as (Hndca & Hdisj & Hnd).
  apply NoDup_cons in Hnd as [Hnb Hndcb].
  assert (a ≠ b) as Hab by sets.
  unfold merge. rewrite decide_False by done.
  run get_item_Ok. run get_item_Ok. simpl.
  subst t'. unfold merge_t.
  destruct (lessThanFunc y x) eqn:Hlt.
  - destruct (merge_link_any b a _ _ s (not_eq_sym Hab) Hb Ha) as (s' & Hrun & Hp & Hc & Hfc & Hfr).
    { simpl. destruct (root_of cb) as [c|] eqn:Hc; [|done]. simpl.
      apply root_of_refs in Hc. eapply Rep_lookup; [exact Hcb|done]. }
    exists s'. split; [exact Hrun|]. simpl in *. split.
    + split_and!; [exact Hp|exact Hc| | |done].
      * eapply Rep_frame; [|exact Hca]. intros k Hk. apply Hfr; [sets..|].
        intros Hr. apply root_of_refs in Hr. sets.
      * eapply Rep_reprev; [exact Hndcb|exact Hcb| |].
        -- intros c v Hr Hv. pose proof (root_of_refs _ _ Hr) as Hin.
           apply (Hfc c v Hr); [intros ->; sets|intros ->; sets|done].
        -- intros k Hk Hr. apply Hfr; [sets|sets|done].
    + intros k Hk. apply Hfr; [sets|sets|].
      intros Hr. apply root_of_refs in Hr. sets.
  - destruct (merge_link_any a b _ _ s Hab Ha Hb) as (s' & Hrun & Hp & Hc & Hfc & Hfr).
    { simpl. destruct (root_of ca) as [c|] eqn:Hc; [|done]. simpl.
      apply root_of_refs in Hc. eapply Rep_lookup; [exact Hca|done]. }
    exists s'. split; [exact Hrun|]. simpl in *. split.
    + split_and!; [exact Hp|exact Hc| | |done].
      * eapply Rep_frame; [|exact Hcb]. intros k Hk. apply Hfr; [sets..|].
        intros Hr. apply root_of_refs in Hr. sets.
      * eapply Rep_reprev; [exact Hndca|exact Hca| |].
        -- intros c v Hr Hv. pose proof (root_of_refs _ _ Hr) as Hin.
           apply (Hfc c v Hr); [intros ->; sets|intros ->; sets|done].
        -- intros k Hk Hr. apply Hfr; [sets|sets|done].
    + intros k Hk. apply Hfr; [sets|sets|].
      intros Hr. apply root_of_refs in Hr. sets.
Qed.

(** ** Shapes under merge and collapse *)

Lemma bt_pair_ind (Q : bt → Prop) :
  Q Leaf →
  (∀ a x ca, Q (N a x ca Leaf)) →
  (∀ a x ca b y cb rest, Q rest → Q (N a x ca (N b y cb rest))) →
  ∀ l, Q l.
Proof.
  intros HL H1 H2 l.
  enough (Q l ∧ ∀ a x ca, Q (N a x ca l)) as [H _] by exact H.
  induction l as [|b y cb _ rest [IH1 IH2]]; split; auto.
Qed.

Lemma merge_t_single ta tb : single ta → single tb → single (merge_t ta tb).
Proof.
  destruct ta as [|a x ca na], tb as [|b y cb nb]; simpl; auto.
  intros _ _. destruct (lessThanFunc y x); reflexivity.
Qed.

Lemma merge_t_Leaf_r ta : merge_t ta Leaf = ta.
Proof. destruct ta; reflexivity. Qed.

Lemma merge_t_refs ta tb :
  single ta → single tb → refs (merge_t ta tb) ≡ₚ refs ta ++ refs tb.
Proof.
  destruct ta as [|a x ca na], tb as [|b y cb nb]; simpl; intros Ha Hb; subst;
    rewrite ?app_nil_r; try reflexivity.
  destruct (lessThanFunc y x); simpl; rewrite ?app_nil_r.
  - apply (Permutation_middle (a :: refs ca)).
  - constructor. apply (Permutation_app_comm (b :: refs cb)).
Qed.

Lemma merge_t_items ta tb :
  single ta → single tb → items (merge_t ta tb) ≡ₚ items ta ++ items tb.
Proof.
  destruct ta as [|a x ca na], tb as [|b y cb nb]; simpl; intros Ha Hb; subst;
    rewrite ?app_nil_r; try reflexivity.
  destruct (lessThanFunc y x); simpl; rewrite ?app_nil_r.
  - apply (Permutation_middle (x :: items ca)).
  - constructor. apply (Permutation_app_comm (y :: items cb)).
Qed.

Lemma merge_t_nonLeaf ta tb : ta ≠ Leaf ∨ tb ≠ Leaf → merge_t ta tb ≠ Leaf.
Proof.
  destruct ta as [|a x ca na], tb as [|b y cb nb]; simpl; try discriminate.
  - intros [H|H]; by destruct H.
  - intros _. destruct (lessThanFunc y x); discriminate.
Qed.

Lemma refs_all_app ts1 ts2 : refs_all (ts1 ++ ts2) = refs_all ts1 ++ refs_all ts2.
Proof. induction ts1 as [|t ts1 IH]; simpl; [done|]. rewrite IH, app_assoc. done. Qed.

Lemma items_all_app ts1 ts2 : items_all (ts1 ++ ts2) = items_all ts1 ++ items_all ts2.
Proof. induction ts1 as [|t ts1 IH]; simpl; [done|]. rewrite IH, app_assoc. done. Qed.

Lemma refs_all_rev ts : refs_all (rev ts) ≡ₚ refs_all ts.
Proof.
  induction ts as [|t ts IH]; simpl; [done|].
  rewrite refs_all_app, IH. simpl. rewrite app_nil_r. apply Permutation_app_comm.
Qed.

Lemma items_all_rev ts : items_all (rev ts) ≡ₚ items_all ts.
Proof.
  induction ts as [|t ts IH]; simpl; [done|].
  rewrite items_all_app, IH. simpl. rewrite app_nil_r. apply Permutation_app_comm.
Qed.

Lemma pairs_cons2 a x ca b y cb rest :
  pairs (N a x ca (N b y cb rest))
  = merge_t (N a x ca Leaf) (N b y cb Leaf) :: pairs rest.
Proof. reflexivity. Qed.

Lemma pairs_single l : Forall (λ t, t ≠ Leaf ∧ single t) (pairs l).
Proof.
  induction l as [|a x ca|a x ca b y cb rest IH] using bt_pair_ind.
  - constructor.
  - constructor; [|constructor]. split; [discriminate|reflexivity].
  - rewrite pairs_cons2. constructor; [|done]. split.
    + apply merge_t_nonLeaf. left. discriminate.
    + apply merge_t_single; reflexivity.
Qed.

Lemma pairs_refs l : refs_all (pairs l) ≡ₚ refs l.
Proof.
  induction l as [|a x ca|a x ca b y cb rest IH] using bt_pair_ind.
  - done.
  - simpl. rewrite !app_nil_r. done.
  - rewrite pairs_cons2.
    cbn [refs_all]. rewrite IH, merge_t_refs by reflexivity.
    simpl. rewrite !app_nil_r.
    rewrite <- !app_assoc. simpl. done.
Qed.

Lemma pairs_items l : items_all (pairs l) ≡ₚ items l.
Proof.
  induction l as [|a x ca|a x ca b y cb rest IH] using bt_pair_ind.
  - done.
  - simpl. rewrite !app_nil_r. done.
  - rewrite pairs_cons2.
    cbn [items_all]. rewrite IH, merge_t_items by reflexivity.
    simpl. rewrite !app_nil_r.
    rewrite <- !app_assoc. simpl. done.
Qed.

Lemma pairs_length l : (length (pairs l) ≤ length (refs l))%nat.
Proof.
  induction l as [|a x ca|a x ca b y cb rest IH] using bt_pair_ind.
  - simpl. lia.
  - simpl. lia.
  - rewrite pairs_cons2. simpl. rewrite !length_app. simpl. rewrite !length_app. lia.
Qed.

Lemma fold_back_acc done acc :
  single acc → Forall (λ t, t ≠ Leaf ∧ single t) done →
  single (fold_left merge_t done acc)
  ∧ refs (fold_left merge_t done acc) ≡ₚ refs acc ++ refs_all done
  ∧ items (fold_left merge_t done acc) ≡ₚ items acc ++ items_all done.
Proof.
  intros Hacc Hd. revert acc Hacc.
  induction Hd as [|t done [Ht1 Ht2] Hd IH]; intros acc Hacc; simpl.
  - rewrite !app_nil_r. done.
  - destruct (IH (merge_t acc t)) as (H1 & H2 & H3).
    { by apply merge_t_single. }
    split_and!; [done| |].
    + rewrite H2, merge_t_refs by done. by rewrite app_assoc.
    + rewrite H3, merge_t_items by done. by rewrite app_assoc.
Qed.

Lemma collapse_t_single l : single (collapse_t l).
Proof.
  unfold collapse_t, fold_back.
  apply fold_back_acc; [done|]. apply Forall_rev, pairs_single.
Qed.

Lemma collapse_t_refs l : refs (collapse_t l) ≡ₚ refs l.
Proof.
  unfold collapse_t, fold_back.
  destruct (fold_back_acc (rev (pairs l)) Leaf) as (_ & H & _);
    [done|apply Forall_rev, pairs_single|].
  rewrite H. simpl. rewrite refs_all_rev. apply pairs_refs.
Qed.

Lemma collapse_t_items l : items (collapse_t l) ≡ₚ items l.
Proof.
  unfold collapse_t, fold_back.
  destruct (fold_back_acc (rev (pairs l)) Leaf) as (_ & _ & H);
    [done|apply Forall_rev, pairs_single|].
  rewrite H. simpl. rewrite items_all_rev. apply pairs_items.
Qed.

(** ** collapse on the store *)

Lemma Temp_frame s s' done :
  (∀ k, k ∈ refs_all done → s' !! k = s !! k) → Temp s done → Temp s' done.
Proof.
  induction done as [|t done IH]; simpl; [done|].
  intros Hf (H1 & H2 & H3 & H4). split_and!; [done|done| |].
  - eapply Rep_frame; [|exact H3]. intros k Hk. apply Hf. sets.
  - apply IH; [|done]. intros k Hk. apply Hf. sets.
Qed.

Lemma Rep_set_prev s p p' t r :
  NoDup (refs t) → Rep s p t → root_of t = Some r →
  ∃ v, s !! r = Some v ∧ Rep (<[r := with_prev p' v]> s) p' t.
Proof.
  intros Hnd HR Hr. destruct t as [|a x c n]; [discriminate|].
  injection Hr as ->. pose proof HR as (Ha & _ & _).
  eexists. split; [exact Ha|].
  eapply Rep_reprev; [exact Hnd|exact HR| |].
  - intros a v [= <-] Hv. rewrite lookup_insert_eq. congruence.
  - intros k Hk Hne. rewrite lookup_insert_ne; [done|]. simpl in Hne. congruence.
Qed.

Lemma merge_trees s pa pb ta tb :
  ta ≠ Leaf → tb ≠ Leaf → single ta → single tb →
  Rep s pa ta → Rep s pb tb → NoDup (refs ta ++ refs tb) →
  ∃ s', merge (root_of ta) (root_of tb) s = Ok (root_of (merge_t ta tb), s')
        ∧ Rep s' None (merge_t ta tb)
        ∧ (∀ k, k ∉ refs ta ++ refs tb → s' !! k = s !! k).
Proof.
  destruct ta as [|a x ca na]; [done|]. destruct tb as [|b y cb nb]; [done|].
  intros _ _ Ha Hb. simpl in Ha, Hb. subst na nb.
  intros (Hla & Hca & _) (Hlb & Hcb & _) Hnd.
  cbn [refs] in Hnd. rewrite !app_nil_r in Hnd.
  destruct (merge_Rep s a b x y ca cb _ _ _ _ Hla Hca Hlb Hcb Hnd) as (s' & Hrun & HR & Hfr).
  exists s'. split_and!; [exact Hrun|exact HR|].
  intros k Hk. apply Hfr. cbn [refs] in Hk. rewrite !app_nil_r in Hk. exact Hk.
Qed.

Lemma pass1_Rep fuel : ∀ l s p done,
  (length (refs l) ≤ fuel)%nat →
  Rep s p l → Temp s done → NoDup (refs l ++ refs_all done) →
  ∃ s', collapse_pass1 fuel (root_of l) (head_root done) s
          = Ok (head_root (rev (pairs l) ++ done), s')
        ∧ Temp s' (rev (pairs l) ++ done)
        ∧ (∀ k, k ∉ refs l → s' !! k = s !! k).
Proof.
  induction fuel as [|fuel IH]; intros l s p done Hfuel HR HT Hnd.
  { destruct l; simpl in Hfuel; [|lia]. exists s. simpl. eauto. }
  destruct l as [|a x ca [|b y cb rest]].
  - exists s. simpl. eauto.
  - (* an odd final node *)
    destruct HR as (Ha & Hca & _). simpl root_of in *.
    cbn [collapse_pass1].
    run get_next_Ok. run set_prev_Ok.
    eexists. split; [reflexivity|].
    cbn [refs] in Hnd. rewrite app_nil_r in Hnd.
    apply NoDup_app in Hnd as (Hnd1 & Hdisj & Hnd2).
    apply NoDup_cons in Hnd1 as [Hna Hndca].
    split; [|intros k Hk; rewrite lookup_insert_ne; [done|sets]].
    simpl. split_and!; [done|done| | | |].
    + rewrite lookup_insert_eq. reflexivity.
    + eapply Rep_frame; [|exact Hca]. intros k Hk.
      rewrite lookup_insert_ne; [done|sets].
    + done.
    + eapply Temp_frame; [|exact HT]. intros k Hk.
      rewrite lookup_insert_ne; [done|]. intros <-. apply (Hdisj a); sets.
  - (* a pair *)
    pose proof HR as (Ha & Hca & Hb & Hcb & Hrest).
    simpl root_of in *. cbn [collapse_pass1].
    run get_next_Ok. run get_next_Ok.
    assert (NoDup ((a :: refs ca ++ b :: refs cb) ++ refs rest ++ refs_all done)) as Hnd'.
    { replace ((a :: refs ca ++ b :: refs cb) ++ refs rest ++ refs_all done)
        with (refs (N a x ca (N b y cb rest)) ++ refs_all done); [exact Hnd|].
      simpl. repeat (rewrite <- app_assoc; simpl). reflexivity. }
    apply NoDup_app in Hnd' as (Hndab & Hdisj & Hndrd).
    apply NoDup_app in Hndrd as (Hndr & Hdisj2 & Hndd).
    destruct (merge_Rep s a b x y ca cb _ _ _ _ Ha Hca Hb Hcb Hndab) as (s1 & Hrun & HR1 & Hfr1).
    set (t' := merge_t (N a x ca Leaf) (N b y cb Leaf)) in *.
    assert (refs t' ≡ₚ a :: refs ca ++ b :: refs cb) as Hperm.
    { subst t'. rewrite merge_t_refs by done. simpl. rewrite !app_nil_r. done. }
    assert (t' ≠ Leaf) as Hne by (apply merge_t_nonLeaf; left; discriminate).
    destruct (root_of t') as [r|] eqn:Hr; [|by destruct t'].
    erewrite bind_Ok by exact Hrun. cbn beta iota.
    destruct (Rep_set_prev s1 None (head_root done) t' r) as (v & Hv & HR2);
      [by rewrite Hperm|done|done|].
    run set_prev_Ok.
    assert (r ∈ a :: refs ca ++ b :: refs cb) as Hrin.
    { rewrite <- Hperm. by apply root_of_refs. }
    destruct (IH rest (<[r:=with_prev (head_root done) v]> s1) (Some b) (t' :: done))
      as (s' & Hrun' & HT' & Hfr').
    + simpl in Hfuel. rewrite !length_app in Hfuel. simpl in Hfuel.
      rewrite !length_app in Hfuel. lia.
    + eapply Rep_frame; [|exact Hrest]. intros k Hk.
      rewrite lookup_insert_ne by (intros <-; apply (Hdisj r); sets).
      apply Hfr1. intros Hin. apply (Hdisj k); sets.
    + simpl. split_and!; [done| |done|].
      * subst t'. apply merge_t_single; done.
      * eapply Temp_frame; [|exact HT]. intros k Hk.
        rewrite lookup_insert_ne by (intros <-; apply (Hdisj r); sets).
        apply Hfr1. intros Hin. apply (Hdisj k); sets.
    + simpl. rewrite Hperm.
      rewrite (Permutation_app_comm (refs rest)). rewrite <- app_assoc.
      apply NoDup_app. split_and!; [done| |].
      * intros k Hk Hk'. apply (Hdisj k Hk). sets.
      * apply NoDup_app. split_and!; [done| |done].
        intros k Hk Hk'. apply (Hdisj2 k Hk' Hk).
    + cbn [head_root] in Hrun'. rewrite Hr in Hrun'.
      exists s'. rewrite pairs_cons2. fold t'. simpl rev. rewrite <- app_assoc. simpl.
      split_and!; [exact Hrun'|exact HT'|].
      intros k Hk. rewrite Hfr' by sets.
      rewrite lookup_insert_ne by (intros <-; sets).
      apply Hfr1. sets.
Qed.

Lemma pass2_Rep fuel : ∀ done acc s pa,
  (length done ≤ fuel)%nat → single acc →
  Temp s done → Rep s pa acc →
  (acc ≠ Leaf → done = [] → pa = None) →
  NoDup (refs acc ++ refs_all done) →
  ∃ s', collapse_pass2 fuel (root_of acc) (head_root done) s
          = Ok (root_of (fold_left merge_t done acc), s')
        ∧ Rep s' None (fold_left merge_t done acc)
        ∧ (∀ k, k ∉ refs acc ++ refs_all done → s' !! k = s !! k).
Proof.
  induction fuel as [|fuel IH]; intros done acc s pa Hfuel Hsingle HT HR Hpa Hnd.
  { destruct done; simpl in Hfuel; [|lia]. exists s. simpl. split_and!; [done| |done].
    destruct acc; [done|]. rewrite Hpa in HR; done. }
  destruct done as [|t rest].
  { exists s. simpl. split_and!; [done| |done].
    destruct acc; [done|]. rewrite Hpa in HR; done. }
  destruct HT as (Hne & Hst & HRt & HTrest).
  destruct t as [|r x c n]; [done|]. simpl in Hst. subst n.
  pose proof HRt as (Hr & _ & _).
  cbn [head_root root_of collapse_pass2 fold_left].
  run get_prev_Ok.
  destruct acc as [|a y ca na].
  - (* the first step: merge(null, tail) *)
    cbn [merge_t root_of merge]. erewrite bind_Ok by reflexivity.
    destruct (IH rest (N r x c Leaf) s (head_root rest)) as (s' & Hrun & HR' & Hfr).
    + simpl in Hfuel. lia.
    + done.
    + done.
    + done.
    + intros _ ->. done.
    + exact Hnd.
    + exists s'. split_and!; [exact Hrun|exact HR'|].
      intros k Hk. apply Hfr. exact Hk.
  - simpl in Hsingle. subst na.
    cbn [refs_all] in Hnd. rewrite app_assoc in Hnd.
    apply NoDup_app in Hnd as (Hnd1 & Hdisj & Hnd2).
    destruct (merge_trees s pa (head_root rest) (N a y ca Leaf) (N r x c Leaf))
      as (s1 & Hrun1 & HR1 & Hfr1); [done..|].
    cbn [root_of] in Hrun1 |- *.
    erewrite bind_Ok by exact Hrun1.
    destruct (IH rest (merge_t (N a y ca Leaf) (N r x c Leaf)) s1 None)
      as (s' & Hrun & HR' & Hfr).
    + simpl in Hfuel. lia.
    + apply merge_t_single; done.
    + eapply Temp_frame; [|exact HTrest]. intros k Hk. apply Hfr1.
      intros Hin. apply (Hdisj k Hin Hk).
    + exact HR1.
    + done.
    + rewrite merge_t_refs by done. apply NoDup_app. done.
    + exists s'. split_and!; [exact Hrun|exact HR'|].
      intros k Hk. rewrite Hfr.
      * apply Hfr1. cbn [refs_all] in Hk. rewrite app_assoc in Hk. sets.
      * rewrite merge_t_refs by done. cbn [refs_all] in Hk.
        rewrite app_assoc in Hk. exact Hk.
Qed.

Lemma collapse_Rep fuel l s p :
  (length (refs l) ≤ fuel)%nat → Rep s p l → NoDup (refs l) →
  ∃ s', collapse fuel (root_of l) s = Ok (root_of (collapse_t l), s')
        ∧ Rep s' None (collapse_t l)
        ∧ (∀ k, k ∉ refs l → s' !! k = s !! k).
Proof.
  intros Hfuel HR Hnd.
  destruct (root_of l) as [r|] eqn:Hr.
  2:{ destruct l; [|discriminate]. exists s. simpl. done. }
  destruct (pass1_Rep fuel l s p [] Hfuel HR I) as (s1 & Hrun1 & HT1 & Hfr1).
  { simpl. rewrite app_nil_r. exact Hnd. }
  rewrite app_nil_r in Hrun1, HT1. simpl head_root in Hrun1. rewrite Hr in Hrun1.
  unfold collapse. erewrite bind_Ok by exact Hrun1.
  destruct (pass2_Rep fuel (rev (pairs l)) Leaf s1 None) as (s' & Hrun2 & HR2 & Hfr2).
  - rewrite length_rev. pose proof (pairs_length l). lia.
  - done.
  - exact HT1.
  - done.
  - done.
  - simpl. rewrite refs_all_rev, pairs_refs. exact Hnd.
  - exists s'. split_and!; [exact Hrun2|exact HR2|].
    intros k Hk. rewrite Hfr2; [by apply Hfr1|].
    simpl. rewrite refs_all_rev, pairs_refs. exact Hk.
Qed.

(** ** cut and sub *)

Lemma cut_notin n t : n ∉ refs t → cut n t = t.
Proof.
  induction t as [|a x c IHc nx IHn]; simpl; [done|].
  intros Hn. rewrite decide_False by sets.
  rewrite IHc, IHn by sets. done.
Qed.

Lemma sub_notin n t : n ∉ refs t → sub n t = Leaf.
Proof.
  induction t as [|a x c IHc nx IHn]; simpl; [done|].
  intros Hn. rewrite decide_False by sets.
  rewrite IHc, IHn by sets. done.
Qed.

Lemma cut_root n t : root_of t ≠ Some n → root_of (cut n t) = root_of t.
Proof.
  destruct t as [|a x c nx]; simpl; [done|].
  intros Hne. rewrite decide_False by congruence. done.
Qed.

Lemma cut_refs_sub n t k : k ∈ refs (cut n t) → k ∈ refs t.
Proof.
  induction t as [|a x c IHc nx IHn]; simpl; [done|].
  destruct (decide (a = n)); simpl; sets.
Qed.

Lemma sub_shape n t : n ∈ refs t → ∃ x c, sub n t = N n x c Leaf.
Proof.
  induction t as [|a x c IHc nx IHn]; simpl; [sets|].
  intros Hin. destruct (decide (a = n)) as [->|Hne]; [eauto|].
  destruct (decide (n ∈ refs c)) as [Hc|Hc].
  - destruct (IHc Hc) as (xn & cn & ->). eauto.
  - rewrite (sub_notin n c Hc). apply IHn. sets.
Qed.

Lemma cut_sub_refs n t :
  NoDup (refs t) → n ∈ refs t → refs t ≡ₚ refs (cut n t) ++ refs (sub n t).
Proof.
  induction t as [|a x c IHc nx IHn]; simpl; [sets|].
  intros Hnd Hin.
  apply NoDup_cons in Hnd as [Ha Hnd].
  apply NoDup_app in Hnd as (Hndc & Hdisj & Hndn).
  destruct (decide (a = n)) as [->|Hne].
  - simpl. rewrite app_nil_r.
    rewrite (Permutation_app_comm (refs nx)). simpl.
    constructor. done.
  - destruct (decide (n ∈ refs c)) as [Hc|Hc].
    + destruct (sub_shape n c Hc) as (xn & cn & Hs). rewrite Hs, <- Hs.
      rewrite (cut_notin n nx) by (intros ?; eapply Hdisj; eauto).
      simpl. rewrite (IHc Hndc Hc) at 1.
      constructor. rewrite <- !app_assoc. apply Permutation_app_head.
      apply Permutation_app_comm.
    + rewrite (sub_notin n c Hc), (cut_notin n c Hc).
      assert (n ∈ refs nx) as Hn by sets.
      simpl. rewrite (IHn Hndn Hn) at 1.
      constructor. rewrite <- !app_assoc. done.
Qed.

Lemma cut_sub_items n t :
  NoDup (refs t) → n ∈ refs t → items t ≡ₚ items (cut n t) ++ items (sub n t).
Proof.
  induction t as [|a x c IHc nx IHn]; simpl; [sets|].
  intros Hnd Hin.
  apply NoDup_cons in Hnd as [Ha Hnd].
  apply NoDup_app in Hnd as (Hndc & Hdisj & Hndn).
  destruct (decide (a = n)) as [->|Hne].
  - simpl. rewrite app_nil_r.
    rewrite (Permutation_app_comm (items nx)). simpl.
    constructor. done.
  - destruct (decide (n ∈ refs c)) as [Hc|Hc].
    + destruct (sub_shape n c Hc) as (xn & cn & Hs). rewrite Hs, <- Hs.
      rewrite (cut_notin n nx) by (intros ?; eapply Hdisj; eauto).
      simpl. rewrite (IHc Hndc Hc) at 1.
      constructor. rewrite <- !app_assoc. apply Permutation_app_head.
      apply Permutation_app_comm.
    + rewrite (sub_notin n c Hc), (cut_notin n c Hc).
      assert (n ∈ refs nx) as Hn by sets.
      simpl. rewrite (IHn Hndn Hn) at 1.
      constructor. rewrite <- !app_assoc. done.
Qed.

Lemma cut_single n t : single t → root_of t ≠ Some n → single (cut n t).
Proof.
  destruct t as [|a x c nx]; simpl; [done|].
  intros -> Hne. rewrite decide_False by congruence. done.
Qed.

(** ** Unlinking on the store *)

Lemma bind_assoc {A B C} (m : M A) (f : A → M B) (g : B → M C) s :
  bind (bind m f) g s = bind m (λ x, bind (f x) g) s.
Proof. unfold bind. destruct (m s) as [[a s']| |]; reflexivity. Qed.

Lemma bind_ext {A B} (m : M A) (f g : A → M B) s :
  (∀ a s', f a s' = g a s') → bind m f s = bind m g s.
Proof. intros H. unfold bind. destruct (m s) as [[a s']| |]; auto. Qed.

(** The head of the store after [unlink_step]: the node before [n] skips it,
    and the node after [n] points back past it. *)
Lemma unlink_at s n rp vn vp (via_child : bool) :
  n ≠ rp →
  s !! n = Some vn → prev vn = Some rp →
  s !! rp = Some vp →
  (if via_child then child vp = Some n else child vp ≠ Some n) →
  (∀ rn, next vn = Some rn → rn ≠ n ∧ rn ≠ rp ∧ is_Some (s !! rn)) →
  ∃ s', unlink_step n rp s = Ok (tt, s')
    ∧ s' !! rp = Some (if via_child then with_child (next vn) vp else with_next (next vn) vp)
    ∧ (∀ rn vrn, next vn = Some rn → s !! rn = Some vrn →
         s' !! rn = Some (with_prev (Some rp) vrn))
    ∧ (∀ k, k ≠ rp → next vn ≠ Some k → s' !! k = s !! k).
Proof.
  intros Hne Hn Hprev Hp Hvia Hnext. unfold unlink_step.
  run get_child_Ok. run get_next_Ok.
  destruct via_child.
  - rewrite decide_True by done. run set_child_Ok. run get_next_Ok.
    destruct (next vn) as [rn|] eqn:En.
    + destruct (Hnext rn eq_refl) as (H1 & H2 & [vrn Hrn]).
      run get_prev_Ok. rewrite Hprev.
      erewrite set_prev_Ok by look.
      eexists. split; [reflexivity|]. split_and!.
      * look.
      * intros ? ? [= <-] ?. rewrite lookup_insert_eq. congruence.
      * intros k ? ?. repeat (rewrite lookup_insert_ne by congruence). done.
    + eexists. split; [reflexivity|]. split_and!.
      * look.
      * intros ? ? [=].
      * intros k ? ?. repeat (rewrite lookup_insert_ne by congruence). done.
  - rewrite decide_False by done. run set_next_Ok. run get_next_Ok.
    destruct (next vn) as [rn|] eqn:En.
    + destruct (Hnext rn eq_refl) as (H1 & H2 & [vrn Hrn]).
      run get_prev_Ok. rewrite Hprev.
      erewrite set_prev_Ok by look.
      eexists. split; [reflexivity|]. split_and!.
      * look.
      * intros ? ? [= <-] ?. rewrite lookup_insert_eq. congruence.
      * intros k ? ?. repeat (rewrite lookup_insert_ne by congruence). done.
    + eexists. split; [reflexivity|]. split_and!.
      * look.
      * intros ? ? [=].
      * intros k ? ?. repeat (rewrite lookup_insert_ne by congruence). done.
Qed.

Lemma unlink_Rep n : ∀ t p s,
  Rep s p t → NoDup (refs t) → n ∈ refs t → root_of t ≠ Some n →
  ∃ vn rp s',
    s !! n = Some vn ∧ prev vn = Some rp
    ∧ unlink_step n rp s = Ok (tt, s')
    ∧ Rep s' p (cut n t)
    ∧ (∀ k, k ∉ refs (cut n t) → s' !! k = s !! k).
Proof.
  induction t as [|a x c IHc nx IHn]; intros p s HR Hnd Hin Hroot; [sets|].
  assert (a ≠ n) as Han by (simpl in Hroot; congruence).
  destruct HR as (Ha & HRc & HRn).
  cbn [refs] in Hnd. apply NoDup_cons in Hnd as [Hac Hnd].
  apply NoDup_app in Hnd as (Hndc & Hdisj & Hndn).
  cbn [cut]. rewrite decide_False by done.
  destruct (decide (n ∈ refs c)) as [Hc|Hc].
  - assert (n ∉ refs nx) as Hnx by (by apply Hdisj).
    rewrite (cut_notin n nx Hnx).
    destruct (decide (root_of c = Some n)) as [Hrc|Hrc].
    + destruct c as [|b xn cn nn]; [discriminate|]. injection Hrc as ->.
      destruct HRc as (Hn & HRcn & HRnn).
      cbn [refs] in Hndc. apply NoDup_cons in Hndc as [Hncn Hndc].
      apply NoDup_app in Hndc as (Hndcn & Hdisjc & Hndnn).
      destruct (unlink_at s n a _ _ true (not_eq_sym Han) Hn eq_refl Ha eq_refl)
        as (s' & Hrun & Hsa & Hsrn & Hfr).
      { cbn [next]. intros rn Hrn. apply root_of_refs in Hrn. split_and!.
        - intros ->. sets.
        - intros ->. sets.
        - eapply Rep_lookup; [exact HRnn|done]. }
      cbn [next] in *.
      eexists _, a, s'. split_and!; [exact Hn|done|exact Hrun| |].
      * cbn [cut]. rewrite decide_True by done. cbn [Rep]. split_and!.
        -- rewrite Hsa. reflexivity.
        -- eapply Rep_reprev; [exact Hndnn|exact HRnn| |].
           ++ intros rn vrn Hrn Hv. eapply Hsrn; eauto.
           ++ intros k Hk Hrk. apply Hfr; [|done]. intros ->. sets.
        -- eapply Rep_frame; [|exact HRn]. intros k Hk. apply Hfr.
           ++ intros ->. sets.
           ++ intros Hrk. apply root_of_refs in Hrk. apply (Hdisj k); sets.
      * intros k Hk. cbn [cut] in Hk. rewrite decide_True in Hk by done.
        apply Hfr; [sets|]. intros Hrk. apply root_of_refs in Hrk. sets.
    + destruct (IHc (Some a) s HRc Hndc Hc Hrc) as (vn & rp & s' & Hn & Hp & Hrun & HR' & Hfr).
      exists vn, rp, s'. split_and!; [done..| |].
      * cbn [Rep]. rewrite (cut_root n c Hrc). split_and!.
        -- rewrite Hfr; [done|]. intros Hk. apply cut_refs_sub in Hk. sets.
        -- done.
        -- eapply Rep_frame; [|exact HRn]. intros k Hk. apply Hfr.
           intros Hk'. apply cut_refs_sub in Hk'. apply (Hdisj k); done.
      * intros k Hk. apply Hfr. sets.
  - assert (n ∈ refs nx) as Hnx by sets.
    rewrite (cut_notin n c Hc).
    destruct (decide (root_of nx = Some n)) as [Hrn|Hrn].
    + destruct nx as [|b xn cn nn]; [discriminate|]. injection Hrn as ->.
      destruct HRn as (Hn & HRcn & HRnn).
      cbn [refs] in Hndn. apply NoDup_cons in Hndn as [Hncn Hndn].
      apply NoDup_app in Hndn as (Hndcn & Hdisjn & Hndnn).
      destruct (unlink_at s n a _ _ false (not_eq_sym Han) Hn eq_refl Ha)
        as (s' & Hrun & Hsa & Hsrn & Hfr).
      { cbn [child]. intros Hrc. apply root_of_refs in Hrc. done. }
      { cbn [next]. intros rn Hrn. apply root_of_refs in Hrn. split_and!.
        - intros ->. sets.
        - intros ->. sets.
        - eapply Rep_lookup; [exact HRnn|done]. }
      cbn [next] in *.
      eexists _, a, s'. split_and!; [exact Hn|done|exact Hrun| |].
      * cbn [cut]. rewrite decide_True by done. cbn [Rep]. split_and!.
        -- rewrite Hsa. reflexivity.
        -- eapply Rep_frame; [|exact HRc]. intros k Hk. apply Hfr.
           ++ intros ->. sets.
           ++ intros Hrk. apply root_of_refs in Hrk. apply (Hdisj k); sets.
        -- eapply Rep_reprev; [exact Hndnn|exact HRnn| |].
           ++ intros rn vrn Hrn Hv. eapply Hsrn; eauto.
           ++ intros k Hk Hrk. apply Hfr; [|done]. intros ->. sets.
      * intros k Hk. cbn [cut] in Hk. rewrite decide_True in Hk by done.
        apply Hfr; [sets|]. intros Hrk. apply root_of_refs in Hrk. sets.
    + destruct (IHn (Some a) s HRn Hndn Hnx Hrn) as (vn & rp & s' & Hn & Hp & Hrun & HR' & Hfr).
      exists vn, rp, s'. split_and!; [done..| |].
      * cbn [Rep]. rewrite (cut_root n nx Hrn). split_and!.
        -- rewrite Hfr; [done|]. intros Hk. apply cut_refs_sub in Hk. sets.
        -- eapply Rep_frame; [|exact HRc]. intros k Hk. apply Hfr.
           intros Hk'. apply cut_refs_sub in Hk'. apply (Hdisj k); done.
        -- done.
      * intros k Hk. apply Hfr. sets.
Qed.

(** ** The operations on a well-formed heap *)

Lemma merge_roots s ta tb :
  single ta → single tb → Rep s None ta → Rep s None tb →
  NoDup (refs ta ++ refs tb) →
  ∃ s', merge (root_of ta) (root_of tb) s = Ok (root_of (merge_t ta tb), s')
        ∧ Rep s' None (merge_t ta tb)
        ∧ (∀ k, k ∉ refs ta ++ refs tb → s' !! k = s !! k).
Proof.
  intros Hsa Hsb HRa HRb Hnd.
  destruct ta as [|a x ca na].
  { exists s. simpl. done. }
  destruct tb as [|b y cb nb].
  { exists s. simpl. done. }
  apply (merge_trees s None None); done.
Qed.

Lemma sub_Rep n : ∀ t p s,
  Rep s p t → n ∈ refs t →
  ∃ xn cn nn pn,
    sub n t = N n xn cn Leaf
    ∧ s !! n = Some (mkNode xn (root_of cn) nn pn)
    ∧ Rep s (Some n) cn.
Proof.
  induction t as [|a x c IHc nx IHn]; intros p s HR Hin; [sets|].
  destruct HR as (Ha & HRc & HRn). cbn [sub].
  destruct (decide (a = n)) as [->|Hne]; [by eauto 10|].
  destruct (decide (n ∈ refs c)) as [Hc|Hc].
  - destruct (IHc _ _ HRc Hc) as (xn & cn & nn & pn & -> & H). eauto 10.
  - rewrite (sub_notin n c Hc). apply (IHn _ _ HRn). sets.
Qed.

Lemma unlink_inline {B} (node rp : ref) (k : M B) s :
  (let* pc := get_child rp in
   let* nx := get_next node in
   (if decide (pc = Some node) then set_child rp nx else set_next rp nx) ;;
   let* nx' := get_next node in
   match nx' with
   | Some rn => let* p' := get_prev node in set_prev rn p'
   | None => ret tt
   end ;;
   k) s
  = (unlink_step node rp ;; k) s.
Proof.
  unfold unlink_step.
  rewrite bind_assoc. apply bind_ext. intros pc s1.
  rewrite bind_assoc. apply bind_ext. intros nx s2.
  rewrite bind_assoc. apply bind_ext. intros _ s3.
  rewrite bind_assoc. reflexivity.
Qed.

Lemma delete_finish_Ok node root h s v :
  s !! node = Some v →
  delete_finish node root h s
  = Ok (mkHeap (option_map (release node) (_objectPool h)) (_size h - 1) root,
        <[node := mkNode undefined None None None]> s).
Proof.
  intros Hv. unfold delete_finish.
  run set_child_Ok. run set_prev_Ok. run set_next_Ok. run set_item_Ok.
  unfold ret. f_equal. f_equal.
  rewrite !insert_insert_eq. reflexivity.
Qed.

Lemma Struct_removed h s t n s2 t' :
  Struct h s t → n ∈ refs t → refs t ≡ₚ n :: refs t' →
  single t' → Rep s2 None t' →
  (∀ k, k ∉ refs t → s2 !! k = s !! k) →
  Struct (mkHeap (option_map (release n) (_objectPool h)) (_size h - 1) (root_of t'))
         (<[n := mkNode undefined None None None]> s2) t'.
Proof.
  intros (Hroot & Hsingle & HR & Hnd & Hsize & Hpool) Hin Hperm Hsingle' HR' Hfr.
  assert (NoDup (n :: refs t')) as Hnd' by (by rewrite <- Hperm).
  apply NoDup_cons in Hnd' as [Hn Hnd'].
  split_and!; cbn [_root _size _objectPool].
  - done.
  - done.
  - eapply Rep_frame; [|exact HR']. intros k Hk.
    rewrite lookup_insert_ne; [done|]. intros <-. done.
  - done.
  - rewrite Hsize, Hperm. simpl length. lia.
  - destruct (_objectPool h) as [p|]; [|done]. destruct Hpool as [Hwf Hp].
    assert (¬ pool_holds p n) as Hnh by (intros Hh; apply Hp in Hh as [? _]; done).
    split; [by apply pool_release_wf|].
    intros m Hm. destruct (pool_release_holds p n m Hwf Hm) as [Hm'| ->].
    + destruct (Hp m Hm') as (Hmt & v & Hv & Hc).
      assert (m ≠ n) by (intros ->; done).
      split.
      * intros Hmt'. apply Hmt. rewrite Hperm. sets.
      * exists v. rewrite lookup_insert_ne by done. rewrite Hfr by done. done.
    + split; [done|]. eexists. rewrite lookup_insert_eq. split; [done|]. done.
Qed.

Lemma delete_Struct fuel n h s t :
  Struct h s t → n ∈ refs t → (length (refs t) ≤ fuel)%nat →
  ∃ h' s',
    delete fuel n h s = Ok (h', s')
    ∧ Struct h' s' (delete_t n t)
    ∧ refs t ≡ₚ n :: refs (delete_t n t)
    ∧ s' !! n = Some (mkNode undefined None None None)
    ∧ (∀ k, k ∉ refs t → s' !! k = s !! k)
    ∧ _objectPool h' = option_map (release n) (_objectPool h).
Proof.
  intros HS Hin Hfuel.
  pose proof HS as (Hroot & Hsingle & HR & Hnd & Hsize & Hpool).
  unfold delete, delete_t. rewrite Hroot.
  destruct (decide (root_of t = Some n)) as [Hr|Hr].
  - (* the root *)
    rewrite decide_True by done.
    destruct t as [|r x c nx]; [discriminate|]. injection Hr as ->.
    simpl in Hsingle. subst nx. destruct HR as (Hn & HRc & _).
    cbn [refs] in *. rewrite app_nil_r in *.
    apply NoDup_cons in Hnd as [Hnc Hndc].
    run get_child_Ok.
    destruct (collapse_Rep fuel c s (Some n)) as (s1 & Hrun & HR1 & Hfr1);
      [simpl in Hfuel; lia|done|done|].
    erewrite bind_Ok by exact Hrun.
    assert (s1 !! n = s !! n) as Hn1 by (by apply Hfr1).
    erewrite delete_finish_Ok by (rewrite Hn1; exact Hn).
    eexists _, _. split; [reflexivity|]. cbn [children].
    assert (n :: refs c ≡ₚ n :: refs (collapse_t c)) as Hperm.
    { by rewrite collapse_t_refs. }
    split_and!.
    + apply (Struct_removed h s (N n x c Leaf) n s1 (collapse_t c) HS).
      * simpl. sets.
      * cbn [refs]. rewrite app_nil_r. done.
      * apply collapse_t_single.
      * done.
      * intros k Hk. apply Hfr1. simpl in Hk. sets.
    + done.
    + apply lookup_insert_eq.
    + intros k Hk. rewrite lookup_insert_ne by sets. apply Hfr1. sets.
    + reflexivity.
  - (* below the root *)
    rewrite decide_False by congruence.
    destruct (unlink_Rep n t None s HR Hnd Hin Hr)
      as (vn & rp & s1 & Hn & Hprev & Hrun1 & HR1 & Hfr1).
    run get_prev_Ok. rewrite Hprev.
    rewrite unlink_inline. erewrite bind_Ok by exact Hrun1.
    destruct (sub_Rep n t None s HR Hin) as (xn & cn & nn & pn & Hsub & Hn' & HRcn).
    pose proof (cut_sub_refs n t Hnd Hin) as Hperm.
    rewrite Hsub in Hperm. cbn [refs] in Hperm. rewrite app_nil_r in Hperm.
    assert (NoDup (refs (cut n t) ++ n :: refs cn)) as Hnd2 by (by rewrite <- Hperm).
    apply NoDup_app in Hnd2 as (Hndcut & Hdisj & Hnd3).
    apply NoDup_cons in Hnd3 as [Hncn Hndcn].
    assert (s1 !! n = s !! n) as Hn1.
    { apply Hfr1. intros Hk. apply (Hdisj n Hk). sets. }
    rewrite Hn in Hn'. injection Hn' as ->. rewrite Hn in Hn1.
    run get_child_Ok.
    destruct (collapse_Rep fuel cn s1 (Some n)) as (s2 & Hrun2 & HR2 & Hfr2).
    { apply Permutation_length in Hperm. rewrite Hperm in Hfuel.
      rewrite length_app in Hfuel. simpl in Hfuel. lia. }
    { eapply Rep_frame; [|exact HRcn]. intros k Hk. apply Hfr1.
      intros Hk'. apply (Hdisj k Hk'). sets. }
    { done. }
    erewrite bind_Ok by exact Hrun2.
    rewrite Hsub. cbn [children].
    destruct (merge_roots s2 (cut n t) (collapse_t cn)) as (s3 & Hrun3 & HR3 & Hfr3).
    { by apply cut_single. }
    { apply collapse_t_single. }
    { eapply Rep_frame; [|exact HR1]. intros k Hk. apply Hfr2.
      intros Hk'. apply (Hdisj k Hk). sets. }
    { done. }
    { rewrite collapse_t_refs. apply NoDup_app. split_and!; [done| |done].
      intros k Hk Hk'. apply (Hdisj k Hk). sets. }
    rewrite (cut_root n t Hr) in Hrun3.
    erewrite bind_Ok by exact Hrun3.
    assert (refs t ≡ₚ n :: refs (merge_t (cut n t) (collapse_t cn))) as Hperm'.
    { rewrite merge_t_refs, collapse_t_refs, Hperm;
        [|by apply cut_single|apply collapse_t_single].
      symmetry. apply Permutation_middle. }
    assert (n ∉ refs (cut n t) ++ refs (collapse_t cn)) as Hnot.
    { rewrite collapse_t_refs. intros Hk. apply elem_of_app in Hk as [Hk|Hk]; [|done].
      apply (Hdisj n Hk). sets. }
    assert (is_Some (s3 !! n)) as [vn3 Hn3].
    { rewrite Hfr3 by done. rewrite Hfr2 by done. rewrite Hn1. eauto. }
    erewrite delete_finish_Ok by exact Hn3.
    eexists _, _. split; [reflexivity|].
    split_and!.
    + apply (Struct_removed h s t n s3 _ HS); [done|done| |done|].
      * apply merge_t_single; [by apply cut_single|apply collapse_t_single].
      * intros k Hk. rewrite Hfr3, Hfr2, Hfr1; [done|..].
        -- intros Hk'. apply cut_refs_sub in Hk'. done.
        -- intros Hk'. apply Hk. rewrite Hperm. sets.
        -- rewrite collapse_t_refs. intros Hk'. apply Hk. rewrite Hperm. sets.
    + done.
    + apply lookup_insert_eq.
    + intros k Hk. rewrite lookup_insert_ne by (intros <-; done).
      rewrite Hfr3, Hfr2, Hfr1; [done|..].
      * intros Hk'. apply cut_refs_sub in Hk'. done.
      * intros Hk'. apply Hk. rewrite Hperm. sets.
      * rewrite collapse_t_refs. intros Hk'. apply Hk. rewrite Hperm. sets.
    + reflexivity.
Qed.

Lemma Struct_new objectPool s :
  pool_ok s Leaf objectPool → Struct (new_heap objectPool) s Leaf.
Proof. intros Hp. split_and!; try done. constructor. Qed.

Lemma Struct_clear h s t :
  Struct h s t → Struct (clear h) s Leaf.
Proof.
  intros (_ & _ & _ & _ & _ & Hp). split_and!; try done; [constructor|].
  cbn [clear _objectPool]. destruct (_objectPool h) as [p|]; [|done].
  destruct Hp as [Hwf Hp]. split; [done|]. intros n Hn.
  destruct (Hp n Hn) as [_ Hv]. split; [sets|done].
Qed.

(** The part of [add] after the node has been obtained. *)
Lemma add_link x h s t n s1 objectPool' :
  Struct h s t → n ∉ refs t →
  s1 !! n = Some (mkNode x None None None) →
  (∀ k, k ≠ n → s1 !! k = s !! k) →
  match objectPool' with
  | None => True
  | Some p' => pool_wf p' ∧ ∀ m, pool_holds p' m →
      m ≠ n ∧ (m ∉ refs t) ∧ (∃ v, s !! m = Some v ∧ cleared v)
  end →
  ∃ h' s',
    (let* root := merge (_root h) (Some n) in
     ret (n, mkHeap objectPool' (_size h + 1) root)) s1 = Ok ((n, h'), s')
    ∧ Struct h' s' (merge_t t (N n x Leaf Leaf))
    ∧ (∀ k, k ≠ n → k ∉ refs t → s' !! k = s !! k).
Proof.
  intros (Hroot & Hsingle & HR & Hnd & Hsize & _) Hn Hs1 Hfr1 Hpool.
  destruct (merge_roots s1 t (N n x Leaf Leaf)) as (s' & Hrun & HR' & Hfr).
  - done.
  - done.
  - eapply Rep_frame; [|exact HR]. intros k Hk. apply Hfr1. intros ->. done.
  - simpl. done.
  - simpl. apply NoDup_app. split_and!; [done|sets|apply NoDup_singleton].
  - rewrite Hroot. cbn [root_of] in Hrun. erewrite bind_Ok by exact Hrun.
    eexists _, s'. split; [reflexivity|].
    assert (refs (merge_t t (N n x Leaf Leaf)) ≡ₚ refs t ++ [n]) as Hperm.
    { by rewrite merge_t_refs. }
    split.
    + split_and!; cbn [_root _size _objectPool].
      * done.
      * by apply merge_t_single.
      * done.
      * rewrite Hperm. apply NoDup_app. split_and!; [done|sets|apply NoDup_singleton].
      * rewrite Hperm, length_app, Hsize. simpl. lia.
      * destruct objectPool' as [p'|]; [|done]. destruct Hpool as [Hwf Hp].
        split; [done|]. intros m Hm. destruct (Hp m Hm) as (Hmn & Hmt & v & Hv & Hc).
        split; [rewrite Hperm; sets|].
        exists v. split; [|done]. rewrite Hfr by (simpl; sets).
        rewrite Hfr1 by done. done.
    + intros k Hk1 Hk2. rewrite Hfr by (simpl; sets). by apply Hfr1.
Qed.

Lemma add_Struct x h s t :
  Struct h s t →
  ∃ n h' s',
    add x h s = Ok ((n, h'), s')
    ∧ (n ∉ refs t)
    ∧ Struct h' s' (merge_t t (N n x Leaf Leaf))
    ∧ (∀ k, k ≠ n → k ∉ refs t → s' !! k = s !! k).
Proof.
  intros HS. pose proof HS as (Hroot & Hsingle & HR & Hnd & Hsize & Hpool).
  unfold add.
  assert (∀ op', 
    match op' with
    | None => True
    | Some p' => pool_wf p' ∧ ∀ m, pool_holds p' m →
        (m ∉ refs t) ∧ (∃ v, s !! m = Some v ∧ cleared v)
    end →
    ∃ n h' s',
      (let* node := alloc (mkNode x None None None) in
       let* root := merge (_root h) (Some node) in
       ret (node, mkHeap op' (_size h + 1) root)) s = Ok ((n, h'), s')
      ∧ (n ∉ refs t)
      ∧ Struct h' s' (merge_t t (N n x Leaf Leaf))
      ∧ (∀ k, k ≠ n → k ∉ refs t → s' !! k = s !! k)) as Hfresh.
  { intros op' Hop'.
    set (n := fresh (dom s)).
    assert (s !! n = None) as Hnone.
    { apply not_elem_of_dom. apply is_fresh. }
    assert (n ∉ refs t) as Hnt.
    { intros Hin. destruct (Rep_lookup s None t n HR Hin) as [v Hv]. congruence. }
    destruct (add_link x h s t n (<[n := mkNode x None None None]> s) op' HS Hnt)
      as (h' & s' & Hrun & HS' & Hfr).
    - apply lookup_insert_eq.
    - intros k Hk. by rewrite lookup_insert_ne.
    - destruct op' as [p'|]; [|done]. destruct Hop' as [Hwf Hp]. split; [done|].
      intros m Hm. destruct (Hp m Hm) as (Hmt & v & Hv & Hc).
      split_and!; [|done|eauto]. intros ->. congruence.
    - exists n, h', s'. split; [|done].
      unfold bind at 1. unfold alloc. fold n. exact Hrun. }
  destruct (_objectPool h) as [p|] eqn:Ep.
  2:{ apply (Hfresh None). done. }
  destruct Hpool as [Hwf Hp].
  pose proof (pool_get_wf p Hwf) as Hwf'.
  pose proof (pool_get_holds p) as Hholds.
  pose proof (pool_get_held p) as Hheld.
  destruct (get p) as [[n|] p']; cbn [fst snd] in *.
  - (* a recycled node *)
    destruct (Hp n (Hheld n Hwf eq_refl)) as (Hnt & v & Hv & Hc1 & Hc2 & Hc3).
    destruct (add_link x h s t n (<[n := with_item x v]> s) (Some p') HS Hnt)
      as (h' & s' & Hrun & HS' & Hfr).
    + rewrite lookup_insert_eq. unfold with_item. rewrite Hc1, Hc2, Hc3. done.
    + intros k Hk. by rewrite lookup_insert_ne.
    + split; [done|]. intros m Hm. destruct (Hholds m Hwf Hm) as [Hm' Hne].
      destruct (Hp m Hm') as (Hmt & w & Hw & Hc). split_and!; [congruence|done|eauto].
    + exists n, h', s'. split; [|done].
      rewrite bind_assoc. run set_item_Ok. 
      erewrite bind_Ok by reflexivity. exact Hrun.
  - (* a pool miss *)
    apply (Hfresh (Some p')). split; [done|].
    intros m Hm. destruct (Hholds m Hwf Hm) as [Hm' _]. by apply Hp.
Qed.

Lemma decreaseKey_Struct n h s t :
  Struct h s t → n ∈ refs t →
  ∃ h' s',
    decreaseKey n h s = Ok (h', s')
    ∧ Struct h' s' (decreaseKey_t n t)
    ∧ (∀ k, k ∉ refs t → s' !! k = s !! k).
Proof.
  intros HS Hin.
  pose proof HS as (Hroot & Hsingle & HR & Hnd & Hsize & Hpool).
  unfold decreaseKey, decreaseKey_t. rewrite Hroot.
  destruct (decide (root_of t = Some n)) as [Hr|Hr].
  { rewrite decide_True by done. exists h, s. done. }
  rewrite decide_False by congruence.
  destruct (unlink_Rep n t None s HR Hnd Hin Hr)
    as (vn & rp & s1 & Hn & Hprev & Hrun1 & HR1 & Hfr1).
  run get_prev_Ok. rewrite Hprev.
  rewrite unlink_inline. erewrite bind_Ok by exact Hrun1.
  destruct (sub_Rep n t None s HR Hin) as (xn & cn & nn & pn & Hsub & Hn' & HRcn).
  pose proof (cut_sub_refs n t Hnd Hin) as Hperm.
  assert (NoDup (refs (cut n t) ++ refs (sub n t))) as Hnd2 by (by rewrite <- Hperm).
  rewrite Hsub in *. cbn [refs] in Hperm, Hnd2. rewrite app_nil_r in Hperm, Hnd2.
  pose proof Hnd2 as Hnd3.
  apply NoDup_app in Hnd3 as (Hndcut & Hdisj & Hnd3).
  assert (s1 !! n = s !! n) as Hn1.
  { apply Hfr1. intros Hk. apply (Hdisj n Hk). sets. }
  rewrite Hn' in Hn1.
  pose proof (cut_single n t Hsingle Hr) as Hsc.
  pose proof (cut_root n t Hr) as Hrc.
  destruct (cut n t) as [|r x c' nx] eqn:Hcut.
  { destruct t; simpl in *; [done|congruence]. }
  simpl in Hsc. subst nx. destruct HR1 as (Hr1 & HRc' & _).
  cbn [refs] in Hnd2, Hperm, Hfr1, Hdisj. rewrite app_nil_r in Hnd2, Hperm, Hfr1, Hdisj.
  destruct (merge_Rep s1 r n x xn c' cn _ _ _ _ Hr1 HRc' Hn1) as (s' & Hrun & HR' & Hfr).
  { eapply Rep_frame; [|exact HRcn]. intros k Hk. apply Hfr1.
    intros Hk'. apply (Hdisj k Hk'). sets. }
  { done. }
  rewrite <- Hrc. cbn [root_of].
  erewrite bind_Ok by exact Hrun.
  eexists _, s'. split; [reflexivity|].
  assert (refs (merge_t (N r x c' Leaf) (N n xn cn Leaf)) ≡ₚ refs t) as Hperm'.
  { rewrite merge_t_refs by done. cbn [refs]. rewrite !app_nil_r. by rewrite Hperm. }
  split.
  - split_and!; cbn [_root _size _objectPool].
    + done.
    + by apply merge_t_single.
    + done.
    + by rewrite Hperm'.
    + by rewrite Hperm'.
    + destruct (_objectPool h) as [p|]; [|done]. destruct Hpool as [Hwf Hp].
      split; [done|]. intros m Hm. destruct (Hp m Hm) as (Hmt & v & Hv & Hc).
      split; [by rewrite Hperm'|]. exists v. split; [|done].
      rewrite Hfr by (by rewrite <- Hperm). rewrite Hfr1; [done|].
      intros Hk. apply Hmt. rewrite Hperm. sets.
  - intros k Hk. rewrite Hfr by (by rewrite <- Hperm). apply Hfr1.
    intros Hk'. apply Hk. rewrite Hperm. sets.
Qed.

(** ** Heap order *)

Section Order.

Hypothesis swo : StrictWeakOrder.

Lemma lt_asym x y : lessThanFunc x y = true → lessThanFunc y x = false.
Proof using swo.
  destruct swo as (Hirr & Htrans & _). intros H.
  destruct (lessThanFunc y x) eqn:E; [|done].
  rewrite <- (Hirr x). symmetry. by apply (Htrans x y x).
Qed.

Lemma ge_lt_trans d x y :
  lessThanFunc d x = false → lessThanFunc y x = true → lessThanFunc d y = false.
Proof using swo.
  destruct swo as (_ & Htrans & _). intros H1 H2.
  destruct (lessThanFunc d y) eqn:E; [|done].
  rewrite <- H1. symmetry. by apply (Htrans d y x).
Qed.

Lemma ge_trans d y x :
  lessThanFunc d y = false → lessThanFunc y x = false → lessThanFunc d x = false.
Proof using swo. destruct swo as (_ & _ & Hneg). apply Hneg. Qed.

Lemma merge_t_ho ta tb :
  single ta → single tb → heap_ordered ta → heap_ordered tb →
  heap_ordered (merge_t ta tb).
Proof using swo.
  destruct ta as [|a x ca na], tb as [|b y cb nb]; simpl; try done.
  intros -> -> (Ha & Hca & _) (Hb & Hcb & _).
  destruct (lessThanFunc y x) eqn:Hlt; simpl.
  - split_and!; try done. constructor; [by apply lt_asym|].
    apply Forall_app. split; [|done].
    eapply Forall_impl; [exact Ha|]. intros d Hd. simpl in Hd.
    by apply (ge_lt_trans d x y).
  - split_and!; try done. constructor; [done|].
    apply Forall_app. split; [|done].
    eapply Forall_impl; [exact Hb|]. intros d Hd. simpl in Hd.
    by apply (ge_trans d y x).
Qed.

Lemma pairs_ho l : heap_ordered l → Forall heap_ordered (pairs l).
Proof using swo.
  induction l as [|a x ca|a x ca b y cb rest IH] using bt_pair_ind.
  - constructor.
  - intros H. constructor; [exact H|constructor].
  - intros (Ha & Hca & Hb & Hcb & Hrest). rewrite pairs_cons2.
    constructor; [|by apply IH].
    apply merge_t_ho; simpl; done.
Qed.

Lemma fold_back_ho done acc :
  single acc → heap_ordered acc →
  Forall (λ t, t ≠ Leaf ∧ single t) done → Forall heap_ordered done →
  heap_ordered (fold_left merge_t done acc).
Proof using swo.
  intros Hs Ho Hd. revert acc Hs Ho.
  induction Hd as [|t done [_ Ht] Hd IH]; intros acc Hs Ho Hall; simpl; [done|].
  apply Forall_cons in Hall as [Hto Hall].
  apply IH; [by apply merge_t_single|by apply merge_t_ho|done].
Qed.

Lemma collapse_t_ho l : heap_ordered l → heap_ordered (collapse_t l).
Proof using swo.
  intros H. unfold collapse_t, fold_back. apply fold_back_ho; [done|done| |].
  - apply Forall_rev, pairs_single.
  - apply Forall_rev, pairs_ho, H.
Qed.

Lemma cut_items_sub n t y : y ∈ items (cut n t) → y ∈ items t.
Proof.
  induction t as [|a x c IHc nx IHn]; simpl; [done|].
  destruct (decide (a = n)); simpl; sets.
Qed.

Lemma cut_ho n t : heap_ordered t → heap_ordered (cut n t).
Proof.
  induction t as [|a x c IHc nx IHn]; simpl; [done|].
  intros (Ha & Hc & Hn). destruct (decide (a = n)); [done|]. simpl.
  split_and!; [|auto..].
  apply Forall_forall. intros y Hy. apply cut_items_sub in Hy.
  rewrite Forall_forall in Ha. auto.
Qed.

Lemma sub_ho n t : heap_ordered t → heap_ordered (sub n t).
Proof.
  induction t as [|a x c IHc nx IHn]; simpl; [done|].
  intros (Ha & Hc & Hn). destruct (decide (a = n)); [done|].
  pose proof (IHc Hc) as Hc'. destruct (sub n c); [by apply IHn|exact Hc'].
Qed.

Lemma delete_t_ho n t : heap_ordered t → single t → heap_ordered (delete_t n t).
Proof using swo.
  intros Ho Hs. unfold delete_t.
  destruct (decide (root_of t = Some n)) as [Hr|Hr].
  - apply collapse_t_ho. destruct t; [done|]. simpl. apply Ho.
  - apply merge_t_ho.
    + by apply cut_single.
    + apply collapse_t_single.
    + by apply cut_ho.
    + apply collapse_t_ho. pose proof (sub_ho n t Ho) as H.
      destruct (sub n t); [done|]. apply H.
Qed.

End Order.

(** ** Reading the invariants off the store *)

Lemma reachable_refs s : ∀ o b, reachable s o b →
  ∀ t p, Rep s p t → o = root_of t → b ∈ refs t.
Proof.
  induction 1 as [a|a v b Hv Hreach IH|a v b Hv Hreach IH]; intros t p HR Ho.
  - symmetry in Ho. by apply root_of_refs.
  - destruct t as [|a' x c n]; [discriminate|]. injection Ho as ->.
    destruct HR as (Ha & HRc & HRn). rewrite Ha in Hv. injection Hv as <-.
    simpl. specialize (IH c _ HRc eq_refl). sets.
  - destruct t as [|a' x c n]; [discriminate|]. injection Ho as ->.
    destruct HR as (Ha & HRc & HRn). rewrite Ha in Hv. injection Hv as <-.
    simpl. specialize (IH n _ HRn eq_refl). sets.
Qed.

Lemma refs_reachable s : ∀ t p b, Rep s p t → b ∈ refs t → reachable s (root_of t) b.
Proof.
  induction t as [|a x c IHc n IHn]; intros p b HR Hb; [sets|].
  destruct HR as (Ha & HRc & HRn). simpl in *.
  apply elem_of_cons in Hb as [->|Hb]; [constructor|].
  apply elem_of_app in Hb as [Hb|Hb].
  - eapply reach_child; [exact Ha|]. simpl. eauto.
  - eapply reach_next; [exact Ha|]. simpl. eauto.
Qed.

Lemma live_iff h s t n : Struct h s t → live h s n ↔ n ∈ refs t.
Proof.
  intros (Hroot & _ & HR & _). unfold live. rewrite Hroot. split.
  - intros H. by eapply reachable_refs.
  - by eapply refs_reachable.
Qed.

Lemma Rep_item s : ∀ t p d, Rep s p t → d ∈ refs t →
  ∃ v, s !! d = Some v ∧ item v ∈ items t.
Proof.
  induction t as [|a x c IHc n IHn]; intros p d HR Hd; [sets|].
  destruct HR as (Ha & HRc & HRn). simpl in *.
  apply elem_of_cons in Hd as [->|Hd].
  { eexists. split; [exact Ha|]. simpl. sets. }
  apply elem_of_app in Hd as [Hd|Hd].
  - destruct (IHc _ _ HRc Hd) as (v & Hv & Hi). exists v. split; [done|]. sets.
  - destruct (IHn _ _ HRn Hd) as (v & Hv & Hi). exists v. split; [done|]. sets.
Qed.

Lemma Struct_heap_order h s t : Struct h s t → heap_ordered t → heap_order h s.
Proof.
  intros HS Ho a d va vd Ha Hd Hva Hvd.
  apply (live_iff h s t a HS) in Ha.
  destruct HS as (Hroot & _ & HR & _).
  destruct (sub_Rep a t None s HR Ha) as (xa & ca & na & pa & Hsub & Hla & HRca).
  destruct Hd as (v & Hv & Hreach).
  rewrite Hla in Hv. injection Hv as <-. simpl in Hreach.
  pose proof (reachable_refs s _ _ Hreach ca _ HRca eq_refl) as Hdin.
  destruct (Rep_item s ca _ d HRca Hdin) as (vd' & Hvd' & Hitem).
  rewrite Hvd in Hvd'. injection Hvd' as <-.
  rewrite Hla in Hva. injection Hva as <-. simpl.
  pose proof (sub_ho a t Ho) as Hsubo. rewrite Hsub in Hsubo.
  destruct Hsubo as (Hall & _). rewrite Forall_forall in Hall. by apply Hall.
Qed.

Lemma Struct_root_is_min h s t :
  StrictWeakOrder → Struct h s t → heap_ordered t → root_is_min h s.
Proof.
  intros Hswo HS Ho r n vr vn Hr Hn Hvr Hvn.
  apply (live_iff h s t n HS) in Hn.
  destruct HS as (Hroot & Hsingle & HR & _).
  destruct t as [|r' x c nx]; [sets|].
  rewrite Hroot in Hr. injection Hr as ->. simpl in Hsingle. subst nx.
  destruct HR as (Hlr & HRc & _). rewrite Hlr in Hvr. injection Hvr as <-. simpl.
  simpl in Hn. rewrite app_nil_r in Hn.
  apply elem_of_cons in Hn as [->|Hn].
  - rewrite Hlr in Hvn. injection Hvn as <-. simpl. apply Hswo.
  - destruct (Rep_item s c _ n HRc Hn) as (v & Hv & Hi).
    rewrite Hvn in Hv. injection Hv as <-.
    destruct Ho as (Hall & _). rewrite Forall_forall in Hall. by apply Hall.
Qed.

Lemma Struct_size_counts h s t : Struct h s t → size_counts h s.
Proof.
  intros HS. exists (refs t). pose proof HS as (_ & _ & _ & Hnd & Hsize & _).
  split_and!; [done| |done]. intros a. symmetry. by apply live_iff.
Qed.

Lemma Struct_root_detached h s t : Struct h s t → root_detached h s.
Proof.
  intros (Hroot & Hsingle & HR & _) r Hr.
  destruct t as [|r' x c nx]; [by rewrite Hroot in Hr|].
  rewrite Hroot in Hr. injection Hr as ->. simpl in Hsingle. subst nx.
  destruct HR as (Hlr & _). eexists. split; [exact Hlr|]. done.
Qed.

Lemma getMin_Struct h s t : Struct h s t → getMin h s = Ok (min_t t, s).
Proof.
  intros (Hroot & _ & HR & _). unfold getMin. rewrite Hroot.
  destruct t as [|r x c nx]; [done|]. simpl.
  destruct HR as (Hlr & _). by rewrite (get_item_Ok _ _ _ Hlr).
Qed.

(** ** Extraction in order *)

Lemma refs_items_length t : length (refs t) = length (items t).
Proof.
  induction t as [|a x c IHc n IHn]; simpl; [done|].
  rewrite !length_app. lia.
Qed.

Lemma extract_sub k : ∀ t y, y ∈ extract k t → y ∈ items t.
Proof.
  induction k as [|k IH]; intros t y; simpl; [sets|].
  destruct t as [|a x c n]; [sets|].
  intros Hy. apply elem_of_cons in Hy as [->|Hy]; simpl; [sets|].
  apply IH in Hy. rewrite collapse_t_items in Hy. sets.
Qed.

Lemma extract_perm k : ∀ t, single t → length (refs t) = k → extract k t ≡ₚ items t.
Proof.
  induction k as [|k IH]; intros t Hs Hlen.
  { destruct t; [done|discriminate]. }
  destruct t as [|a x c n]; [discriminate|]. simpl in Hs. subst n.
  simpl in *. rewrite app_nil_r in *. constructor.
  rewrite IH; [apply collapse_t_items|apply collapse_t_single|].
  rewrite collapse_t_refs. lia.
Qed.

Lemma extract_sorted k : ∀ t,
  StrictWeakOrder → heap_ordered t →
  StronglySorted (λ x y, lessThanFunc y x = false) (extract k t).
Proof.
  intros t Hswo. revert t.
  induction k as [|k IH]; intros t Ho; simpl; [constructor|].
  destruct t as [|a x c n]; [constructor|].
  destruct Ho as (Hall & Hc & _).
  constructor.
  - apply IH. by apply collapse_t_ho.
  - apply Forall_forall. intros y Hy. apply extract_sub in Hy.
    rewrite collapse_t_items in Hy. rewrite Forall_forall in Hall. by apply Hall.
Qed.

Lemma deleteMin_Struct fuel h s t :
  Struct h s t → (length (refs t) ≤ fuel)%nat →
  ∃ h' s',
    deleteMin fuel h s = Ok ((min_t t, h'), s')
    ∧ Struct h' s' (collapse_t (children t))
    ∧ (∀ r, root_of t = Some r → s' !! r = Some (mkNode undefined None None None))
    ∧ (∀ k, k ∉ refs t → s' !! k = s !! k).
Proof.
  intros HS Hfuel. pose proof HS as (Hroot & Hsingle & HR & _).
  unfold deleteMin. rewrite Hroot.
  destruct t as [|r x c nx].
  { exists h, s. simpl. done. }
  cbn [root_of]. destruct HR as (Hlr & _).
  run get_item_Ok.
  destruct (delete_Struct fuel r h s _ HS) as (h' & s' & Hrun & HS' & _ & Hcl & Hfr & _);
    [simpl; sets|done|].
  erewrite bind_Ok by exact Hrun.
  exists h', s'. split; [reflexivity|].
  unfold delete_t in HS'. rewrite decide_True in HS' by done.
  split_and!; [done| |done]. intros ? [= <-]. done.
Qed.

Lemma drain_Struct fuel k : ∀ h s t,
  Struct h s t → (k ≤ length (refs t))%nat → (length (refs t) ≤ fuel)%nat →
  ∃ h' s' t',
    drain fuel k h s = Ok ((extract k t, h'), s')
    ∧ Struct h' s' t'
    ∧ length (refs t') = (length (refs t) - k)%nat
    ∧ (heap_ordered t → StrictWeakOrder → heap_ordered t').
Proof.
  induction k as [|k IH]; intros h s t HS Hk Hfuel.
  { exists h, s, t. simpl. split_and!; [done|done|lia|done]. }
  destruct (deleteMin_Struct fuel h s t HS Hfuel) as (h1 & s1 & Hrun & HS1 & _ & _).
  destruct t as [|r x c nx]; [simpl in Hk; lia|].
  pose proof HS as (_ & Hsingle & _). simpl in Hsingle. subst nx.
  cbn [children min_t] in *.
  assert (length (refs (collapse_t c)) = length (refs c)) as Hlen.
  { by rewrite collapse_t_refs. }
  simpl in Hk, Hfuel. rewrite app_nil_r in Hk, Hfuel.
  destruct (IH h1 s1 _ HS1) as (h' & s' & t' & Hrun' & HS' & Hlen' & Ho'); [lia|lia|].
  exists h', s', t'. split_and!.
  - cbn [drain extract]. erewrite bind_Ok by exact Hrun. cbn beta iota.
    erewrite bind_Ok by exact Hrun'. reflexivity.
  - done.
  - simpl. rewrite app_nil_r. lia.
  - intros (_ & Hc & _) Hswo. apply Ho'; [|done]. by apply collapse_t_ho.
Qed.

Lemma add_all_Struct xs : ∀ h s t,
  Struct h s t →
  ∃ ns h' s' t',
    add_all xs h s = Ok ((ns, h'), s')
    ∧ Struct h' s' t'
    ∧ items t' ≡ₚ items t ++ xs
    ∧ (heap_ordered t → StrictWeakOrder → heap_ordered t').
Proof.
  induction xs as [|x xs IH]; intros h s t HS.
  { exists [], h, s, t. simpl. rewrite app_nil_r. done. }
  destruct (add_Struct x h s t HS) as (n & h1 & s1 & Hrun & Hn & HS1 & _).
  destruct (IH h1 s1 _ HS1) as (ns & h' & s' & t' & Hrun' & HS' & Hitems & Ho).
  exists (n :: ns), h', s', t'. split_and!.
  - cbn [add_all]. erewrite bind_Ok by exact Hrun. cbn beta iota.
    erewrite bind_Ok by exact Hrun'. reflexivity.
  - done.
  - rewrite Hitems. destruct HS as (_ & Hsingle & _).
    rewrite merge_t_items by done. simpl. rewrite <- app_assoc. done.
  - intros Ht Hswo. apply Ho; [|done].
    destruct HS as (_ & Hsingle & _).
    apply merge_t_ho; [done|done|done|done|]. simpl. done.
Qed.

(** ** The iterator *)

Lemma collapse_t_one a x c : collapse_t (N a x c Leaf) = N a x c Leaf.
Proof. reflexivity. Qed.

Lemma collapse_t_nonLeaf l : l ≠ Leaf → collapse_t l ≠ Leaf.
Proof.
  intros Hl Hc. pose proof (collapse_t_refs l) as Hp. rewrite Hc in Hp.
  apply Permutation_nil in Hp. destruct l; [done|discriminate].
Qed.

(** One [next()] on a generator suspended at [n]: the children of [n] are
    collapsed into one tree, which the nested generator then enters. *)
Lemma iter_next_at fuel nodes n xn cn nn pn s :
  s !! n = Some (mkNode xn (root_of cn) nn pn) →
  Rep s (Some n) cn → NoDup (n :: refs cn) →
  (length (refs cn) ≤ fuel)%nat →
  ∃ s',
    iter_next fuel nodes (IterAt n) s = iter_enter nodes (root_of (collapse_t cn)) s'
    ∧ s' !! n = Some (mkNode xn (root_of (collapse_t cn)) nn pn)
    ∧ Rep s' (Some n) (collapse_t cn)
    ∧ (∀ k, k ≠ n → k ∉ refs cn → s' !! k = s !! k).
Proof.
  intros Hn HR Hnd Hfuel.
  apply NoDup_cons in Hnd as [Hncn Hnd].
  cbn [iter_next]. run get_child_Ok.
  destruct cn as [|b y cb nb].
  { exists s. done. }
  pose proof HR as (Hb & HRcb & HRnb).
  cbn [root_of]. run get_next_Ok.
  destruct nb as [|b2 y2 cb2 nb2].
  { cbn [root_of]. erewrite bind_Ok by reflexivity. run get_child_Ok.
    rewrite collapse_t_one. exists s. done. }
  set (cn := N b y cb (N b2 y2 cb2 nb2)) in *.
  cbn [root_of].
  destruct (collapse_Rep fuel cn s (Some n) Hfuel HR Hnd) as (s1 & Hrun & HR1 & Hfr1).
  change (Some b) with (root_of cn).
  rewrite bind_assoc. erewrite bind_Ok by exact Hrun.
  assert (s1 !! n = s !! n) as Hn1 by (by apply Hfr1). rewrite Hn in Hn1.
  rewrite bind_assoc. run set_child_Ok.
  rewrite bind_assoc. run get_child_Ok. cbn [child with_child].
  pose proof (collapse_t_nonLeaf cn) as Hne.
  pose proof (collapse_t_refs cn) as Hperm.
  destruct (root_of (collapse_t cn)) as [r|] eqn:Hr.
  2:{ destruct (collapse_t cn); [|discriminate]. by destruct Hne. }
  assert (r ∈ refs cn) as Hrin by (rewrite <- Hperm; by apply root_of_refs).
  assert (r ≠ n) as Hrn by (intros ->; done).
  destruct (Rep_set_prev (<[n:=with_child (Some r) (mkNode xn (Some b) nn pn)]> s1)
              None (Some n) (collapse_t cn) r) as (v & Hv & HR2).
  { by rewrite Hperm. }
  { eapply Rep_frame; [|exact HR1]. intros k Hk.
    rewrite lookup_insert_ne; [done|]. intros <-. rewrite Hperm in Hk. done. }
  { done. }
  pose proof Hv as Hv'. rewrite lookup_insert_ne in Hv' by done.
  run set_prev_Ok. run get_child_Ok.
  eexists. split; [reflexivity|]. split_and!.
  - rewrite lookup_insert_ne by done. rewrite lookup_insert_eq. reflexivity.
  - exact HR2.
  - intros k Hk1 Hk2. rewrite lookup_insert_ne by (intros <-; done).
    rewrite lookup_insert_ne by done. by apply Hfr1.
Qed.

Lemma iter_enter_item n v s :
  s !! n = Some v →
  iter_enter false (Some n) s = Ok ((Some (YItem (item v)), IterAt n), s).
Proof. intros Hv. cbn [iter_enter]. run get_item_Ok. reflexivity. Qed.

Lemma iter_at fuel : ∀ n xn cn nn pn s,
  s !! n = Some (mkNode xn (root_of cn) nn pn) →
  Rep s (Some n) cn → NoDup (n :: refs cn) →
  (length (refs cn) < fuel)%nat →
  ∃ s' cn',
    iter_collect fuel false (IterAt n) s
      = Ok (map YItem (extract (length (refs cn)) (collapse_t cn)), s')
    ∧ s' !! n = Some (mkNode xn (root_of cn') nn pn)
    ∧ Rep s' (Some n) cn'
    ∧ single cn'
    ∧ refs cn' ≡ₚ refs cn
    ∧ items cn' ≡ₚ items cn
    ∧ extract (length (refs cn')) (collapse_t cn')
      = extract (length (refs cn)) (collapse_t cn)
    ∧ (StrictWeakOrder → heap_ordered cn → heap_ordered cn')
    ∧ (∀ k, k ≠ n → k ∉ refs cn → s' !! k = s !! k).
Proof.
  induction fuel as [|fuel IH]; intros n xn cn nn pn s Hn HR Hnd Hfuel; [lia|].
  destruct (iter_next_at (S fuel) false n xn cn nn pn s Hn HR Hnd) as (s1 & Hrun & Hn1 & HR1 & Hfr1);
    [lia|].
  cbn [iter_collect]. unfold bind at 1. rewrite Hrun.
  pose proof (collapse_t_refs cn) as Hperm.
  pose proof (collapse_t_single cn) as Hsingle.
  destruct (collapse_t cn) as [|r z cr nr] eqn:Hct.
  { (* no children: the generators return *)
    apply Permutation_nil in Hperm.
    assert (cn = Leaf) as -> by (destruct cn; [done|discriminate]).
    exists s1, Leaf. simpl. split_and!; done. }
  simpl in Hsingle. subst nr.
  pose proof HR1 as (Hr & HRcr & _).
  cbn [root_of]. rewrite (iter_enter_item _ _ _ Hr). cbn [item].
  cbn [refs] in Hperm. rewrite app_nil_r in Hperm.
  assert (NoDup (n :: r :: refs cr)) as Hnd'.
  { apply NoDup_cons in Hnd as [Hncn Hnd]. apply NoDup_cons. split.
    - by rewrite Hperm.
    - by rewrite Hperm. }
  apply NoDup_cons in Hnd' as [Hnr Hnd'].
  destruct (IH r z cr None (Some n) s1 Hr HRcr Hnd') as (s' & cr' & Hrun' & Hr' & HRcr' & Hs' & Hperm' & Hitems' & Hex' & Ho' & Hfr').
  { apply Permutation_length in Hperm. simpl in Hperm. lia. }
  erewrite bind_Ok by exact Hrun'.
  exists s', (N r z cr' Leaf). split_and!.
  - unfold ret. f_equal. f_equal.
    rewrite <- (Permutation_length Hperm). simpl. reflexivity.
  - rewrite Hfr'; [done|sets|sets].
  - cbn [Rep]. done.
  - done.
  - cbn [refs]. rewrite app_nil_r, <- Hperm, Hperm'. done.
  - rewrite <- (collapse_t_items cn), Hct. cbn [items]. rewrite !app_nil_r, Hitems'. done.
  - rewrite collapse_t_one. cbn [refs]. rewrite app_nil_r.
    rewrite <- (Permutation_length Hperm). cbn [refs length extract].
    by rewrite Hex'.
  - intros Hswo Hcn. pose proof (collapse_t_ho Hswo cn Hcn) as Hct'.
    rewrite Hct in Hct'. destruct Hct' as (Hall & Hcr & _).
    cbn [heap_ordered]. split_and!; [|by apply Ho'|done].
    apply Forall_forall. intros d Hd. rewrite Forall_forall in Hall. apply Hall.
    by rewrite <- Hitems'.
  - intros k Hk1 Hk2. rewrite Hfr'.
    + by apply Hfr1.
    + intros ->. apply Hk2. rewrite <- Hperm. sets.
    + intros Hk'. apply Hk2. rewrite <- Hperm. sets.
Qed.

Lemma iterate_Struct fuel h s t :
  Struct h s t → (length (refs t) < fuel)%nat →
  ∃ s' t',
    iter_collect fuel false (_iterate h) s
      = Ok (map YItem (extract (length (refs t)) t), s')
    ∧ Struct h s' t'
    ∧ items t' ≡ₚ items t
    ∧ (StrictWeakOrder → heap_ordered t → heap_ordered t')
    ∧ (∀ k, k ∉ refs t → s' !! k = s !! k)
    ∧ refs t' ≡ₚ refs t
    ∧ extract (length (refs t')) t' = extract (length (refs t)) t.
Proof.
  intros (Hroot & Hsingle & HR & Hnd & Hsize & Hpool) Hfuel.
  unfold _iterate. rewrite Hroot.
  destruct fuel as [|fuel]; [lia|].
  destruct t as [|r x c nx].
  { exists s, Leaf. split_and!; done. }
  simpl in Hsingle. subst nx. destruct HR as (Hr & HRc & _).
  cbn [refs] in *. rewrite app_nil_r in *.
  cbn [iter_collect iter_next root_of]. unfold bind at 1.
  rewrite (iter_enter_item _ _ _ Hr). cbn [item].
  destruct (iter_at fuel r x c None None s Hr HRc Hnd)
    as (s' & c' & Hrun & Hr' & HRc' & Hs' & Hperm & Hitems & Hex & Ho & Hfr);
    [simpl in Hfuel; lia|].
  erewrite bind_Ok by exact Hrun.
  exists s', (N r x c' Leaf). split_and!.
  - reflexivity.
  - split_and!; cbn [refs root_of single Rep]; rewrite ?app_nil_r; try done.
    + by rewrite Hperm.
    + by rewrite Hperm.
    + destruct (_objectPool h) as [p|]; [|done]. destruct Hpool as [Hwf Hp].
      split; [done|]. intros m Hm. destruct (Hp m Hm) as (Hmt & v & Hv & Hc).
      cbn [refs] in *. rewrite app_nil_r in *.
      split; [by rewrite Hperm|]. exists v. split; [|done].
      rewrite Hfr; [done| |]; intros ?; apply Hmt; sets.
  - cbn [items]. rewrite !app_nil_r, Hitems. done.
  - intros Hswo (Hall & Hc & _). cbn [heap_ordered]. split_and!; [|by apply Ho|done].
    apply Forall_forall. intros d Hd. rewrite Forall_forall in Hall. apply Hall.
    by rewrite <- Hitems.
  - intros k Hk. apply Hfr; intros ?; apply Hk; sets.
  - cbn [refs]. rewrite !app_nil_r, Hperm. done.
  - cbn [refs]. rewrite !app_nil_r. cbn [length extract]. by rewrite Hex.
Qed.

(** One [next()] of an iterator that is suspended at a live node. *)

Lemma graft_root n c' t : root_of (graft n c' t) = root_of t.
Proof. destruct t; simpl; [done|]. by destruct (decide (a = n)). Qed.

Lemma graft_notin n c' t : n ∉ refs t → graft n c' t = t.
Proof.
  induction t as [|a x c IHc nx IHn]; simpl; [done|].
  intros Hn. rewrite decide_False by sets. rewrite IHc, IHn by sets. done.
Qed.

Lemma sub_refs_sub n t k : k ∈ refs (sub n t) → k ∈ refs t.
Proof.
  induction t as [|a x c IHc nx IHn]; simpl; [done|].
  destruct (decide (a = n)); [simpl; sets|].
  destruct (sub n c) eqn:E; [sets|]. intros Hk. apply IHc in Hk. sets.
Qed.

Lemma graft_refs n c' xn cn : ∀ t,
  NoDup (refs t) → sub n t = N n xn cn Leaf → refs c' ≡ₚ refs cn →
  refs (graft n c' t) ≡ₚ refs t.
Proof.
  induction t as [|a x c IHc nx IHn]; simpl; [done|].
  intros Hnd Hsub Hperm.
  apply NoDup_cons in Hnd as [Ha Hnd].
  apply NoDup_app in Hnd as (Hndc & Hdisj & Hndn).
  destruct (decide (a = n)) as [->|Hne].
  - injection Hsub as -> ->. simpl. by rewrite Hperm.
  - simpl. destruct (decide (n ∈ refs c)) as [Hc|Hc].
    + destruct (sub_shape n c Hc) as (y & cy & Hs). rewrite Hs in Hsub.
      injection Hsub as -> ->.
      rewrite (IHc Hndc Hs Hperm).
      rewrite (graft_notin n c' nx) by (intros ?; eapply Hdisj; eauto). done.
    + rewrite (sub_notin n c Hc) in Hsub.
      rewrite (graft_notin n c' c Hc). by rewrite (IHn Hndn Hsub Hperm).
Qed.

Lemma graft_Rep n c' xn cn nn pn s s' : ∀ t p,
  Rep s p t → NoDup (refs t) → sub n t = N n xn cn Leaf →
  s !! n = Some (mkNode xn (root_of cn) nn pn) →
  s' !! n = Some (mkNode xn (root_of c') nn pn) →
  Rep s' (Some n) c' →
  (∀ k, k ≠ n → k ∉ refs cn → s' !! k = s !! k) →
  Rep s' p (graft n c' t).
Proof.
  intros t p HR Hnd Hsub Hn Hn' HRc' Hfr. revert p HR Hnd Hsub.
  induction t as [|a x c IHc nx IHn]; intros p HR Hnd Hsub; [done|].
  destruct HR as (Ha & HRc & HRn). cbn [refs] in Hnd.
  apply NoDup_cons in Hnd as [Hac Hnd].
  apply NoDup_app in Hnd as (Hndc & Hdisj & Hndn).
  cbn [sub graft] in *.
  destruct (decide (a = n)) as [->|Hne].
  - injection Hsub as -> ->. rewrite Hn in Ha. injection Ha as -> ->.
    cbn [Rep]. split_and!; [done|done|].
    eapply Rep_frame; [|exact HRn]. intros k Hk. apply Hfr.
    + intros ->. sets.
    + intros Hk'. apply (Hdisj k); done.
  - cbn [Rep]. rewrite !graft_root.
    destruct (decide (n ∈ refs c)) as [Hc|Hc].
    + destruct (sub_shape n c Hc) as (y & cy & Hs). rewrite Hs in Hsub.
      injection Hsub as -> ->.
      assert (∀ k, k ∈ refs cn → k ∈ refs c) as Hsubset.
      { intros k Hk. apply (sub_refs_sub n). rewrite Hs. simpl. sets. }
      split_and!.
      * rewrite Hfr; [done|done|]. intros Hk. apply Hsubset in Hk. sets.
      * by apply IHc.
      * rewrite (graft_notin n c' nx) by (intros ?; eapply Hdisj; eauto).
        eapply Rep_frame; [|exact HRn]. intros k Hk. apply Hfr.
        -- intros ->. apply (Hdisj n); done.
        -- intros Hk'. apply Hsubset in Hk'. apply (Hdisj k); done.
    + rewrite (sub_notin n c Hc) in Hsub.
      assert (n ∈ refs nx) as Hnx.
      { destruct (decide (n ∈ refs nx)) as [|Hno]; [done|].
        by rewrite (sub_notin n nx Hno) in Hsub. }
      assert (∀ k, k ∈ refs cn → k ∈ refs nx) as Hsubset.
      { intros k Hk. apply (sub_refs_sub n). rewrite Hsub. simpl. sets. }
      split_and!.
      * rewrite Hfr; [done|done|]. intros Hk. apply Hsubset in Hk. sets.
      * rewrite (graft_notin n c' c Hc).
        eapply Rep_frame; [|exact HRc]. intros k Hk. apply Hfr.
        -- intros ->. done.
        -- intros Hk'. apply Hsubset in Hk'. apply (Hdisj k); done.
      * by apply IHn.
Qed.

Lemma iter_enter_total nodes o (s : Store) :
  allocated s o →
  ∃ y it, iter_enter nodes o s = Ok ((y, it), s)
          ∧ match o with
            | Some n => it = IterAt n
            | None => it = IterDone
            end.
Proof.
  destruct o as [n|]; simpl; [|by eexists _, _].
  intros [v Hv]. destruct nodes; [by eexists _, _|].
  run get_item_Ok. by eexists _, _.
Qed.

Lemma iter_next_Struct fuel nodes h s t n :
  Struct h s t → n ∈ refs t → (length (refs t) ≤ fuel)%nat →
  ∃ y it' s' t',
    iter_next fuel nodes (IterAt n) s = Ok ((y, it'), s')
    ∧ Struct h s' t'
    ∧ refs t' ≡ₚ refs t
    ∧ (it' = IterDone ∨ ∃ m, it' = IterAt m ∧ m ∈ refs t').
Proof.
  intros HS Hin Hfuel.
  pose proof HS as (Hroot & Hsingle & HR & Hnd & Hsize & Hpool).
  destruct (sub_Rep n t None s HR Hin) as (xn & cn & nn & pn & Hsub & Hn & HRcn).
  pose proof (cut_sub_refs n t Hnd Hin) as Hperm.
  rewrite Hsub in Hperm. cbn [refs] in Hperm. rewrite app_nil_r in Hperm.
  assert (NoDup (refs (cut n t) ++ n :: refs cn)) as Hnd2 by (by rewrite <- Hperm).
  apply NoDup_app in Hnd2 as (_ & Hdisj & Hnd2).
  destruct (iter_next_at fuel nodes n xn cn nn pn s Hn HRcn Hnd2)
    as (s' & Hrun & Hn' & HRc' & Hfr).
  { apply Permutation_length in Hperm. rewrite length_app in Hperm. simpl in Hperm. lia. }
  set (c' := collapse_t cn) in *.
  assert (refs c' ≡ₚ refs cn) as Hpc by apply collapse_t_refs.
  pose proof (graft_refs n c' xn cn t Hnd Hsub Hpc) as Hpg.
  assert (Struct h s' (graft n c' t)) as HS'.
  { split_and!.
    - by rewrite graft_root.
    - destruct t as [|r x c nx]; [done|]. simpl in *. subst nx.
      by destruct (decide (r = n)).
    - by apply (graft_Rep n c' xn cn nn pn s s').
    - by rewrite Hpg.
    - by rewrite Hpg.
    - destruct (_objectPool h) as [p|]; [|done]. destruct Hpool as [Hwf Hp].
      split; [done|]. intros m Hm. destruct (Hp m Hm) as (Hmt & v & Hv & Hc).
      split; [by rewrite Hpg|]. exists v. split; [|done].
      rewrite Hfr; [done|intros ->; done|].
      intros Hk. apply Hmt. rewrite Hperm. sets. }
  destruct (iter_enter_total nodes (root_of c') s') as (y & it' & Henter & Hit).
  { destruct (root_of c') as [r|] eqn:Hr; [|done]. simpl.
    apply root_of_refs in Hr. by apply (Rep_lookup s' (Some n) c'). }
  exists y, it', s', (graft n c' t). split_and!; [congruence|done|done|].
  destruct (root_of c') as [r|] eqn:Hr; [|by left].
  right. exists r. split; [done|]. rewrite Hpg, Hperm.
  apply root_of_refs in Hr. rewrite Hpc in Hr. sets.
Qed.

(** ** Assignment to an item *)

Lemma assign_refs n x' t : refs (assign n x' t) = refs t.
Proof. induction t as [|a x c IHc nx IHn]; simpl; [done|]. by rewrite IHc, IHn. Qed.

Lemma assign_root n x' t : root_of (assign n x' t) = root_of t.
Proof. by destruct t. Qed.

Lemma assign_notin n x' t : n ∉ refs t → assign n x' t = t.
Proof.
  induction t as [|a x c IHc nx IHn]; simpl; [done|].
  intros Hn. rewrite decide_False by sets. rewrite IHc, IHn by sets. done.
Qed.

Lemma assign_Rep n x' v s : ∀ t p,
  s !! n = Some v → Rep s p t →
  Rep (<[n := with_item x' v]> s) p (assign n x' t).
Proof.
  induction t as [|a x c IHc nx IHn]; intros p Hv; simpl; [done|].
  intros (Ha & Hc & Hn). rewrite !assign_root. split_and!; [|auto..].
  destruct (decide (a = n)) as [->|Hne].
  - rewrite lookup_insert_eq. rewrite Hv in Ha. injection Ha as ->. done.
  - by rewrite lookup_insert_ne.
Qed.

Lemma cut_assign n x' t : NoDup (refs t) → cut n (assign n x' t) = cut n t.
Proof.
  induction t as [|a x c IHc nx IHn]; simpl; [done|].
  intros Hnd. apply NoDup_cons in Hnd as [Ha Hnd].
  apply NoDup_app in Hnd as (Hndc & _ & Hndn).
  destruct (decide (a = n)) as [->|Hne].
  - apply assign_notin. sets.
  - by rewrite IHc, IHn.
Qed.

Lemma sub_assign n x' t xn cn :
  NoDup (refs t) → sub n t = N n xn cn Leaf →
  sub n (assign n x' t) = N n x' cn Leaf.
Proof.
  induction t as [|a x c IHc nx IHn]; simpl; [done|].
  intros Hnd. apply NoDup_cons in Hnd as [Ha Hnd].
  apply NoDup_app in Hnd as (Hndc & _ & Hndn).
  destruct (decide (a = n)) as [->|Hne].
  - intros [= -> ->]. by rewrite assign_notin by sets.
  - destruct (decide (n ∈ refs c)) as [Hc|Hc].
    + destruct (sub_shape n c Hc) as (y & cy & Hs). rewrite Hs.
      intros [= -> ->]. by rewrite (IHc Hndc Hs).
    + rewrite (assign_notin n x' c Hc), (sub_notin n c Hc). auto.
Qed.

Lemma Struct_assign h s t n v x' :
  Struct h s t → s !! n = Some v →
  Struct h (<[n := with_item x' v]> s) (assign n x' t).
Proof.
  intros (Hroot & Hsingle & HR & Hnd & Hsize & Hpool) Hv.
  split_and!; rewrite ?assign_refs, ?assign_root; try done.
  - destruct t; [done|]. simpl in *. by subst.
  - by apply assign_Rep.
  - destruct (_objectPool h) as [p|]; [|done]. destruct Hpool as [Hwf Hp].
    split; [done|]. intros m Hm. destruct (Hp m Hm) as (Hmt & w & Hw & Hc).
    split; [by rewrite assign_refs|]. destruct (decide (m = n)) as [->|Hne].
    + rewrite lookup_insert_eq. rewrite Hv in Hw. injection Hw as ->.
      eexists. split; [done|]. exact Hc.
    + exists w. by rewrite lookup_insert_ne.
Qed.

Lemma decreaseKey_ho n x' t xn cn :
  StrictWeakOrder → NoDup (refs t) → single t → heap_ordered t →
  sub n t = N n xn cn Leaf → lessThanFunc xn x' = false →
  heap_ordered (decreaseKey_t n (assign n x' t)).
Proof.
  intros Hswo Hnd Hsingle Ho Hsub Hle.
  pose proof (sub_ho n t Ho) as Hsubo. rewrite Hsub in Hsubo.
  destruct Hsubo as (Hall & Hcn & _).
  assert (heap_ordered (N n x' cn Leaf)) as Hnew.
  { cbn [heap_ordered]. split_and!; [|done..].
    eapply Forall_impl; [exact Hall|]. intros d Hd. simpl in Hd.
    by apply (ge_trans Hswo d xn x'). }
  unfold decreaseKey_t. rewrite assign_root.
  destruct (decide (root_of t = Some n)) as [Hr|Hr].
  - destruct t as [|r x c nx]; [discriminate|]. injection Hr as ->.
    simpl in Hsub. rewrite decide_True in Hsub by done. injection Hsub as -> ->.
    simpl in Hsingle. subst nx. cbn [refs] in Hnd. apply NoDup_cons in Hnd as [Hn _].
    cbn [assign]. rewrite decide_True by done.
    rewrite (assign_notin n x' cn) by sets. done.
  - rewrite cut_assign by done. rewrite (sub_assign n x' t xn cn Hnd Hsub).
    apply merge_t_ho; [done|by apply cut_single|done|by apply cut_ho|done].
Qed.

(** ** The two-pass method *)

Lemma pairs_pass_one l : pairs l = pass_one (siblings l).
Proof.
  induction l as [|a x ca|a x ca b y cb rest IH] using bt_pair_ind.
  - reflexivity.
  - reflexivity.
  - rewrite pairs_cons2, IH. reflexivity.
Qed.

Lemma fold_back_pass_two ts : fold_back (rev ts) = pass_two ts.
Proof.
  unfold fold_back, pass_two.
  rewrite <- (rev_involutive ts) at 2. symmetry.
  apply (fold_left_rev_right (λ t acc, merge_t acc t)).
Qed.

Lemma two_pass_rec_passes ts : two_pass_rec ts = pass_two (pass_one ts).
Proof.
  enough (two_pass_rec ts = pass_two (pass_one ts)
          ∧ ∀ a, two_pass_rec (a :: ts) = pass_two (pass_one (a :: ts))) as [H _]
    by exact H.
  induction ts as [|b ts [IH1 IH2]]; split.
  - reflexivity.
  - intros a. reflexivity.
  - apply IH2.
  - intros a. cbn [two_pass_rec pass_one]. rewrite IH1. reflexivity.
Qed.

Lemma collapse_t_two_pass l : collapse_t l = two_pass_rec (siblings l).
Proof.
  unfold collapse_t. by rewrite fold_back_pass_two, pairs_pass_one, two_pass_rec_passes.
Qed.

(** ** Auxiliary facts for the claims *)

Lemma Inv_invariants h s : StrictWeakOrder → Inv h s → invariants_hold h s.
Proof.
  intros Hswo (t & HS & Ho). split_and!.
  - by exists t.
  - by apply (Struct_heap_order h s t).
  - by apply (Struct_root_is_min h s t).
  - by apply (Struct_size_counts h s t).
Qed.

Lemma Struct_fuel h s t fuel :
  Struct h s t → _size h ≤ Z.of_nat fuel → (length (refs t) ≤ fuel)%nat.
Proof. intros (_ & _ & _ & _ & Hsize & _) H. lia. Qed.

Lemma inline_unlink {B} (node rp : ref) (k : M B) s :
  (unlink_step node rp ;; k) s
  = (let* pc := get_child rp in
     let* nx := get_next node in
     (if decide (pc = Some node) then set_child rp nx else set_next rp nx) ;;
     let* nx' := get_next node in
     match nx' with
     | Some rn => let* p' := get_prev node in set_prev rn p'
     | None => ret tt
     end ;;
     k) s.
Proof. symmetry. apply unlink_inline. Qed.

Lemma merge_total a b (s : Store) :
  closed s → allocated s a → allocated s b →
  ∃ r s', merge a b s = Ok (r, s').
Proof.
  intros Hcl Ha Hb. destruct a as [ra|]; [|by eexists _, _].
  destruct b as [rb|]; [|by eexists _, _].
  unfold merge. destruct (decide (ra = rb)) as [|Hne]; [by eexists _, _|].
  destruct Ha as [va Hva], Hb as [vb Hvb].
  run get_item_Ok. run get_item_Ok.
  destruct (lessThanFunc (item vb) (item va)).
  - destruct (merge_link_any rb ra vb va s (not_eq_sym Hne) Hvb Hva) as (s' & Hrun & _).
    { by destruct (Hcl rb vb Hvb) as (? & _). }
    by eexists _, _.
  - destruct (merge_link_any ra rb va vb s Hne Hva Hvb) as (s' & Hrun & _).
    { by destruct (Hcl ra va Hva) as (? & _). }
    by eexists _, _.
Qed.

(** * The claims *)

(** C1: on an empty well-formed heap and under a comparator that is a strict
    weak ordering, after [add] of the items of a list in any order, as many
    calls of [deleteMin()] as there are items return the items in
    non-decreasing order (no returned item compares strictly less than one
    returned before it), each as often as it was added, and leave the heap
    empty; the default iteration of the heap, in place of the [deleteMin]
    calls, yields exactly the same sequence and leaves [size] as it is, still
    counting the nodes of the heap, and the [deleteMin] calls return the same
    sequence after the iteration as before it. *)
Theorem sorted_extraction (xs : list TItem) (fuel : nat) (h0 : PairingHeap) (s0 : Store) :
  StrictWeakOrder → WellFormed h0 s0 → _root h0 = None → (length xs < fuel)%nat →
  ∃ ns h s out h' s' s'',
    add_all xs h0 s0 = Ok ((ns, h), s)
    ∧ drain fuel (length xs) h s = Ok ((out, h'), s')
    ∧ StronglySorted (λ x y, lessThanFunc y x = false) out
    ∧ out ≡ₚ xs
    ∧ isEmpty h' = true
    ∧ iter_collect fuel false (_iterate h) s = Ok (map YItem out, s'')
    ∧ size h = Z.of_nat (length xs)
    ∧ size_counts h s''
    ∧ (∃ h3 s3, drain fuel (length xs) h s'' = Ok ((out, h3), s3)).
Proof.
  intros Hswo (t0 & HS0) Hroot0 Hfuel.
  assert (t0 = Leaf) as ->.
  { destruct HS0 as (Hr & _). rewrite Hroot0 in Hr. by destruct t0. }
  destruct (add_all_Struct xs h0 s0 Leaf HS0) as (ns & h & s & t & Hrun & HS & Hitems & Ho).
  simpl in Hitems.
  assert (length (refs t) = length xs) as Hlen.
  { rewrite refs_items_length. by apply Permutation_length. }
  destruct (drain_Struct fuel (length xs) h s t HS) as (h' & s' & t' & Hrun' & HS' & Hlen' & _);
    [lia|lia|].
  destruct (iterate_Struct fuel h s t HS)
    as (s'' & t'' & Hrun'' & HS'' & _ & _ & _ & Hperm'' & Hex''); [lia|].
  pose proof HS as (_ & Hsingle & _ & _ & Hsize & _).
  exists ns, h, s, (extract (length xs) t), h', s', s''. split_and!.
  - done.
  - done.
  - apply extract_sorted; [done|]. by apply Ho.
  - rewrite extract_perm; done.
  - assert (t' = Leaf) as ->.
    { destruct t'; [done|]. simpl in Hlen'. lia. }
    destruct HS' as (Hr' & _). unfold isEmpty. rewrite Hr'. done.
  - rewrite <- Hlen. done.
  - unfold size. lia.
  - by apply (Struct_size_counts h s'' t'').
  - assert (length (refs t'') = length xs) as Hlen''.
    { by rewrite (Permutation_length Hperm''). }
    destruct (drain_Struct fuel (length xs) h s'' t'' HS'') as (h3 & s3 & _ & Hrun3 & _);
      [lia|lia|].
    exists h3, s3. rewrite Hrun3. rewrite <- Hlen'' at 1. rewrite Hex'', Hlen. done.
Qed.

(** C2: on a heap that satisfies its invariants, under a comparator that is a
    strict weak ordering, heap order holds (no descendant of a node reachable
    from the root compares strictly less than it, so the root holds a
    minimum) and [size] is the number of nodes reachable from the root; and
    [add], [deleteMin], [delete] of a live handle, [decreaseKey] of a live
    handle whose item was assigned a value that does not compare greater than
    the old one, and [clear] each return and leave a heap that satisfies the
    invariants again; the constructor establishes them. *)
Theorem heap_invariants (h : PairingHeap) (s : Store) :
  StrictWeakOrder → Inv h s →
  (heap_order h s ∧ root_is_min h s ∧ size_counts h s)
  ∧ (∀ x, ∃ n h' s', add x h s = Ok ((n, h'), s') ∧ invariants_hold h' s')
  ∧ (∀ fuel, _size h ≤ Z.of_nat fuel →
       ∃ x h' s', deleteMin fuel h s = Ok ((x, h'), s') ∧ invariants_hold h' s')
  ∧ (∀ fuel n, _size h ≤ Z.of_nat fuel → live h s n →
       ∃ h' s', delete fuel n h s = Ok (h', s') ∧ invariants_hold h' s')
  ∧ (∀ n v x', live h s n → s !! n = Some v → lessThanFunc (item v) x' = false →
       ∃ h' s', decreaseKey n h (<[n := with_item x' v]> s) = Ok (h', s')
                ∧ invariants_hold h' s')
  ∧ invariants_hold (clear h) s
  ∧ (∀ objectPool s0, pool_ok s0 Leaf objectPool →
       invariants_hold (new_heap objectPool) s0).
Proof.
  intros Hswo HI. pose proof HI as (t & HS & Ho).
  pose proof HS as (_ & Hsingle & HR & Hnd & _).
  split.
  { by destruct (Inv_invariants h s Hswo HI) as (_ & ? & ? & ?). }
  split.
  { intros x. destruct (add_Struct x h s t HS) as (n & h' & s' & Hrun & Hn & HS' & _).
    exists n, h', s'. split; [done|]. apply Inv_invariants; [done|].
    eexists. split; [exact HS'|]. apply merge_t_ho; simpl; done. }
  split_and!.
  - intros fuel Hfuel.
    destruct (deleteMin_Struct fuel h s t HS) as (h' & s' & Hrun & HS' & _);
      [by eapply Struct_fuel|].
    exists (min_t t), h', s'. split; [done|]. apply Inv_invariants; [done|].
    eexists. split; [exact HS'|]. apply collapse_t_ho; [done|].
    destruct t; [done|]. apply Ho.
  - intros fuel n Hfuel Hlive. apply (live_iff h s t n HS) in Hlive.
    destruct (delete_Struct fuel n h s t HS Hlive) as (h' & s' & Hrun & HS' & _);
      [by eapply Struct_fuel|].
    exists h', s'. split; [done|]. apply Inv_invariants; [done|].
    eexists. split; [exact HS'|]. by apply delete_t_ho.
  - intros n v x' Hlive Hv Hle. apply (live_iff h s t n HS) in Hlive.
    pose proof (Struct_assign h s t n v x' HS Hv) as HS1.
    destruct (decreaseKey_Struct n h _ _ HS1) as (h' & s' & Hrun & HS' & _).
    { by rewrite assign_refs. }
    exists h', s'. split; [done|]. apply Inv_invariants; [done|].
    eexists. split; [exact HS'|].
    destruct (sub_Rep n t None s HR Hlive) as (xn & cn & nn & pn & Hsub & Hn & _).
    rewrite Hn in Hv. injection Hv as <-.
    by apply (decreaseKey_ho n x' t xn cn).
  - apply Inv_invariants; [done|]. exists Leaf. split; [|done].
    by apply (Struct_clear h s t).
  - intros objectPool s0 Hp. apply Inv_invariants; [done|]. exists Leaf.
    split; [|done]. by apply Struct_new.
Qed.

(** C3: [merge(a, b)] returns [b] when [a] is absent, [a] when [b] is absent,
    and [a] with nothing changed when both are the same reference.  Otherwise
    [b] becomes the parent and [a] its new first child exactly when [b]'s item
    compares strictly less than [a]'s, and in every other case, ties included,
    [a] is the parent and [b] the new first child.  The new child's [next]
    becomes the parent's former first child and its [prev] the parent; the
    parent's [next] and [prev] are cleared; the former first child, a third
    node when the two arguments are independent roots, gets the new child as
    its [prev]; no other node changes. *)
Theorem merge_contract :
  (∀ b s, merge None b s = Ok (b, s))
  ∧ (∀ a s, merge a None s = Ok (a, s))
  ∧ (∀ a s, merge (Some a) (Some a) s = Ok (Some a, s))
  ∧ (∀ a b va vb s,
       a ≠ b → s !! a = Some va → s !! b = Some vb →
       let b_wins := lessThanFunc (item vb) (item va) in
       let parent := if b_wins then b else a in
       let chld := if b_wins then a else b in
       let vp := if b_wins then vb else va in
       let vc := if b_wins then va else vb in
       allocated s (child vp) →
       ∃ s',
         merge (Some a) (Some b) s = Ok (Some parent, s')
         ∧ s' !! parent = Some (mkNode (item vp) (Some chld) None None)
         ∧ s' !! chld = Some (mkNode (item vc) (child vc) (child vp) (Some parent))
         ∧ (∀ c vcc, child vp = Some c → c ≠ a → c ≠ b → s !! c = Some vcc →
              s' !! c = Some (mkNode (item vcc) (child vcc) (next vcc) (Some chld)))
         ∧ (∀ k, k ≠ a → k ≠ b → child vp ≠ Some k → s' !! k = s !! k)).
Proof.
  split_and!.
  - reflexivity.
  - intros [a|] s; reflexivity.
  - intros a s. unfold merge. rewrite decide_True by done. reflexivity.
  - intros a b va vb s Hab Ha Hb b_wins parent chld vp vc Hfc.
    unfold merge. rewrite decide_False by done.
    run get_item_Ok. run get_item_Ok. fold b_wins.
    subst parent chld vp vc. destruct b_wins.
    + destruct (merge_link_any b a vb va s (not_eq_sym Hab) Hb Ha Hfc)
        as (s' & Hrun & H1 & H2 & H3 & H4).
      exists s'. split_and!; try done.
      * intros c vcc ? ? ? ?. by apply H3.
      * intros k ? ? ?. by apply H4.
    + destruct (merge_link_any a b va vb s Hab Ha Hb Hfc)
        as (s' & Hrun & H1 & H2 & H3 & H4).
      exists s'. split_and!; try done.
Qed.

(** C4: for every sibling list in the store, the iterative [collapse] returns
    the root of, and leaves in the store, exactly the tree that the recursive
    two-pass method computes: the first pass merges each adjacent pair from
    left to right (an odd last tree passes through), the second reduces its
    results from the last back to the first by [merge(accumulator, tree)].
    Nodes outside the list do not change, and an absent input gives absent. *)
Theorem collapse_two_pass (fuel : nat) (l : bt) (s : Store) (p : option ref) :
  Rep s p l → NoDup (refs l) → (length (refs l) ≤ fuel)%nat →
  let r := two_pass_rec (siblings l) in
  r = pass_two (pass_one (siblings l))
  ∧ collapse fuel None s = Ok (None, s)
  ∧ ∃ s', collapse fuel (root_of l) s = Ok (root_of r, s')
          ∧ Rep s' None r
          ∧ (∀ k, k ∉ refs l → s' !! k = s !! k).
Proof.
  intros HR Hnd Hfuel r. subst r. split_and!.
  - apply two_pass_rec_passes.
  - reflexivity.
  - rewrite <- collapse_t_two_pass. by apply (collapse_Rep fuel l s p).
Qed.

(** C5, amended: [decreaseKey(node)] changes nothing when [node] is the root.
    For every other node whose [prev] link is present it runs the same
    unlinking statements as [delete] and then sets [root = merge(root, node)];
    on a well-formed heap and a live handle this moves the node together with
    all its children under, or on top of, the rest of the tree.  When the
    [prev] link of a node other than the root is absent, [decreaseKey] does
    not do what [delete] does there: it fails with a [TypeError]. *)
Theorem decreaseKey_contract (node : ref) (h : PairingHeap) (s : Store) :
  (_root h = Some node → decreaseKey node h s = Ok (h, s))
  ∧ (∀ v rp fuel,
       _root h ≠ Some node → s !! node = Some v → prev v = Some rp →
       decreaseKey node h s
       = (unlink_step node rp ;;
          let* root := merge (_root h) (Some node) in
          ret (mkHeap (_objectPool h) (_size h) root)) s
       ∧ delete fuel node h s
         = (unlink_step node rp ;;
            let* c := get_child node in
            let* collapsed := collapse fuel c in
            let* root := merge (_root h) collapsed in
            delete_finish node root h) s)
  ∧ (∀ v, _root h ≠ Some node → s !! node = Some v → prev v = None →
       decreaseKey node h s = Throw TypeError)
  ∧ (∀ t, Struct h s t → node ∈ refs t → _root h ≠ Some node →
       ∃ h' s', decreaseKey node h s = Ok (h', s')
                ∧ Struct h' s' (merge_t (cut node t) (sub node t))).
Proof.
  split_and!.
  - intros Hr. unfold decreaseKey. by rewrite decide_True.
  - intros v rp fuel Hr Hv Hp. split.
    + unfold decreaseKey. rewrite decide_False by congruence.
      run get_prev_Ok. rewrite Hp. by rewrite inline_unlink.
    + unfold delete. rewrite decide_False by congruence.
      run get_prev_Ok. rewrite Hp. by rewrite inline_unlink.
  - intros v Hr Hv Hp. unfold decreaseKey. rewrite decide_False by congruence.
    run get_prev_Ok. by rewrite Hp.
  - intros t HS Hin Hr.
    destruct (decreaseKey_Struct node h s t HS Hin) as (h' & s' & Hrun & HS' & _).
    exists h', s'. split; [done|].
    unfold decreaseKey_t in HS'. destruct HS as (Hroot & _).
    rewrite decide_False in HS' by congruence. done.
Qed.

(** C6: a [delete] of a live handle returns, and a second [delete] of the same
    handle right after it throws when a pool is configured and otherwise
    returns with root, size and store as they were.  The second [delete] does
    so on every node outside the heap whose [prev] link is absent. *)
Theorem delete_twice (fuel : nat) (n : ref) (h : PairingHeap) (s : Store) :
  WellFormed h s → live h s n → _size h ≤ Z.of_nat fuel →
  (∃ h1 s1,
     delete fuel n h s = Ok (h1, s1)
     ∧ match _objectPool h with
       | Some _ => delete fuel n h1 s1 = Throw AlreadyDeleted
       | None => delete fuel n h1 s1 = Ok (h1, s1)
       end)
  ∧ (∀ fuel' h' s' v, s' !! n = Some v → prev v = None → _root h' ≠ Some n →
       delete fuel' n h' s'
       = match _objectPool h' with
         | Some _ => Throw AlreadyDeleted
         | None => Ok (h', s')
         end).
Proof.
  intros (t & HS) Hlive Hfuel.
  assert (∀ fuel' h' s' v, s' !! n = Some v → prev v = None → _root h' ≠ Some n →
       delete fuel' n h' s'
       = match _objectPool h' with
         | Some _ => Throw AlreadyDeleted
         | None => Ok (h', s')
         end) as Hagain.
  { intros fuel' h' s' v Hv Hprev Hroot. unfold delete.
    rewrite decide_False by congruence.
    run get_prev_Ok. rewrite Hprev. by destruct (_objectPool h'). }
  split; [|exact Hagain].
  apply (live_iff h s t n HS) in Hlive.
  destruct (delete_Struct fuel n h s t HS Hlive)
    as (h1 & s1 & Hrun & HS1 & Hperm & Hcl & _ & Hpool);
    [by eapply Struct_fuel|].
  exists h1, s1. split; [done|].
  assert (_root h1 ≠ Some n) as Hroot.
  { destruct HS1 as (Hroot1 & _). rewrite Hroot1. intros Hr.
    apply root_of_refs in Hr.
    destruct HS as (_ & _ & _ & Hnd & _). rewrite Hperm in Hnd.
    apply NoDup_cons in Hnd as [Hnot _]. done. }
  rewrite (Hagain fuel h1 s1 _ Hcl eq_refl Hroot).
  rewrite Hpool. by destruct (_objectPool h).
Qed.

(** C7, amended: [add(item)] takes the node that the pool's [get()] supplies
    when a pool is configured and supplies one, and sets its item, leaving its
    [child], [next] and [prev] links as the pool supplied them; otherwise it
    creates a fresh node with that item and clear links.  It then sets
    [root = merge(root, node)], increments [size] and returns the node.  It
    returns whenever every reference refers to an object.  On a well-formed
    heap a node that the pool supplies has clear links, and the heap is
    well-formed again after [add]. *)
Theorem add_contract (x : TItem) (h : PairingHeap) (s : Store) :
  let got := match _objectPool h with Some p => (get p).1 | None => None end in
  let objectPool' := option_map (λ p, (get p).2) (_objectPool h) in
  (got = None →
     let n := fresh (dom s) in
     add x h s
     = (let* root := merge (_root h) (Some n) in
        ret (n, mkHeap objectPool' (_size h + 1) root))
         (<[n := mkNode x None None None]> s))
  ∧ (∀ n v, got = Some n → s !! n = Some v →
       add x h s
       = (let* root := merge (_root h) (Some n) in
          ret (n, mkHeap objectPool' (_size h + 1) root))
           (<[n := mkNode x (child v) (next v) (prev v)]> s))
  ∧ (closed s → allocated s (_root h) → allocated s got →
       ∃ n h' s', add x h s = Ok ((n, h'), s') ∧ size h' = size h + 1)
  ∧ (WellFormed h s →
       (∀ n, got = Some n → ∃ v, s !! n = Some v ∧ cleared v)
       ∧ ∃ n h' s', add x h s = Ok ((n, h'), s')
                    ∧ size h' = size h + 1 ∧ WellFormed h' s').
Proof.
  intros got objectPool'.
  assert (got = None →
     let n := fresh (dom s) in
     add x h s
     = (let* root := merge (_root h) (Some n) in
        ret (n, mkHeap objectPool' (_size h + 1) root))
         (<[n := mkNode x None None None]> s)) as Hmiss.
  { intros Hgot n. unfold add. subst got objectPool'.
    destruct (_objectPool h) as [p|]; simpl in *.
    + destruct (get p) as [g p']. simpl in *. subst g. reflexivity.
    + reflexivity. }
  assert (∀ n v, got = Some n → s !! n = Some v →
       add x h s
       = (let* root := merge (_root h) (Some n) in
          ret (n, mkHeap objectPool' (_size h + 1) root))
           (<[n := mkNode x (child v) (next v) (prev v)]> s)) as Hhit.
  { intros n v Hgot Hv. unfold add. subst got objectPool'.
    destruct (_objectPool h) as [p|]; simpl in *; [|discriminate].
    destruct (get p) as [g p']. simpl in *. subst g.
    rewrite bind_assoc. run set_item_Ok. erewrite bind_Ok by reflexivity. reflexivity. }
  split; [exact Hmiss|]. split; [exact Hhit|]. split.
  { intros Hcl Hroot Hgot.
    assert (∀ n (v : Node),
              allocated s (child v) → allocated s (next v) → allocated s (prev v) →
              ∃ r s', merge (_root h) (Some n) (<[n := v]> s) = Ok (r, s')) as Hmerge.
    { intros n v Hc Hn Hp.
      assert (∀ o, allocated s o → allocated (<[n := v]> s) o) as Hmono.
      { intros [k|]; [|done]. simpl. intros Hk.
        destruct (decide (n = k)) as [->|Hne].
        - rewrite lookup_insert_eq. eauto.
        - by rewrite lookup_insert_ne. }
      apply merge_total.
      - intros a w Hw. destruct (decide (n = a)) as [->|Hne].
        + rewrite lookup_insert_eq in Hw. injection Hw as <-. auto.
        + rewrite lookup_insert_ne in Hw by done.
          destruct (Hcl a w Hw) as (? & ? & ?). auto.
      - by apply Hmono.
      - simpl. rewrite lookup_insert_eq. eauto. }
    destruct got as [n|] eqn:Egot.
    - destruct Hgot as [v Hv]. rewrite (Hhit n v eq_refl Hv).
      destruct (Hcl n v Hv) as (Hc & Hn & Hp).
      destruct (Hmerge n (mkNode x (child v) (next v) (prev v))) as (r & s' & Hrun);
        [done..|].
      erewrite bind_Ok by exact Hrun. by eexists _, _, _.
    - rewrite (Hmiss eq_refl). cbn zeta.
      destruct (Hmerge (fresh (dom s)) (mkNode x None None None)) as (r & s' & Hrun);
        [done..|].
      erewrite bind_Ok by exact Hrun. by eexists _, _, _. }
  intros (t & HS). split.
  { intros n Hgot. destruct HS as (_ & _ & _ & _ & _ & Hpool). subst got.
    destruct (_objectPool h) as [p|]; [|discriminate]. destruct Hpool as [Hwf Hp].
    by destruct (Hp n (pool_get_held p n Hwf Hgot)) as [_ ?]. }
  destruct (add_Struct x h s t HS) as (n & h' & s' & Hrun & Hn & HS' & _).
  exists n, h', s'. split_and!; [done| |by eexists].
  destruct HS as (_ & Hsingle & _ & _ & Hsize & _).
  destruct HS' as (_ & _ & _ & _ & Hsize' & _).
  unfold size. rewrite Hsize', Hsize, merge_t_refs, length_app by done. simpl. lia.
Qed.

(** C8: on every well-formed heap and for every item [x], [add(x)] followed
    by [delete] of the returned handle returns, [size] is what it was before
    the [add], and [getMin()] returns what it returned before the [add]. *)
Theorem add_delete_roundtrip (x : TItem) (fuel : nat) (h : PairingHeap) (s : Store) :
  WellFormed h s → _size h < Z.of_nat fuel →
  ∃ n h1 s1 h2 s2 m,
    add x h s = Ok ((n, h1), s1)
    ∧ delete fuel n h1 s1 = Ok (h2, s2)
    ∧ size h2 = size h
    ∧ getMin h s = Ok (m, s)
    ∧ getMin h2 s2 = Ok (m, s2).
Proof.
  intros (t & HS) Hfuel.
  pose proof HS as (Hroot & Hsingle & HR & Hnd & Hsize & _).
  destruct (add_Struct x h s t HS) as (n & h1 & s1 & Hrun1 & Hn & HS1 & _).
  set (t1 := merge_t t (N n x Leaf Leaf)) in *.
  assert (refs t1 ≡ₚ refs t ++ [n]) as Hperm by (subst t1; by rewrite merge_t_refs).
  destruct (delete_Struct fuel n h1 s1 t1 HS1) as (h2 & s2 & Hrun2 & HS2 & _).
  { rewrite Hperm. sets. }
  { rewrite Hperm, length_app. simpl. lia. }
  assert (delete_t n t1 = t) as Hback.
  { subst t1. unfold delete_t. destruct t as [|r y c nx].
    - simpl. rewrite decide_True by done. reflexivity.
    - simpl in Hsingle. subst nx. simpl.
      assert (r ≠ n) as Hrn by (intros ->; apply Hn; simpl; sets).
      destruct (lessThanFunc x y); simpl.
      + rewrite decide_True by done. reflexivity.
      + repeat (first [rewrite decide_False by congruence
                       |rewrite decide_True by done]; simpl).
        reflexivity. }
  rewrite Hback in HS2.
  exists n, h1, s1, h2, s2, (min_t t). split_and!.
  - done.
  - done.
  - unfold size. destruct HS2 as (_ & _ & _ & _ & Hsize2 & _). lia.
  - by apply getMin_Struct.
  - by apply getMin_Struct.
Qed.

(** C9, amended: [delete] of a live handle and [deleteMin] leave the node they
    remove outside the heap with [child], [next] and [prev] absent and the
    item [undefined]; and [add] (except on the node it returns), [delete],
    [decreaseKey] and an iteration leave every node outside the heap as it
    was, so a removed node stays cleared.  [clear()] assigns only [root] and
    [size]: the nodes it drops keep their links and items. *)
Theorem removed_nodes_cleared (h : PairingHeap) (s : Store) :
  WellFormed h s →
  (∀ fuel n, live h s n → _size h ≤ Z.of_nat fuel →
     ∃ h' s', delete fuel n h s = Ok (h', s')
              ∧ s' !! n = Some (mkNode undefined None None None)
              ∧ ¬ live h' s' n)
  ∧ (∀ fuel r, _root h = Some r → _size h ≤ Z.of_nat fuel →
       ∃ x h' s', deleteMin fuel h s = Ok ((x, h'), s')
                  ∧ s' !! r = Some (mkNode undefined None None None)
                  ∧ ¬ live h' s' r)
  ∧ (∀ m, ¬ live h s m →
       (∀ x n h' s', add x h s = Ok ((n, h'), s') → m ≠ n → s' !! m = s !! m)
       ∧ (∀ fuel n h' s', live h s n → _size h ≤ Z.of_nat fuel →
            delete fuel n h s = Ok (h', s') → s' !! m = s !! m)
       ∧ (∀ n h' s', live h s n →
            decreaseKey n h s = Ok (h', s') → s' !! m = s !! m)
       ∧ (∀ fuel ys s', _size h < Z.of_nat fuel →
            iter_collect fuel false (_iterate h) s = Ok (ys, s') → s' !! m = s !! m))
  ∧ (_root (clear h) = None ∧ size (clear h) = 0 ∧ ∀ n, ¬ live (clear h) s n).
Proof.
  intros (t & HS).
  pose proof HS as (Hroot & Hsingle & HR & Hnd & Hsize & _).
  split; [|split; [|split]].
  - intros fuel n Hlive Hfuel. apply (live_iff h s t n HS) in Hlive.
    destruct (delete_Struct fuel n h s t HS Hlive)
      as (h' & s' & Hrun & HS' & Hperm & Hcl & _); [by eapply Struct_fuel|].
    exists h', s'. split_and!; [done|done|].
    rewrite (live_iff h' s' _ n HS'). rewrite Hperm in Hnd.
    by apply NoDup_cons in Hnd as [? _].
  - intros fuel r Hr Hfuel.
    destruct (deleteMin_Struct fuel h s t HS) as (h' & s' & Hrun & HS' & Hcl & _);
      [by eapply Struct_fuel|].
    exists (min_t t), h', s'. split_and!; [done|apply Hcl; congruence|].
    rewrite (live_iff h' s' _ r HS'). rewrite collapse_t_refs.
    destruct t as [|r' x c nx]; [by rewrite Hroot in Hr|].
    rewrite Hroot in Hr. injection Hr as ->. simpl in *.
    by apply NoDup_cons in Hnd as [Hn _]; intros ?; apply Hn; sets.
  - intros m Hm. rewrite (live_iff h s t m HS) in Hm. split_and!.
    + intros x n h' s' Hrun Hmn.
      destruct (add_Struct x h s t HS) as (n1 & h1 & s1 & Hrun1 & _ & _ & Hfr).
      rewrite Hrun1 in Hrun. injection Hrun as <- <- <-. by apply Hfr.
    + intros fuel n h' s' Hlive Hfuel Hrun. apply (live_iff h s t n HS) in Hlive.
      destruct (delete_Struct fuel n h s t HS Hlive)
        as (h1 & s1 & Hrun1 & _ & _ & _ & Hfr & _); [by eapply Struct_fuel|].
      rewrite Hrun1 in Hrun. injection Hrun as <- <-. by apply Hfr.
    + intros n h' s' Hlive Hrun. apply (live_iff h s t n HS) in Hlive.
      destruct (decreaseKey_Struct n h s t HS Hlive) as (h1 & s1 & Hrun1 & _ & Hfr).
      rewrite Hrun1 in Hrun. injection Hrun as <- <-. by apply Hfr.
    + intros fuel ys s' Hfuel Hrun.
      destruct (iterate_Struct fuel h s t HS) as (s1 & t1 & Hrun1 & _ & _ & _ & Hfr);
        [lia|].
      rewrite Hrun1 in Hrun. injection Hrun as <- <-. by apply Hfr.
  - split_and!; [done|done|]. intros n Hn. unfold live in Hn. simpl in Hn. inversion Hn.
Qed.

(** C10: on every well-formed heap the root, if there is one, has neither a
    [prev] nor a [next] link, and every public operation leaves a well-formed
    heap: [add], [deleteMin], [delete] of a live handle, [decreaseKey] of a
    live handle, [clear], a complete iteration, and each single [next()] of
    an iterator of the heap; a [delete] of a node outside the heap whose
    [prev] is absent changes nothing when it returns; the constructor makes a
    well-formed heap. *)
Theorem root_stays_detached (h : PairingHeap) (s : Store) :
  WellFormed h s →
  root_detached h s
  ∧ (∀ x, ∃ n h' s', add x h s = Ok ((n, h'), s')
            ∧ WellFormed h' s' ∧ root_detached h' s')
  ∧ (∀ fuel, _size h ≤ Z.of_nat fuel →
       ∃ x h' s', deleteMin fuel h s = Ok ((x, h'), s')
                  ∧ WellFormed h' s' ∧ root_detached h' s')
  ∧ (∀ fuel n, _size h ≤ Z.of_nat fuel → live h s n →
       ∃ h' s', delete fuel n h s = Ok (h', s')
                ∧ WellFormed h' s' ∧ root_detached h' s')
  ∧ (∀ fuel n v h' s', s !! n = Some v → prev v = None → _root h ≠ Some n →
       delete fuel n h s = Ok (h', s') → h' = h ∧ s' = s)
  ∧ (∀ n, live h s n →
       ∃ h' s', decreaseKey n h s = Ok (h', s')
                ∧ WellFormed h' s' ∧ root_detached h' s')
  ∧ (WellFormed (clear h) s ∧ root_detached (clear h) s)
  ∧ (∀ fuel, _size h < Z.of_nat fuel →
       ∃ ys s', iter_collect fuel false (_iterate h) s = Ok (ys, s')
                ∧ WellFormed h s' ∧ root_detached h s')
  ∧ (∀ fuel nodes it, _size h ≤ Z.of_nat fuel →
       it = _iterate h ∨ it = IterDone ∨ (∃ n, it = IterAt n ∧ live h s n) →
       ∃ y it' s', iter_next fuel nodes it s = Ok ((y, it'), s')
                   ∧ WellFormed h s' ∧ root_detached h s'
                   ∧ (it' = IterDone ∨ ∃ n, it' = IterAt n ∧ live h s' n))
  ∧ (∀ objectPool s0, pool_ok s0 Leaf objectPool →
       WellFormed (new_heap objectPool) s0 ∧ root_detached (new_heap objectPool) s0).
Proof.
  intros (t & HS).
  assert (∀ h' s' t', Struct h' s' t' → WellFormed h' s' ∧ root_detached h' s') as Hwf.
  { intros h' s' t' HS'. split; [by exists t'|by apply (Struct_root_detached h' s' t')]. }
  split.
  { by apply (Struct_root_detached h s t). }
  split.
  { intros x. destruct (add_Struct x h s t HS) as (n & h' & s' & Hrun & Hn & HS' & _).
    exists n, h', s'. split; [done|]. by eapply Hwf. }
  split.
  { intros fuel Hfuel.
    destruct (deleteMin_Struct fuel h s t HS) as (h' & s' & Hrun & HS' & _);
      [by eapply Struct_fuel|].
    exists (min_t t), h', s'. split; [done|]. by eapply Hwf. }
  split.
  { intros fuel n Hfuel Hlive. apply (live_iff h s t n HS) in Hlive.
    destruct (delete_Struct fuel n h s t HS Hlive) as (h' & s' & Hrun & HS' & _);
      [by eapply Struct_fuel|].
    exists h', s'. split; [done|]. by eapply Hwf. }
  split.
  { intros fuel n v h' s' Hv Hprev Hroot. unfold delete.
    rewrite decide_False by congruence.
    run get_prev_Ok. rewrite Hprev.
    destruct (_objectPool h); [discriminate|]. by intros [= <- <-]. }
  split.
  { intros n Hlive. apply (live_iff h s t n HS) in Hlive.
    destruct (decreaseKey_Struct n h s t HS Hlive) as (h' & s' & Hrun & HS' & _).
    exists h', s'. split; [done|]. by eapply Hwf. }
  split.
  { eapply Hwf. by apply (Struct_clear h s t). }
  split.
  { intros fuel Hfuel.
    destruct (iterate_Struct fuel h s t HS) as (s' & t' & Hrun & HS' & _).
    { destruct HS as (_ & _ & _ & _ & Hsize & _). lia. }
    eexists _, s'. split; [exact Hrun|]. by eapply Hwf. }
  split; [|intros objectPool s0 Hp; eapply Hwf; by apply Struct_new].
  intros fuel nodes it Hfuel [->|[->|(n & -> & Hlive)]].
  - (* the first call *)
    pose proof HS as (Hroot & _ & HR & _).
    destruct (iter_enter_total nodes (_root h) s) as (y & it' & Hrun & Hit).
    { rewrite Hroot. destruct (root_of t) as [r|] eqn:Hr; [|done].
      apply root_of_refs in Hr. by apply (Rep_lookup s None t). }
    exists y, it', s. split; [exact Hrun|]. split; [by exists t|].
    split; [by apply (Struct_root_detached h s t)|].
    destruct (_root h) as [r|] eqn:Er; [|by left].
    right. exists r. split; [done|]. unfold live. rewrite Er. constructor.
  - (* a call after the end *)
    exists None, IterDone, s. split; [done|]. split; [by exists t|].
    split; [by apply (Struct_root_detached h s t)|]. by left.
  - apply (live_iff h s t n HS) in Hlive.
    destruct (iter_next_Struct fuel nodes h s t n HS Hlive)
      as (y & it' & s' & t' & Hrun & HS' & _ & Hit); [by eapply Struct_fuel|].
    exists y, it', s'. split; [exact Hrun|]. split; [by exists t'|].
    split; [by apply (Struct_root_detached h s' t')|].
    destruct Hit as [->|(m & -> & Hm)]; [by left|].
    right. exists m. split; [done|]. by apply (live_iff h s' t' m HS').
Qed.

(** * Further properties of the code *)

(** ** Items under relinking *)

Lemma same_items_off_refl n (s : Store) : same_items_off n s s.
Proof. by intros k _. Qed.

Lemma same_items_off_trans n (s1 s2 s3 : Store) :
  same_items_off n s1 s2 → same_items_off n s2 s3 → same_items_off n s1 s3.
Proof. intros H1 H2 k Hk. by rewrite H2, H1. Qed.

Lemma same_items_off_weaken n (s s' : Store) : same_items s s' → same_items_off n s s'.
Proof. intros H k _. by apply H. Qed.

Lemma bind_inv {A B} (m : M A) (k : A → M B) s b s' :
  bind m k s = Ok (b, s') → ∃ a s1, m s = Ok (a, s1) ∧ k a s1 = Ok (b, s').
Proof. unfold bind. destruct (m s) as [[a s1]| |]; [|done..]. eauto. Qed.

Lemma keeps_ret {A} n (a : A) : keeps n (ret a).
Proof. intros s a' s' [= <- <-]. apply same_items_off_refl. Qed.

Lemma keeps_throw {A} n e : keeps n (throw (A := A) e).
Proof. by intros s a s'. Qed.

Lemma keeps_timeout {A} n : keeps n (timeout (A := A)).
Proof. by intros s a s'. Qed.

Lemma keeps_bind {A B} n (m : M A) (k : A → M B) :
  keeps n m → (∀ a, keeps n (k a)) → keeps n (bind m k).
Proof.
  intros Hm Hk s b s' Hrun. apply bind_inv in Hrun as (a & s1 & H1 & H2).
  eapply same_items_off_trans; [by eapply Hm|by eapply Hk].
Qed.

Lemma keeps_weaken {A} n (m : M A) : keeps None m → keeps n m.
Proof. intros Hm s a s' Hrun. apply same_items_off_weaken. by eapply Hm. Qed.

Lemma keeps_load n a : keeps n (load a).
Proof.
  intros s v s' Hrun. unfold load in Hrun.
  destruct (s !! a); [|done]. injection Hrun as <- <-. apply same_items_off_refl.
Qed.

Lemma keeps_get_item n a : keeps n (get_item a).
Proof. apply keeps_bind; [apply keeps_load|intros; apply keeps_ret]. Qed.

Lemma keeps_get_child n a : keeps n (get_child a).
Proof. apply keeps_bind; [apply keeps_load|intros; apply keeps_ret]. Qed.

Lemma keeps_get_next n a : keeps n (get_next a).
Proof. apply keeps_bind; [apply keeps_load|intros; apply keeps_ret]. Qed.

Lemma keeps_get_prev n a : keeps n (get_prev a).
Proof. apply keeps_bind; [apply keeps_load|intros; apply keeps_ret]. Qed.

Lemma keeps_store n a (f : Node → Node) :
  (∀ v, item (f v) = item v) → keeps n (store a f).
Proof.
  intros Hf s [] s' Hrun. unfold store in Hrun.
  destruct (s !! a) as [v|] eqn:E; [|done]. injection Hrun as <-.
  intros k _. destruct (decide (a = k)) as [->|Hne].
  - rewrite lookup_insert_eq, E. simpl. by rewrite Hf.
  - by rewrite lookup_insert_ne.
Qed.

Lemma keeps_set_child n a c : keeps n (set_child a c).
Proof. by apply keeps_store. Qed.

Lemma keeps_set_next n a c : keeps n (set_next a c).
Proof. by apply keeps_store. Qed.

Lemma keeps_set_prev n a c : keeps n (set_prev a c).
Proof. by apply keeps_store. Qed.

Lemma keeps_set_item a x : keeps (Some a) (set_item a x).
Proof.
  intros s [] s' Hrun. unfold set_item, store in Hrun.
  destruct (s !! a) as [v|] eqn:E; [|done]. injection Hrun as <-.
  intros k Hk. rewrite lookup_insert_ne; [done|congruence].
Qed.

Ltac keeping :=
  repeat match goal with
  | |- keeps _ (ret _) => apply keeps_ret
  | |- keeps _ (throw _) => apply keeps_throw
  | |- keeps _ timeout => apply keeps_timeout
  | |- keeps _ (get_item _) => apply keeps_get_item
  | |- keeps _ (get_child _) => apply keeps_get_child
  | |- keeps _ (get_next _) => apply keeps_get_next
  | |- keeps _ (get_prev _) => apply keeps_get_prev
  | |- keeps _ (set_child _ _) => apply keeps_set_child
  | |- keeps _ (set_next _ _) => apply keeps_set_next
  | |- keeps _ (set_prev _ _) => apply keeps_set_prev
  | |- keeps _ (bind _ _) => apply keeps_bind; [|intros ?; cbv beta]
  | |- keeps _ (match ?x with _ => _ end) => destruct x
  end.

Lemma merge_keeps n a b : keeps n (merge a b).
Proof. unfold merge. keeping. Qed.

Lemma collapse_pass1_keeps n fuel : ∀ nxt tail, keeps n (collapse_pass1 fuel nxt tail).
Proof.
  induction fuel as [|fuel IH]; intros nxt tail; simpl; destruct nxt; keeping;
    first [apply merge_keeps|apply IH].
Qed.

Lemma collapse_pass2_keeps n fuel : ∀ result tail, keeps n (collapse_pass2 fuel result tail).
Proof.
  induction fuel as [|fuel IH]; intros result tail; simpl; destruct tail; keeping;
    first [apply merge_keeps|apply IH].
Qed.

Lemma collapse_keeps n fuel node : keeps n (collapse fuel node).
Proof.
  unfold collapse. keeping; [apply collapse_pass1_keeps|apply collapse_pass2_keeps].
Qed.

Lemma unlink_step_keeps n node rp : keeps n (unlink_step node rp).
Proof. unfold unlink_step. keeping. Qed.

Lemma decreaseKey_keeps n node h : keeps n (decreaseKey node h).
Proof. unfold decreaseKey. keeping. apply merge_keeps. Qed.

Lemma delete_keeps fuel node h : keeps (Some node) (delete fuel node h).
Proof.
  unfold delete, delete_finish.
  keeping; first [apply collapse_keeps|apply merge_keeps|apply keeps_set_item].
Qed.

Lemma deleteMin_keeps fuel h :
  keeps (_root h) (deleteMin fuel h).
Proof.
  unfold deleteMin. destruct (_root h) as [r|]; keeping. apply delete_keeps.
Qed.

Lemma iter_enter_keeps n nodes node : keeps n (iter_enter nodes node).
Proof. unfold iter_enter. keeping. Qed.

Lemma iter_next_keeps n fuel nodes it : keeps n (iter_next fuel nodes it).
Proof.
  unfold iter_next. destruct it; [apply iter_enter_keeps| |apply keeps_ret].
  keeping; first [apply collapse_keeps|apply iter_enter_keeps].
Qed.

Lemma iter_collect_keeps n fuel nodes : ∀ it, keeps n (iter_collect fuel nodes it).
Proof.
  induction fuel as [|fuel IH]; intros it; simpl; [apply keeps_timeout|].
  apply keeps_bind; [apply iter_next_keeps|intros [y it']].
  destruct y; keeping. apply IH.
Qed.

Lemma add_keeps x h s n h' s' :
  add x h s = Ok ((n, h'), s') → same_items_off (Some n) s s'.
Proof.
  unfold add. intros Hrun.
  destruct (match _objectPool h with
            | Some p => let '(n, p') := get p in (n, Some p')
            | None => (None, None)
            end) as [got objectPool'].
  apply bind_inv in Hrun as (node & s1 & Hnode & Hrun).
  apply bind_inv in Hrun as (root & s2 & Hmerge & Hret).
  injection Hret as <- <- <-.
  eapply same_items_off_trans; [|by eapply merge_keeps].
  destruct got as [g|].
  - apply bind_inv in Hnode as ([] & s0 & Hset & Hret). injection Hret as <- <-.
    by eapply keeps_set_item.
  - unfold alloc in Hnode. injection Hnode as <- <-.
    intros k Hk. rewrite lookup_insert_ne; [done|congruence].
Qed.

Lemma Struct_isEmpty h s t : Struct h s t → isEmpty h = true ↔ size h = 0.
Proof.
  intros (Hroot & _ & _ & _ & Hsize & _). unfold isEmpty, size.
  rewrite Hroot, Hsize, bool_decide_eq_true. destruct t; simpl; split; (done || lia).
Qed.

Lemma add_item x h s n h' s' :
  add x h s = Ok ((n, h'), s') → item <$> (s' !! n) = Some x.
Proof.
  unfold add. intros Hrun.
  destruct (match _objectPool h with
            | Some p => let '(n, p') := get p in (n, Some p')
            | None => (None, None)
            end) as [got objectPool'].
  apply bind_inv in Hrun as (node & s1 & Hnode & Hrun).
  apply bind_inv in Hrun as (root & s2 & Hmerge & Hret).
  injection Hret as <- <- <-.
  rewrite (merge_keeps None _ _ _ _ _ Hmerge node) by done.
  destruct got as [g|].
  - apply bind_inv in Hnode as ([] & s0 & Hset & Hret). injection Hret as <- <-.
    unfold set_item, store in Hset. destruct (s !! g); [|done].
    injection Hset as <-. by rewrite lookup_insert_eq.
  - unfold alloc in Hnode. injection Hnode as <- <-. by rewrite lookup_insert_eq.
Qed.

Lemma Struct_root_item h s t r v :
  Struct h s t → _root h = Some r → s !! r = Some v →
  ∃ c, t = N r (item v) c Leaf.
Proof.
  intros (Hroot & Hsingle & HR & _) Hr Hv. rewrite Hroot in Hr.
  destruct t as [|a y c nx]; [done|]. injection Hr as ->.
  simpl in Hsingle. subst nx. destruct HR as (Ha & _).
  rewrite Ha in Hv. injection Hv as <-. by exists c.
Qed.

Lemma decreaseKey_t_refs n t :
  single t → NoDup (refs t) → n ∈ refs t → refs (decreaseKey_t n t) ≡ₚ refs t.
Proof.
  intros Hsingle Hnd Hn. unfold decreaseKey_t.
  destruct (decide (root_of t = Some n)) as [|Hr]; [done|].
  destruct (sub_shape n t Hn) as (x & c & Hsub).
  rewrite merge_t_refs, <- cut_sub_refs; [done..| |].
  - by apply cut_single.
  - by rewrite Hsub.
Qed.

(** ** Deleting a list of handles *)

Lemma delete_all_Struct fuel ns : ∀ h s t,
  Struct h s t → NoDup ns → (∀ n, n ∈ ns → n ∈ refs t) →
  (length (refs t) ≤ fuel)%nat →
  ∃ h' s' t',
    delete_all fuel ns h s = Ok (h', s')
    ∧ Struct h' s' t'
    ∧ refs t ≡ₚ ns ++ refs t'.
Proof.
  induction ns as [|n ns IH]; intros h s t HS Hnd Hin Hfuel.
  { exists h, s, t. done. }
  apply NoDup_cons in Hnd as [Hn Hnd].
  destruct (delete_Struct fuel n h s t HS) as (h1 & s1 & Hrun & HS1 & Hperm & _);
    [apply Hin; sets|done|].
  destruct (IH h1 s1 _ HS1 Hnd) as (h' & s' & t' & Hrun' & HS' & Hperm').
  { intros k Hk. assert (k ∈ refs t) as Hkt by (apply Hin; sets).
    rewrite Hperm in Hkt. apply elem_of_cons in Hkt as [->|]; done. }
  { apply Permutation_length in Hperm. simpl in Hperm. lia. }
  exists h', s', t'. split_and!; [|done|].
  - cbn [delete_all]. by erewrite bind_Ok by exact Hrun.
  - rewrite Hperm, Hperm'. done.
Qed.

(** ** The iterator in both modes *)

Lemma iter_enter_yield nodes n v s :
  s !! n = Some v →
  iter_enter nodes (Some n) s = Ok ((Some (yield_of nodes (n, item v)), IterAt n), s).
Proof.
  intros Hv. cbn [iter_enter]. destruct nodes; [done|].
  run get_item_Ok. reflexivity.
Qed.

Lemma chain_next s : ∀ t p k v,
  Rep s p t → single t → chain t → k ∈ refs t → s !! k = Some v → next v = None.
Proof.
  induction t as [|a x c IHc nx IHnx]; intros p k v HR Hsingle Hchain Hk Hv; [sets|].
  simpl in Hsingle. subst nx. destruct HR as (Ha & HRc & _). destruct Hchain as [_ Hc].
  simpl in Hk. rewrite app_nil_r in Hk. apply elem_of_cons in Hk as [->|Hk].
  - rewrite Ha in Hv. by injection Hv as <-.
  - apply (IHc (Some a) k v); try done. by destruct c as [|? ? ? ?]; [|destruct Hc].
Qed.

Lemma iter_at_nodes fuel nodes : ∀ n xn cn nn pn s,
  s !! n = Some (mkNode xn (root_of cn) nn pn) →
  Rep s (Some n) cn → NoDup (n :: refs cn) →
  (length (refs cn) < fuel)%nat →
  ∃ s' cn',
    iter_collect fuel nodes (IterAt n) s
      = Ok (map (yield_of nodes) (extract_nodes (length (refs cn)) (collapse_t cn)), s')
    ∧ s' !! n = Some (mkNode xn (root_of cn') nn pn)
    ∧ Rep s' (Some n) cn'
    ∧ single cn'
    ∧ chain cn'
    ∧ refs cn' ≡ₚ refs cn
    ∧ extract_nodes (length (refs cn')) (collapse_t cn')
      = extract_nodes (length (refs cn)) (collapse_t cn)
    ∧ map fst (extract_nodes (length (refs cn)) (collapse_t cn)) ≡ₚ refs cn
    ∧ Forall (λ e, item <$> (s !! e.1) = Some e.2)
             (extract_nodes (length (refs cn)) (collapse_t cn))
    ∧ (∀ k, k ≠ n → k ∉ refs cn → s' !! k = s !! k)
    ∧ items cn' ≡ₚ items cn
    ∧ (StrictWeakOrder → heap_ordered cn → heap_ordered cn').
Proof.
  induction fuel as [|fuel IH]; intros n xn cn nn pn s Hn HR Hnd Hfuel; [lia|].
  destruct (iter_next_at (S fuel) nodes n xn cn nn pn s Hn HR Hnd)
    as (s1 & Hrun & Hn1 & HR1 & Hfr1); [lia|].
  cbn [iter_collect]. unfold bind at 1. rewrite Hrun.
  pose proof (collapse_t_refs cn) as Hperm.
  pose proof (collapse_t_single cn) as Hsingle.
  destruct (collapse_t cn) as [|r z cr nr] eqn:Hct.
  { apply Permutation_nil in Hperm.
    assert (cn = Leaf) as -> by (destruct cn; [done|discriminate]).
    exists s1, Leaf. simpl. split_and!; done. }
  simpl in Hsingle. subst nr.
  pose proof HR1 as (Hr & HRcr & _).
  assert (same_items s s1) as Hsame.
  { apply (iter_next_keeps None (S fuel) nodes (IterAt n) s
             (Some (yield_of nodes (r, z)), IterAt r) s1).
    rewrite Hrun. cbn [root_of]. by rewrite (iter_enter_yield nodes r _ s1 Hr). }
  cbn [root_of]. rewrite (iter_enter_yield nodes r _ s1 Hr). cbn [item].
  cbn [refs] in Hperm. rewrite app_nil_r in Hperm.
  assert (NoDup (n :: r :: refs cr)) as Hnd'.
  { apply NoDup_cons in Hnd as [Hncn Hnd]. apply NoDup_cons. split.
    - by rewrite Hperm.
    - by rewrite Hperm. }
  apply NoDup_cons in Hnd' as [Hnr Hnd'].
  destruct (IH r z cr None (Some n) s1 Hr HRcr Hnd')
    as (s' & cr' & Hrun' & Hr' & HRcr' & Hs' & Hch' & Hperm' & Hex' & Hfst' & Hit' & Hfr'
        & Hitems' & Ho').
  { apply Permutation_length in Hperm. simpl in Hperm. lia. }
  erewrite bind_Ok by exact Hrun'.
  assert (length (refs cn) = S (length (refs cr))) as Hlen.
  { by rewrite <- (Permutation_length Hperm). }
  exists s', (N r z cr' Leaf). rewrite Hlen. cbn [extract_nodes]. split_and!.
  - reflexivity.
  - rewrite Hfr'; [done|sets|sets].
  - cbn [Rep]. done.
  - done.
  - cbn [chain]. done.
  - cbn [refs]. rewrite app_nil_r, <- Hperm, Hperm'. done.
  - rewrite collapse_t_one. cbn [refs]. rewrite app_nil_r.
    cbn [length extract_nodes]. by rewrite Hex'.
  - cbn [map fst]. by rewrite Hfst', <- Hperm.
  - constructor.
    + cbn [fst snd]. rewrite <- (Hsame r) by done. by rewrite Hr.
    + eapply Forall_impl; [exact Hit'|]. intros e He. cbn beta in *.
      by rewrite <- (Hsame e.1).
  - intros k Hk1 Hk2. rewrite Hfr'.
    + by apply Hfr1.
    + intros ->. apply Hk2. rewrite <- Hperm. sets.
    + intros Hk'. apply Hk2. rewrite <- Hperm. sets.
  - rewrite <- (collapse_t_items cn), Hct. cbn [items]. rewrite !app_nil_r, Hitems'. done.
  - intros Hswo Hcn. pose proof (collapse_t_ho Hswo cn Hcn) as Hct'.
    rewrite Hct in Hct'. destruct Hct' as (Hall & Hcr & _).
    cbn [heap_ordered]. split_and!; [|by apply Ho'|done].
    apply Forall_forall. intros d Hd. rewrite Forall_forall in Hall. apply Hall.
    by rewrite <- Hitems'.
Qed.

(** On a chain the iterator changes nothing. *)
Lemma iter_at_chain fuel nodes : ∀ n xn cn nn pn s,
  s !! n = Some (mkNode xn (root_of cn) nn pn) →
  Rep s (Some n) cn → single cn → chain cn →
  (length (refs cn) < fuel)%nat →
  iter_collect fuel nodes (IterAt n) s
  = Ok (map (yield_of nodes) (extract_nodes (length (refs cn)) (collapse_t cn)), s).
Proof.
  induction fuel as [|fuel IH]; intros n xn cn nn pn s Hn HR Hsingle Hchain Hfuel; [lia|].
  cbn [iter_collect iter_next]. rewrite bind_assoc. run get_child_Ok.
  destruct cn as [|r z cr nr]; [done|].
  simpl in Hsingle. subst nr. destruct HR as (Hr & HRcr & _). destruct Hchain as [_ Hcr].
  cbn [root_of]. rewrite !bind_assoc. run get_next_Ok.
  rewrite bind_assoc. erewrite bind_Ok by reflexivity.
  rewrite bind_assoc. run get_child_Ok.
  erewrite bind_Ok by (by apply iter_enter_yield).
  cbn [refs length] in *. rewrite app_nil_r in *.
  rewrite collapse_t_one. cbn [extract_nodes item map].
  erewrite bind_Ok; [reflexivity|].
  apply (IH r z cr None (Some n)); try done.
  - by destruct cr as [|? ? ? ?]; [|destruct Hcr].
  - lia.
Qed.

(** A complete iteration in either mode. *)
Lemma iterate_nodes_Struct fuel nodes h s t :
  Struct h s t → (length (refs t) < fuel)%nat →
  let es := extract_nodes (length (refs t)) t in
  ∃ s' t',
    iter_collect fuel nodes (_iterate h) s = Ok (map (yield_of nodes) es, s')
    ∧ Struct h s' t'
    ∧ chain t'
    ∧ refs t' ≡ₚ refs t
    ∧ extract_nodes (length (refs t')) t' = es
    ∧ map fst es ≡ₚ refs t
    ∧ Forall (λ e, item <$> (s !! e.1) = Some e.2) es
    ∧ (StrictWeakOrder → heap_ordered t → heap_ordered t').
Proof.
  intros (Hroot & Hsingle & HR & Hnd & Hsize & Hpool) Hfuel es. subst es.
  unfold _iterate. rewrite Hroot.
  destruct fuel as [|fuel]; [lia|].
  destruct t as [|r x c nx].
  { exists s, Leaf. split_and!; done. }
  simpl in Hsingle. subst nx. destruct HR as (Hr & HRc & _).
  cbn [refs] in *. rewrite app_nil_r in *.
  cbn [iter_collect iter_next root_of]. unfold bind at 1.
  rewrite (iter_enter_yield nodes _ _ _ Hr). cbn [item].
  destruct (iter_at_nodes fuel nodes r x c None None s Hr HRc Hnd)
    as (s' & c' & Hrun & Hr' & HRc' & Hs' & Hch & Hperm & Hex & Hfst & Hit & Hfr
        & Hitems & Ho);
    [simpl in Hfuel; lia|].
  erewrite bind_Ok by exact Hrun.
  exists s', (N r x c' Leaf). cbn [length extract_nodes]. split_and!.
  - reflexivity.
  - split_and!; cbn [refs root_of single Rep]; rewrite ?app_nil_r; try done.
    + by rewrite Hperm.
    + by rewrite Hperm.
    + destruct (_objectPool h) as [p|]; [|done]. destruct Hpool as [Hwf Hp].
      split; [done|]. intros m Hm. destruct (Hp m Hm) as (Hmt & v & Hv & Hc).
      cbn [refs] in *. rewrite app_nil_r in *.
      split; [by rewrite Hperm|]. exists v. split; [|done].
      rewrite Hfr; [done| |]; intros ?; apply Hmt; sets.
  - cbn [chain]. done.
  - cbn [refs]. rewrite !app_nil_r, Hperm. done.
  - cbn [refs]. rewrite !app_nil_r. cbn [length extract_nodes]. by rewrite Hex.
  - cbn [map fst]. by rewrite Hfst.
  - constructor; [cbn [fst snd]; by rewrite Hr|done].
  - intros Hswo (Hall & Hc & _). cbn [heap_ordered]. split_and!; [|by apply Ho|done].
    apply Forall_forall. intros d Hd. rewrite Forall_forall in Hall. apply Hall.
    by rewrite <- Hitems.
Qed.

(** A complete iteration of a chain. *)
Lemma iterate_chain fuel nodes h s t :
  Struct h s t → chain t → (length (refs t) < fuel)%nat →
  iter_collect fuel nodes (_iterate h) s
  = Ok (map (yield_of nodes) (extract_nodes (length (refs t)) t), s).
Proof.
  intros (Hroot & Hsingle & HR & Hnd & Hsize & Hpool) Hchain Hfuel.
  unfold _iterate. rewrite Hroot.
  destruct fuel as [|fuel]; [lia|].
  destruct t as [|r x c nx]; [done|].
  simpl in Hsingle. subst nx. destruct HR as (Hr & HRc & _). destruct Hchain as [_ Hc].
  cbn [refs] in *. rewrite app_nil_r in *.
  cbn [iter_collect iter_next root_of]. unfold bind at 1.
  rewrite (iter_enter_yield nodes _ _ _ Hr). cbn [item length extract_nodes map].
  erewrite bind_Ok; [reflexivity|].
  apply (iter_at_chain fuel nodes r x c None None); try done.
  - by destruct c as [|? ? ? ?]; [|destruct Hc].
  - simpl in Hfuel. lia.
Qed.

(** ** Heap order under one step of the iterator *)

Lemma graft_items n c' xn cn : ∀ t,
  NoDup (refs t) → sub n t = N n xn cn Leaf → items c' ≡ₚ items cn →
  items (graft n c' t) ≡ₚ items t.
Proof.
  induction t as [|a x c IHc nx IHn]; simpl; [done|].
  intros Hnd Hsub Hperm.
  apply NoDup_cons in Hnd as [Ha Hnd].
  apply NoDup_app in Hnd as (Hndc & Hdisj & Hndn).
  destruct (decide (a = n)) as [->|Hne].
  - injection Hsub as -> ->. simpl. by rewrite Hperm.
  - simpl. destruct (decide (n ∈ refs c)) as [Hc|Hc].
    + destruct (sub_shape n c Hc) as (y & cy & Hs). rewrite Hs in Hsub.
      injection Hsub as -> ->.
      rewrite (IHc Hndc Hs Hperm).
      rewrite (graft_notin n c' nx) by (intros ?; eapply Hdisj; eauto). done.
    + rewrite (sub_notin n c Hc) in Hsub.
      rewrite (graft_notin n c' c Hc). by rewrite (IHn Hndn Hsub Hperm).
Qed.

Lemma graft_ho n c' xn cn : ∀ t,
  NoDup (refs t) → sub n t = N n xn cn Leaf → items c' ≡ₚ items cn →
  heap_ordered c' → heap_ordered t → heap_ordered (graft n c' t).
Proof.
  induction t as [|a x c IHc nx IHn]; simpl; [done|].
  intros Hnd Hsub Hperm Hc' (Hall & Hoc & Hon).
  apply NoDup_cons in Hnd as [Ha Hnd].
  apply NoDup_app in Hnd as (Hndc & Hdisj & Hndn).
  destruct (decide (a = n)) as [->|Hne].
  - injection Hsub as -> ->. simpl. split_and!; [|done|done].
    apply Forall_forall. intros d Hd. rewrite Forall_forall in Hall. apply Hall.
    by rewrite <- Hperm.
  - simpl. destruct (decide (n ∈ refs c)) as [Hc|Hc].
    + destruct (sub_shape n c Hc) as (y & cy & Hs). rewrite Hs in Hsub.
      injection Hsub as -> ->.
      rewrite (graft_notin n c' nx) by (intros ?; eapply Hdisj; eauto).
      split_and!; [|by apply IHc|done].
      apply Forall_forall. intros d Hd. rewrite Forall_forall in Hall. apply Hall.
      by rewrite <- (graft_items n c' _ _ c Hndc Hs Hperm).
    + rewrite (sub_notin n c Hc) in Hsub.
      rewrite (graft_notin n c' c Hc). split_and!; [done|done|by apply IHn].
Qed.

Lemma sub_ordered n t xn cn : heap_ordered t → sub n t = N n xn cn Leaf → heap_ordered cn.
Proof.
  induction t as [|a x c IHc nx IHn]; simpl; [done|].
  intros (Hall & Hoc & Hon). destruct (decide (a = n)) as [->|Hne].
  - by intros [= -> ->].
  - destruct (sub n c) eqn:E; [by apply IHn|]. intros Hs. by apply IHc.
Qed.

Lemma iter_next_ordered fuel nodes h s t n :
  Struct h s t → n ∈ refs t → (length (refs t) ≤ fuel)%nat →
  ∃ y it' s' t',
    iter_next fuel nodes (IterAt n) s = Ok ((y, it'), s')
    ∧ Struct h s' t'
    ∧ refs t' ≡ₚ refs t
    ∧ (StrictWeakOrder → heap_ordered t → heap_ordered t').
Proof.
  intros HS Hin Hfuel.
  pose proof HS as (Hroot & Hsingle & HR & Hnd & Hsize & Hpool).
  destruct (sub_Rep n t None s HR Hin) as (xn & cn & nn & pn & Hsub & Hn & HRcn).
  pose proof (cut_sub_refs n t Hnd Hin) as Hperm.
  rewrite Hsub in Hperm. cbn [refs] in Hperm. rewrite app_nil_r in Hperm.
  assert (NoDup (refs (cut n t) ++ n :: refs cn)) as Hnd2 by (by rewrite <- Hperm).
  apply NoDup_app in Hnd2 as (_ & Hdisj & Hnd2).
  destruct (iter_next_at fuel nodes n xn cn nn pn s Hn HRcn Hnd2)
    as (s' & Hrun & Hn' & HRc' & Hfr).
  { apply Permutation_length in Hperm. rewrite length_app in Hperm. simpl in Hperm. lia. }
  set (c' := collapse_t cn) in *.
  assert (refs c' ≡ₚ refs cn) as Hpc by apply collapse_t_refs.
  pose proof (graft_refs n c' xn cn t Hnd Hsub Hpc) as Hpg.
  assert (Struct h s' (graft n c' t)) as HS'.
  { split_and!.
    - by rewrite graft_root.
    - destruct t as [|r x c nx]; [done|]. simpl in *. subst nx.
      by destruct (decide (r = n)).
    - by apply (graft_Rep n c' xn cn nn pn s s').
    - by rewrite Hpg.
    - by rewrite Hpg.
    - destruct (_objectPool h) as [p|]; [|done]. destruct Hpool as [Hwf Hp].
      split; [done|]. intros m Hm. destruct (Hp m Hm) as (Hmt & v & Hv & Hc).
      split; [by rewrite Hpg|]. exists v. split; [|done].
      rewrite Hfr; [done|intros ->; done|].
      intros Hk. apply Hmt. rewrite Hperm. sets. }
  destruct (iter_enter_total nodes (root_of c') s') as (y & it' & Henter & Hit).
  { destruct (root_of c') as [r|] eqn:Hr; [|done]. simpl.
    apply root_of_refs in Hr. by apply (Rep_lookup s' (Some n) c'). }
  exists y, it', s', (graft n c' t). split_and!; [congruence|done|done|].
  intros Hswo Ho. apply (graft_ho n c' xn cn); try done.
  - apply collapse_t_items.
  - apply collapse_t_ho; [done|]. by apply (sub_ordered n t xn cn).
Qed.

(** ** Adding a list of items *)

Lemma add_all_handles xs : ∀ h s t,
  Struct h s t →
  ∃ ns h' s' t',
    add_all xs h s = Ok ((ns, h'), s')
    ∧ Struct h' s' t'
    ∧ refs t' ≡ₚ refs t ++ ns
    ∧ Forall2 (λ n x, item <$> (s' !! n) = Some x) ns xs
    ∧ (∀ k, k ∉ ns → item <$> (s' !! k) = item <$> (s !! k)).
Proof.
  induction xs as [|x xs IH]; intros h s t HS.
  { exists [], h, s, t. simpl. rewrite app_nil_r. done. }
  destruct (add_Struct x h s t HS) as (n & h1 & s1 & Hrun & Hn & HS1 & _).
  destruct (IH h1 s1 _ HS1) as (ns & h' & s' & t' & Hrun' & HS' & Hperm & Hit & Hfr).
  pose proof HS as (_ & Hsingle & _).
  rewrite merge_t_refs in Hperm by done. simpl in Hperm.
  assert (n ∉ ns) as Hnns.
  { destruct HS' as (_ & _ & _ & Hnd' & _). rewrite Hperm in Hnd'.
    apply NoDup_app in Hnd' as (_ & Hdisj & _). apply (Hdisj n). sets. }
  exists (n :: ns), h', s', t'. split_and!.
  - cbn [add_all]. erewrite bind_Ok by exact Hrun. cbn beta iota.
    erewrite bind_Ok by exact Hrun'. reflexivity.
  - done.
  - rewrite Hperm, <- app_assoc. done.
  - constructor; [|done]. rewrite (Hfr n Hnns). by eapply add_item.
  - intros k Hk. rewrite Hfr by sets.
    apply (add_keeps x h s n h1 s1 Hrun). intros [= <-]. sets.
Qed.

(** ** Repeated removal of the root *)

Lemma rest_single k : ∀ t, single t → single (rest k t).
Proof.
  induction k as [|k IH]; intros t Hs; [done|].
  destruct t as [|a x c nx]; [done|]. simpl. apply IH, collapse_t_single.
Qed.

Lemma extract_rest k : ∀ t, single t → items t ≡ₚ extract k t ++ items (rest k t).
Proof.
  induction k as [|k IH]; intros t Hs; [done|].
  destruct t as [|a x c nx]; [done|]. simpl in Hs. subst nx.
  cbn [extract rest items]. rewrite app_nil_r, <- app_comm_cons.
  rewrite <- (IH (collapse_t c)) by apply collapse_t_single.
  by rewrite collapse_t_items.
Qed.

Lemma rest_refs_length k : ∀ t,
  single t → length (refs (rest k t)) = (length (refs t) - k)%nat.
Proof.
  induction k as [|k IH]; intros t Hs; [simpl; lia|].
  destruct t as [|a x c nx]; [done|]. simpl in Hs. subst nx.
  cbn [rest refs length]. rewrite app_nil_r.
  rewrite IH by apply collapse_t_single.
  by rewrite (Permutation_length (collapse_t_refs c)).
Qed.

Lemma drain_rest fuel k : ∀ h s t,
  Struct h s t → (length (refs t) ≤ fuel)%nat →
  ∃ h' s',
    drain fuel k h s = Ok ((extract k t ++ replicate (k - length (refs t)) undefined, h'), s')
    ∧ Struct h' s' (rest k t).
Proof.
  induction k as [|k IH]; intros h s t HS Hfuel.
  { exists h, s. done. }
  destruct (deleteMin_Struct fuel h s t HS Hfuel) as (h1 & s1 & Hrun & HS1 & _ & _).
  pose proof HS as (_ & Hsingle & _).
  assert (length (refs (collapse_t (children t))) ≤ fuel)%nat as Hfuel1.
  { rewrite (Permutation_length (collapse_t_refs _)).
    destruct t as [|r x c nx]; simpl in *; [lia|]. rewrite length_app in Hfuel. lia. }
  destruct (IH h1 s1 _ HS1 Hfuel1) as (h' & s' & Hrun' & HS').
  exists h', s'. split.
  - cbn [drain]. erewrite bind_Ok by exact Hrun. cbn beta iota.
    erewrite bind_Ok by exact Hrun'. unfold ret. do 3 f_equal.
    destruct t as [|r x c nx].
    + simpl. destruct k; reflexivity.
    + simpl in Hsingle. subst nx. cbn [min_t extract children refs length].
      rewrite app_nil_r, (Permutation_length (collapse_t_refs c)). reflexivity.
  - destruct t as [|r x c nx]; [|done].
    simpl in *. by destruct k.
Qed.

Section Prefix.

Hypothesis swo : StrictWeakOrder.

Lemma rest_ho k : ∀ t, heap_ordered t → heap_ordered (rest k t).
Proof using swo.
  induction k as [|k IH]; intros t Ho; [done|].
  destruct t as [|a x c nx]; [done|]. destruct Ho as (_ & Hc & _).
  simpl. apply IH. by apply collapse_t_ho.
Qed.

Lemma extract_below_rest k : ∀ t y z,
  single t → heap_ordered t → y ∈ extract k t → z ∈ items (rest k t) →
  lessThanFunc z y = false.
Proof using swo.
  induction k as [|k IH]; intros t y z Hs Ho Hy Hz; [simpl in Hy; sets|].
  destruct t as [|a x c nx]; [simpl in Hy; sets|].
  simpl in Hs. subst nx. destruct Ho as (Hall & Hc & _).
  cbn [extract rest] in *.
  assert (z ∈ items c) as Hzc.
  { rewrite <- (collapse_t_items c).
    rewrite (extract_rest k (collapse_t c)) by apply collapse_t_single. sets. }
  apply elem_of_cons in Hy as [->|Hy].
  - rewrite Forall_forall in Hall. by apply Hall.
  - apply (IH (collapse_t c)); try done; [apply collapse_t_single|by apply collapse_t_ho].
Qed.

End Prefix.

Lemma extract_length k t :
  single t → length (extract k t) = (k `min` length (refs t))%nat.
Proof.
  intros Hs. pose proof (Permutation_length (extract_rest k t Hs)) as Hlen.
  rewrite length_app, <- !refs_items_length, rest_refs_length in Hlen by done.
  revert Hlen. generalize (length (refs t)). intros m Hlen.
  assert (length (extract k t) ≤ k)%nat; [|lia].
  clear. revert t. induction k as [|k IH]; intros t; simpl; [lia|].
  destruct t; simpl; [lia|]. specialize (IH (collapse_t t1)). lia.
Qed.

(** ** The node that collapse returns *)

Section Least.

Hypothesis swo : StrictWeakOrder.

Lemma merge_t_least ra ya ta rb yb tb :
  least_of ra ya ta → least_of rb yb tb →
  least_of (ra ++ rb) (ya ++ yb) (merge_t ta tb).
Proof using swo.
  destruct ta as [|a x ca na], tb as [|b y cb nb]; simpl.
  - by intros [-> ->] [-> ->].
  - intros [-> ->] [Hb Hyb]. done.
  - intros [Ha Hya] [-> ->]. rewrite !app_nil_r. done.
  - intros [Ha Hya] [Hb Hyb].
    destruct (lessThanFunc y x) eqn:Hlt; simpl.
    + split; [sets|]. apply Forall_app. split; [|done].
      eapply Forall_impl; [exact Hya|]. intros d Hd. by apply (ge_lt_trans swo d x y).
    + split; [sets|]. apply Forall_app. split; [done|].
      eapply Forall_impl; [exact Hyb|]. intros d Hd. by apply (ge_trans swo d y x).
Qed.

Lemma least_of_perm rs rs' ys ys' t :
  rs ≡ₚ rs' → ys ≡ₚ ys' → least_of rs ys t → least_of rs' ys' t.
Proof.
  intros Hr Hy. destruct t as [|r z c n]; simpl.
  - intros [-> ->]. apply Permutation_nil in Hr, Hy. done.
  - intros [Hin Hall]. split; [by rewrite <- Hr|by rewrite <- Hy].
Qed.

Lemma collapse_t_least l : least_of (top_refs l) (top_items l) (collapse_t l).
Proof using swo.
  rewrite collapse_t_two_pass. destruct swo as (Hirr & _).
  induction l as [|a x ca|a x ca b y cb rest IH] using bt_pair_ind.
  - done.
  - simpl. split; [sets|]. constructor; [apply Hirr|constructor].
  - cbn [siblings two_pass_rec top_refs top_items].
    eapply least_of_perm; [| |apply merge_t_least; [exact IH|]].
    + instantiate (1 := [a; b]). rewrite Permutation_app_comm. done.
    + instantiate (1 := [x; y]). rewrite Permutation_app_comm. done.
    + apply (merge_t_least [a] [x] (N a x ca Leaf) [b] [y] (N b y cb Leaf)); simpl.
      * split; [sets|]. constructor; [apply Hirr|constructor].
      * split; [sets|]. constructor; [apply Hirr|constructor].
Qed.

End Least.

(** ** The objects that add touches *)

Lemma merge_new_frame r n (vr vn : Node) (s : Store) :
  r ≠ n → s !! r = Some vr → s !! n = Some vn →
  child vn = None → allocated s (child vr) →
  ∃ root s',
    merge (Some r) (Some n) s = Ok (root, s')
    ∧ (∀ k, k ≠ n → k ≠ r → child vr ≠ Some k → s' !! k = s !! k).
Proof.
  intros Hrn Hr Hn Hc Ha. unfold merge. rewrite decide_False by done.
  run get_item_Ok. run get_item_Ok.
  destruct (lessThanFunc (item vn) (item vr)).
  - destruct (merge_link_any n r vn vr s (not_eq_sym Hrn) Hn Hr) as (s' & Hrun & _ & _ & _ & Hfr).
    { by rewrite Hc. }
    exists (Some n), s'. split; [exact Hrun|].
    intros k Hk1 Hk2 _. apply Hfr; [done|done|]. by rewrite Hc.
  - destruct (merge_link_any r n vr vn s Hrn Hr Hn Ha) as (s' & Hrun & _ & _ & _ & Hfr).
    exists (Some r), s'. split; [exact Hrun|].
    intros k Hk1 Hk2 Hk3. by apply Hfr.
Qed.

Lemma extract_nodes_items k : ∀ t, map snd (extract_nodes k t) = extract k t.
Proof.
  induction k as [|k IH]; intros t; [done|].
  destruct t as [|a x c n]; [done|]. simpl. by rewrite IH.
Qed.

(** ** The properties *)

(** X1: [merge] and [collapse] only relink. Whenever one of them returns, on
    any store and for any arguments, the store holds the objects it held
    before and each has the item it had; [merge] returns one of its two
    arguments, and it does return whenever every reference in the store
    refers to an object. *)
Theorem relink_only :
  (∀ a b s r s', merge a b s = Ok (r, s') → same_items s s' ∧ (r = a ∨ r = b))
  ∧ (∀ a b s, closed s → allocated s a → allocated s b →
       ∃ r s', merge a b s = Ok (r, s'))
  ∧ (∀ fuel node s r s', collapse fuel node s = Ok (r, s') → same_items s s').
Proof.
  split_and!.
  - intros a b s r s' Hrun. split; [by eapply merge_keeps|].
    unfold merge in Hrun. destruct a as [ra|], b as [rb|]; try (injection Hrun as <- <-; auto).
    destruct (decide (ra = rb)); [injection Hrun as <- <-; auto|].
    apply bind_inv in Hrun as (ib & ? & _ & Hrun).
    apply bind_inv in Hrun as (ia & ? & _ & Hrun).
    destruct (lessThanFunc ib ia);
      repeat (apply bind_inv in Hrun as (? & ? & _ & Hrun));
      injection Hrun as <- <-; auto.
  - intros a b s. apply merge_total.
  - intros fuel node s r s' Hrun. by eapply collapse_keeps.
Qed.

(** X2: On a well-formed heap [isEmpty] tells whether [size] is zero,
    although the one reads the root and the other the counter. *)
Theorem isEmpty_iff_size_zero (h : PairingHeap) (s : Store) :
  WellFormed h s →
  (isEmpty h = true ↔ size h = 0)
  ∧ (isEmpty h = false ↔ 0 < size h)
  ∧ (isEmpty h = true ↔ ∀ n, ¬ live h s n).
Proof.
  intros (t & HS). pose proof (Struct_isEmpty h s t HS) as Hiff.
  pose proof HS as (Hroot & _ & _ & _ & Hsize & _).
  split; [done|]. split.
  - rewrite <- not_true_iff_false, Hiff. unfold size. lia.
  - unfold isEmpty. rewrite bool_decide_eq_true. split.
    + intros Hr n Hn. unfold live in Hn. rewrite Hr in Hn. inversion Hn.
    + intros Hno. destruct (_root h) as [r|] eqn:Er; [|done].
      exfalso. apply (Hno r). unfold live. rewrite Er. constructor.
Qed.

(** X3: A well-formed heap of size zero: [getMin()] and [deleteMin()] return
    [undefined], [getMinNode()] returns no node, both iterations yield
    nothing, and none of them changes the heap or any object. *)
Theorem empty_heap_operations (h : PairingHeap) (s : Store) :
  WellFormed h s → size h = 0 →
  isEmpty h = true
  ∧ getMinNode h = None
  ∧ getMin h s = Ok (undefined, s)
  ∧ (∀ fuel, deleteMin fuel h s = Ok ((undefined, h), s))
  ∧ (∀ fuel nodes, iter_collect (S fuel) nodes (_iterate h) s = Ok ([], s)).
Proof.
  intros (t & HS) Hsize.
  assert (_root h = None) as Hr.
  { apply (Struct_isEmpty h s t HS) in Hsize. unfold isEmpty in Hsize.
    by apply bool_decide_eq_true in Hsize. }
  unfold isEmpty, getMinNode, getMin, deleteMin, _iterate. rewrite Hr.
  split_and!; done.
Qed.

(** X4: On a non-empty well-formed heap [getMinNode()] returns a handle
    whose item is what [getMin()] returns and what [deleteMin()] returns;
    [deleteMin()] is [delete] of that handle: it takes exactly that node out
    of the heap, decrements [size], and leaves the item of every other
    object as it was. *)
Theorem min_accessors_agree (fuel : nat) (h : PairingHeap) (s : Store) :
  WellFormed h s → isEmpty h = false → _size h ≤ Z.of_nat fuel →
  ∃ r v h' s',
    getMinNode h = Some r
    ∧ s !! r = Some v
    ∧ getMin h s = Ok (item v, s)
    ∧ deleteMin fuel h s = Ok ((item v, h'), s')
    ∧ delete fuel r h s = Ok (h', s')
    ∧ size h' = size h - 1
    ∧ (∀ k, live h' s' k ↔ live h s k ∧ k ≠ r)
    ∧ same_items_off (Some r) s s'.
Proof.
  intros (t & HS) Hne Hfuel.
  pose proof HS as (Hroot & Hsingle & HR & Hnd & Hsize & _).
  destruct t as [|r x c nx].
  { unfold isEmpty in Hne. rewrite Hroot in Hne. done. }
  simpl in Hsingle. subst nx.
  pose proof HR as (Hr & _).
  destruct (deleteMin_Struct fuel h s _ HS) as (h' & s' & Hrun & HS' & _);
    [by eapply Struct_fuel|].
  simpl in Hrun, HS'.
  exists r, (mkNode x (root_of c) None None), h', s'.
  assert (delete fuel r h s = Ok (h', s')) as Hdel.
  { unfold deleteMin in Hrun. rewrite Hroot in Hrun. simpl in Hrun.
    apply bind_inv in Hrun as (? & ? & Hget & Hrun).
    rewrite (get_item_Ok r s _ Hr) in Hget. injection Hget as <- <-.
    apply bind_inv in Hrun as (? & ? & Hd & Hret). by injection Hret as <- <-. }
  split_and!.
  - done.
  - done.
  - by rewrite (getMin_Struct h s _ HS).
  - done.
  - done.
  - unfold size. destruct HS' as (_ & _ & _ & _ & Hsize' & _).
    rewrite Hsize', Hsize, collapse_t_refs. simpl. rewrite length_app. simpl. lia.
  - intros k. rewrite (live_iff h' s' _ k HS'), (live_iff h s _ k HS), collapse_t_refs.
    simpl in *. rewrite app_nil_r in *. apply NoDup_cons in Hnd as [Hn _].
    split; [intros Hk; split; [sets|intros ->; done]|intros [Hk Hne']; sets].
  - by apply (delete_keeps fuel r h s h' s').
Qed.

(** X5: [add(x)] on a well-formed heap returns a handle that was not in the
    heap and now is, holding [x]; every node that was in the heap still is,
    no other node has come in, and the item of every other object is as it
    was. The new node becomes the root exactly when the heap was empty or
    [x] compares strictly less than the root's item; on a tie the root
    stays. *)
Theorem add_extends_heap (x : TItem) (h : PairingHeap) (s : Store) :
  WellFormed h s →
  ∃ n h' s',
    add x h s = Ok ((n, h'), s')
    ∧ ¬ live h s n
    ∧ (∀ k, live h' s' k ↔ live h s k ∨ k = n)
    ∧ item <$> (s' !! n) = Some x
    ∧ same_items_off (Some n) s s'
    ∧ (_root h = None → getMinNode h' = Some n)
    ∧ (∀ r v, _root h = Some r → s !! r = Some v →
         getMinNode h' = Some (if lessThanFunc x (item v) then n else r)).
Proof.
  intros (t & HS).
  pose proof HS as (Hroot & Hsingle & HR & Hnd & Hsize & _).
  destruct (add_Struct x h s t HS) as (n & h' & s' & Hrun & Hn & HS' & _).
  exists n, h', s'. split_and!.
  - done.
  - by rewrite (live_iff h s t n HS).
  - intros k. rewrite (live_iff h' s' _ k HS'), (live_iff h s t k HS).
    rewrite merge_t_refs by done. simpl. sets.
  - by eapply add_item.
  - by eapply add_keeps.
  - intros Hr. destruct HS' as (Hroot' & _). unfold getMinNode. rewrite Hroot'.
    rewrite Hroot in Hr. by destruct t.
  - intros r v Hr Hv. destruct (Struct_root_item h s t r v HS Hr Hv) as (c & ->).
    destruct HS' as (Hroot' & _). unfold getMinNode. rewrite Hroot'. simpl.
    by destruct (lessThanFunc x (item v)).
Qed.

(** X6: [delete] of a live handle takes exactly that node out of the heap:
    it returns, [size] is one less, every other node of the heap is still in
    it, and the item of every other object is as it was. *)
Theorem delete_removes_exactly (fuel : nat) (n : ref) (h : PairingHeap) (s : Store) :
  WellFormed h s → live h s n → _size h ≤ Z.of_nat fuel →
  ∃ h' s',
    delete fuel n h s = Ok (h', s')
    ∧ size h' = size h - 1
    ∧ (∀ k, live h' s' k ↔ live h s k ∧ k ≠ n)
    ∧ same_items_off (Some n) s s'.
Proof.
  intros (t & HS) Hlive Hfuel.
  pose proof HS as (Hroot & Hsingle & HR & Hnd & Hsize & _).
  apply (live_iff h s t n HS) in Hlive.
  destruct (delete_Struct fuel n h s t HS Hlive) as (h' & s' & Hrun & HS' & Hperm & _);
    [by eapply Struct_fuel|].
  exists h', s'. split_and!.
  - done.
  - unfold size. destruct HS' as (_ & _ & _ & _ & Hsize' & _).
    rewrite Hsize', Hsize, (Permutation_length Hperm). simpl. lia.
  - intros k. rewrite (live_iff h' s' _ k HS'), (live_iff h s t k HS).
    rewrite Hperm in Hnd. apply NoDup_cons in Hnd as [Hnot _].
    rewrite Hperm. split; [intros Hk; split; [sets|intros ->; done]|intros [Hk Hne]; sets].
  - by apply (delete_keeps fuel n h s h' s').
Qed.

(** X7: [decreaseKey] of a live handle returns; the heap holds the same
    nodes with the same items and [size] is as it was. A node other than the
    root becomes the root exactly when its item compares strictly less than
    the root's item. *)
Theorem decreaseKey_keeps_content (n : ref) (h : PairingHeap) (s : Store) :
  WellFormed h s → live h s n →
  ∃ h' s',
    decreaseKey n h s = Ok (h', s')
    ∧ size h' = size h
    ∧ (∀ k, live h' s' k ↔ live h s k)
    ∧ same_items s s'
    ∧ (∀ r vr vn, _root h = Some r → r ≠ n → s !! r = Some vr → s !! n = Some vn →
         getMinNode h' = Some (if lessThanFunc (item vn) (item vr) then n else r)).
Proof.
  intros (t & HS) Hlive.
  pose proof HS as (Hroot & Hsingle & HR & Hnd & Hsize & _).
  apply (live_iff h s t n HS) in Hlive.
  destruct (decreaseKey_Struct n h s t HS Hlive) as (h' & s' & Hrun & HS' & _).
  pose proof (decreaseKey_t_refs n t Hsingle Hnd Hlive) as Hperm.
  exists h', s'. split_and!.
  - done.
  - unfold size. destruct HS' as (_ & _ & _ & _ & Hsize' & _).
    by rewrite Hsize', Hsize, (Permutation_length Hperm).
  - intros k. by rewrite (live_iff h' s' _ k HS'), (live_iff h s t k HS), Hperm.
  - by apply (decreaseKey_keeps None n h s h' s').
  - intros r vr vn Hr Hrn Hvr Hvn.
    destruct (Struct_root_item h s t r vr HS Hr Hvr) as (c & ->).
    destruct (sub_Rep n _ None s HR Hlive) as (xn & cn & nn & pn & Hsub & Hn & _).
    rewrite Hn in Hvn. injection Hvn as <-. simpl.
    destruct HS' as (Hroot' & _). unfold getMinNode. rewrite Hroot'.
    unfold decreaseKey_t. rewrite decide_False by (simpl; congruence).
    rewrite Hsub. simpl. rewrite decide_False by done. simpl.
    by destruct (lessThanFunc xn (item vr)).
Qed.

(** X8: Deleting distinct live handles one after the other, in any order:
    every [delete] returns, [size] goes down by the number of handles,
    exactly the other nodes stay in the heap, and the heap is well-formed;
    when the handles are all the nodes of the heap, it ends empty. *)
Theorem delete_all_in_any_order (fuel : nat) (ns : list ref) (h : PairingHeap) (s : Store) :
  WellFormed h s → NoDup ns → (∀ n, n ∈ ns → live h s n) → _size h ≤ Z.of_nat fuel →
  ∃ h' s',
    delete_all fuel ns h s = Ok (h', s')
    ∧ WellFormed h' s'
    ∧ size h' = size h - Z.of_nat (length ns)
    ∧ (∀ k, live h' s' k ↔ live h s k ∧ k ∉ ns)
    ∧ ((∀ n, live h s n → n ∈ ns) → isEmpty h' = true ∧ size h' = 0).
Proof.
  intros (t & HS) Hnd Hin Hfuel.
  pose proof HS as (Hroot & Hsingle & HR & Hndt & Hsize & _).
  destruct (delete_all_Struct fuel ns h s t HS Hnd) as (h' & s' & t' & Hrun & HS' & Hperm).
  { intros n Hn. apply (live_iff h s t n HS). by apply Hin. }
  { by eapply Struct_fuel. }
  assert (size h' = size h - Z.of_nat (length ns)) as Hsz.
  { unfold size. destruct HS' as (_ & _ & _ & _ & Hsize' & _).
    rewrite Hsize', Hsize, (Permutation_length Hperm), length_app. lia. }
  assert (∀ k, live h' s' k ↔ live h s k ∧ k ∉ ns) as Hlive.
  { intros k. rewrite (live_iff h' s' t' k HS'), (live_iff h s t k HS), Hperm.
    rewrite Hperm in Hndt. apply NoDup_app in Hndt as (_ & Hdisj & _).
    split; [intros Hk; split; [sets|intros Hk'; by apply (Hdisj k)]|sets]. }
  exists h', s'. split_and!; [done|by exists t'|done|done|].
  intros Hall.
  assert (isEmpty h' = true) as He.
  { unfold isEmpty. rewrite bool_decide_eq_true.
    destruct (_root h') as [r|] eqn:Er; [|done]. exfalso.
    assert (live h' s' r) as Hr by (unfold live; rewrite Er; constructor).
    apply Hlive in Hr as [Hr Hno]. apply Hno. by apply Hall. }
  split; [done|]. by apply (Struct_isEmpty h' s' t' HS').
Qed.

(** X9: An iteration of a well-formed heap visits every node of the heap
    exactly once: [nodes()] yields the handles, and the default iteration
    yields, position by position, the items that these handles hold. *)
Theorem iteration_visits_every_node (fuel : nat) (h : PairingHeap) (s : Store) :
  WellFormed h s → _size h < Z.of_nat fuel →
  ∃ es : list (ref * TItem),
    NoDup (map fst es)
    ∧ (∀ k, k ∈ map fst es ↔ live h s k)
    ∧ Forall (λ e, item <$> (s !! e.1) = Some e.2) es
    ∧ (∃ s', iter_collect fuel true (_iterate h) s = Ok (map YNode (map fst es), s'))
    ∧ (∃ s', iter_collect fuel false (_iterate h) s = Ok (map YItem (map snd es), s')).
Proof.
  intros (t & HS) Hfuel.
  pose proof HS as (_ & _ & _ & Hnd & Hsize & _).
  assert (length (refs t) < fuel)%nat as Hf by lia.
  destruct (iterate_nodes_Struct fuel true h s t HS Hf)
    as (s1 & t1 & Hrun1 & _ & _ & _ & _ & Hfst & Hit & _).
  destruct (iterate_nodes_Struct fuel false h s t HS Hf) as (s2 & t2 & Hrun2 & _).
  exists (extract_nodes (length (refs t)) t). split_and!.
  - by rewrite Hfst.
  - intros k. by rewrite Hfst, (live_iff h s t k HS).
  - done.
  - exists s1. rewrite Hrun1. by rewrite map_map.
  - exists s2. rewrite Hrun2. by rewrite map_map.
Qed.

(** X10: A complete iteration, in either mode, leaves the nodes of the heap
    linked as one chain: no node of the heap has a sibling. It moves no node
    in or out of the heap and changes no item, and an iteration that follows
    it yields the same sequence and changes nothing in the store. *)
Theorem iteration_flattens (fuel : nat) (nodes : bool) (h : PairingHeap) (s : Store) :
  WellFormed h s → _size h < Z.of_nat fuel →
  ∃ ys s',
    iter_collect fuel nodes (_iterate h) s = Ok (ys, s')
    ∧ (∀ k, live h s' k ↔ live h s k)
    ∧ same_items s s'
    ∧ (∀ k v, live h s' k → s' !! k = Some v → next v = None)
    ∧ iter_collect fuel nodes (_iterate h) s' = Ok (ys, s').
Proof.
  intros (t & HS) Hfuel.
  pose proof HS as (_ & _ & _ & Hnd & Hsize & _).
  assert (length (refs t) < fuel)%nat as Hf by lia.
  destruct (iterate_nodes_Struct fuel nodes h s t HS Hf)
    as (s' & t' & Hrun & HS' & Hchain & Hperm & Hex & _).
  eexists _, s'. split_and!.
  - exact Hrun.
  - intros k. by rewrite (live_iff h s' t' k HS'), (live_iff h s t k HS), Hperm.
  - by eapply (iter_collect_keeps None fuel nodes).
  - intros k v Hk Hv. apply (live_iff h s' t' k HS') in Hk.
    destruct HS' as (_ & Hsingle' & HR' & _).
    by apply (chain_next s' t' None k v).
  - rewrite (iterate_chain fuel nodes h s' t' HS' Hchain).
    + by rewrite Hex.
    + by rewrite (Permutation_length Hperm).
Qed.

(** X11: Under a comparator that is a strict weak ordering the invariants of
    the heap survive iteration: each single [next()] of an iterator
    suspended at a node of the heap returns and leaves heap order, the root
    minimum and the size count in place, with the same nodes in the heap and
    every item as it was; so does a complete iteration in either mode. *)
Theorem iteration_keeps_invariants (h : PairingHeap) (s : Store) :
  StrictWeakOrder → Inv h s →
  (∀ fuel nodes n, _size h ≤ Z.of_nat fuel → live h s n →
     ∃ y it' s',
       iter_next fuel nodes (IterAt n) s = Ok ((y, it'), s')
       ∧ invariants_hold h s'
       ∧ (∀ k, live h s' k ↔ live h s k)
       ∧ same_items s s')
  ∧ (∀ fuel nodes, _size h < Z.of_nat fuel →
     ∃ ys s',
       iter_collect fuel nodes (_iterate h) s = Ok (ys, s')
       ∧ invariants_hold h s').
Proof.
  intros Hswo (t & HS & Ho).
  pose proof HS as (_ & _ & _ & Hnd & Hsize & _).
  split.
  - intros fuel nodes n Hfuel Hlive. apply (live_iff h s t n HS) in Hlive.
    destruct (iter_next_ordered fuel nodes h s t n HS Hlive)
      as (y & it' & s' & t' & Hrun & HS' & Hperm & Ho'); [lia|].
    exists y, it', s'. split_and!.
    + done.
    + apply Inv_invariants; [done|]. exists t'. split; [done|by apply Ho'].
    + intros k. by rewrite (live_iff h s' t' k HS'), (live_iff h s t k HS), Hperm.
    + by apply (iter_next_keeps None fuel nodes (IterAt n) s (y, it') s').
  - intros fuel nodes Hfuel.
    destruct (iterate_nodes_Struct fuel nodes h s t HS)
      as (s' & t' & Hrun & HS' & _ & _ & _ & _ & _ & Ho'); [lia|].
    eexists _, s'. split; [exact Hrun|].
    apply Inv_invariants; [done|]. exists t'. split; [done|by apply Ho'].
Qed.

(** X12: [add] of a list of items returns as many distinct new handles, each
    holding its item; and [delete] of these handles, in any order, brings
    the heap back to the nodes and the [size] it had before. *)
Theorem add_all_then_delete_all (xs : list TItem) (fuel : nat)
    (h : PairingHeap) (s : Store) :
  WellFormed h s → _size h + Z.of_nat (length xs) ≤ Z.of_nat fuel →
  ∃ ns h1 s1,
    add_all xs h s = Ok ((ns, h1), s1)
    ∧ NoDup ns
    ∧ (∀ n, n ∈ ns → ¬ live h s n)
    ∧ (∀ k, live h1 s1 k ↔ live h s k ∨ k ∈ ns)
    ∧ Forall2 (λ n x, item <$> (s1 !! n) = Some x) ns xs
    ∧ size h1 = size h + Z.of_nat (length xs)
    ∧ ∀ ns', ns' ≡ₚ ns →
        ∃ h2 s2,
          delete_all fuel ns' h1 s1 = Ok (h2, s2)
          ∧ WellFormed h2 s2
          ∧ size h2 = size h
          ∧ (∀ k, live h2 s2 k ↔ live h s k).
Proof.
  intros (t & HS) Hfuel.
  pose proof HS as (_ & _ & _ & Hnd & Hsize & _).
  destruct (add_all_handles xs h s t HS)
    as (ns & h1 & s1 & t1 & Hrun & HS1 & Hperm & Hit & _).
  pose proof HS1 as (_ & _ & _ & Hnd1 & Hsize1 & _).
  pose proof Hnd1 as Hnd1'. rewrite Hperm in Hnd1'.
  apply NoDup_app in Hnd1' as (_ & Hdisj & Hndns).
  pose proof (Forall2_length _ _ _ Hit) as Hlen.
  exists ns, h1, s1. split_and!.
  - done.
  - done.
  - intros n Hn Hlive. apply (live_iff h s t n HS) in Hlive. by apply (Hdisj n).
  - intros k. rewrite (live_iff h1 s1 t1 k HS1), (live_iff h s t k HS), Hperm. sets.
  - done.
  - unfold size. rewrite Hsize1, Hsize, (Permutation_length Hperm), length_app. lia.
  - intros ns' Hp.
    destruct (delete_all_Struct fuel ns' h1 s1 t1 HS1)
      as (h2 & s2 & t2 & Hrun2 & HS2 & Hperm2).
    { by rewrite Hp. }
    { intros n Hn. rewrite Hperm. rewrite Hp in Hn. sets. }
    { rewrite (Permutation_length Hperm), length_app. lia. }
    assert (refs t2 ≡ₚ refs t) as Hback.
    { apply (Permutation_app_inv_l ns). rewrite <- Hp at 1. rewrite <- Hperm2, Hperm.
      apply Permutation_app_comm. }
    exists h2, s2. split_and!.
    + done.
    + by exists t2.
    + unfold size. destruct HS2 as (_ & _ & _ & _ & Hsize2 & _).
      by rewrite Hsize2, Hsize, (Permutation_length Hback).
    + intros k. by rewrite (live_iff h2 s2 t2 k HS2), (live_iff h s t k HS), Hback.
Qed.

(** X13: With a pool that hands out again the node released last, [delete]
    of a live handle followed by [add(x)] returns the very same reference:
    the node is in the heap again and holds [x], so a handle kept from
    before the [delete] now refers to the new entry. *)
Theorem pool_recycles_handle (fuel : nat) (n : ref) (x : TItem) (p : P)
    (h : PairingHeap) (s : Store) :
  WellFormed h s → live h s n → _size h ≤ Z.of_nat fuel →
  _objectPool h = Some p → (get (release n p)).1 = Some n →
  ∃ h1 s1 h2 s2,
    delete fuel n h s = Ok (h1, s1)
    ∧ ¬ live h1 s1 n
    ∧ add x h1 s1 = Ok ((n, h2), s2)
    ∧ live h2 s2 n
    ∧ item <$> (s2 !! n) = Some x
    ∧ size h2 = size h
    ∧ WellFormed h2 s2.
Proof.
  intros (t & HS) Hlive Hfuel Hp Hget.
  pose proof HS as (_ & _ & _ & Hnd & Hsize & _).
  apply (live_iff h s t n HS) in Hlive.
  destruct (delete_Struct fuel n h s t HS Hlive)
    as (h1 & s1 & Hrun1 & HS1 & Hperm & _ & _ & Hpool1); [by eapply Struct_fuel|].
  rewrite Hp in Hpool1. simpl in Hpool1.
  destruct (add_Struct x h1 s1 _ HS1) as (n' & h2 & s2 & Hrun2 & Hn' & HS2 & _).
  assert (n' = n) as ->.
  { pose proof Hrun2 as Hrun. unfold add in Hrun. rewrite Hpool1 in Hrun.
    destruct (get (release n p)) as [g p']. simpl in Hget. subst g.
    apply bind_inv in Hrun as (node & s0 & Hnode & Hrun).
    apply bind_inv in Hnode as ([] & s0' & _ & Hret). injection Hret as <- <-.
    apply bind_inv in Hrun as (root & s3 & _ & Hret). by injection Hret as <- <- <-. }
  pose proof HS1 as (_ & Hsingle1 & _ & _ & Hsize1 & _).
  exists h1, s1, h2, s2. split_and!.
  - done.
  - by rewrite (live_iff h1 s1 _ n HS1).
  - done.
  - rewrite (live_iff h2 s2 _ n HS2), merge_t_refs by done. simpl. sets.
  - by eapply add_item.
  - unfold size. destruct HS2 as (_ & _ & _ & _ & Hsize2 & _).
    rewrite Hsize2, merge_t_refs, length_app, Hsize, (Permutation_length Hperm) by done.
    simpl. lia.
  - by eexists.
Qed.

(** X14: Under a comparator that is a strict weak ordering, [k] calls of
    [deleteMin()] return: the first [min k size] results are nodes' items in
    non-decreasing order, no item that stays in the heap compares strictly
    less than one of them, and the invariants hold afterwards; every call
    beyond the [size] of the heap returns [undefined]. *)
Theorem drain_smallest_first (fuel k : nat) (h : PairingHeap) (s : Store) :
  StrictWeakOrder → Inv h s → _size h ≤ Z.of_nat fuel →
  ∃ firsts h' s',
    drain fuel k h s
      = Ok ((firsts ++ replicate (k - Z.to_nat (size h)) undefined, h'), s')
    ∧ length firsts = (k `min` Z.to_nat (size h))%nat
    ∧ StronglySorted (λ x y, lessThanFunc y x = false) firsts
    ∧ size h' = size h - Z.of_nat (length firsts)
    ∧ invariants_hold h' s'
    ∧ (∀ y n v, y ∈ firsts → live h' s' n → s' !! n = Some v →
         lessThanFunc (item v) y = false).
Proof.
  intros Hswo (t & HS & Ho) Hfuel.
  pose proof HS as (_ & Hsingle & _ & _ & Hsize & _).
  destruct (drain_rest fuel k h s t HS) as (h' & s' & Hrun & HS'); [lia|].
  assert (Z.to_nat (size h) = length (refs t)) as Hn by (unfold size; lia).
  exists (extract k t), h', s'. rewrite Hn. split_and!.
  - done.
  - by apply extract_length.
  - by apply extract_sorted.
  - unfold size at 1. destruct HS' as (_ & _ & _ & _ & Hsize' & _).
    rewrite Hsize', rest_refs_length, extract_length by done. unfold size. lia.
  - apply Inv_invariants; [done|]. exists (rest k t). split; [done|by apply rest_ho].
  - intros y n v Hy Hlive Hv. apply (live_iff h' s' _ n HS') in Hlive.
    destruct HS' as (_ & _ & HR' & _).
    destruct (Rep_item s' _ None n HR' Hlive) as (v' & Hv' & Hitem).
    rewrite Hv in Hv'. injection Hv' as <-.
    by apply (extract_below_rest Hswo k t y (item v)).
Qed.

(** X15: [clear()] leaves the links of the nodes it drops, so [delete] does
    not recognise such a node as removed: after [clear()], [delete] of a
    handle to a node that was in the heap below the root returns, with or
    without a pool, leaves [size] at -1, and the heap is empty exactly when
    that node had no child. *)
Theorem stale_handle_after_clear (fuel : nat) (n : ref) (h : PairingHeap) (s : Store) :
  WellFormed h s → live h s n → _root h ≠ Some n → _size h ≤ Z.of_nat fuel →
  ∃ v h' s',
    s !! n = Some v
    ∧ delete fuel n (clear h) s = Ok (h', s')
    ∧ size h' = -1
    ∧ (isEmpty h' = true ↔ child v = None)
    ∧ ¬ WellFormed h' s'.
Proof.
  intros (t & HS) Hlive Hr Hfuel.
  pose proof HS as (Hroot & Hsingle & HR & Hnd & Hsize & Hpool).
  apply (live_iff h s t n HS) in Hlive.
  pose proof (Struct_fuel h s t fuel HS Hfuel) as Hf.
  rewrite Hroot in Hr.
  destruct (unlink_Rep n t None s HR Hnd Hlive Hr)
    as (vn & rp & s1 & Hn & Hprev & Hrun1 & HR1 & Hfr1).
  destruct (sub_Rep n t None s HR Hlive) as (xn & cn & nn & pn & Hsub & Hn' & HRcn).
  pose proof (cut_sub_refs n t Hnd Hlive) as Hperm.
  rewrite Hsub in Hperm. cbn [refs] in Hperm. rewrite app_nil_r in Hperm.
  assert (NoDup (refs (cut n t) ++ n :: refs cn)) as Hnd2 by (by rewrite <- Hperm).
  apply NoDup_app in Hnd2 as (Hndcut & Hdisj & Hnd3).
  apply NoDup_cons in Hnd3 as [Hncn Hndcn].
  assert (s1 !! n = s !! n) as Hn1.
  { apply Hfr1. intros Hk. apply (Hdisj n Hk). sets. }
  rewrite Hn in Hn'. injection Hn' as ->. rewrite Hn in Hn1.
  simpl in Hprev. subst pn.
  destruct (collapse_Rep fuel cn s1 (Some n)) as (s2 & Hrun2 & HR2 & Hfr2).
  { apply Permutation_length in Hperm. rewrite Hperm in Hf.
    rewrite length_app in Hf. simpl in Hf. lia. }
  { eapply Rep_frame; [|exact HRcn]. intros k Hk. apply Hfr1.
    intros Hk'. apply (Hdisj k Hk'). sets. }
  { done. }
  assert (is_Some (s2 !! n)) as [vn2 Hn2].
  { rewrite Hfr2 by done. rewrite Hn1. eauto. }
  eexists _, _, _. split; [exact Hn|].
  assert (delete fuel n (clear h) s
          = Ok (mkHeap (option_map (release n) (_objectPool h)) (0 - 1)
                  (root_of (collapse_t cn)),
                <[n := mkNode undefined None None None]> s2)) as Hrun.
  { unfold delete. cbn [_root clear _objectPool _size].
    rewrite decide_False by done.
    run get_prev_Ok.
    rewrite unlink_inline. erewrite bind_Ok by exact Hrun1.
    run get_child_Ok. erewrite bind_Ok by exact Hrun2.
    erewrite bind_Ok by reflexivity.
    by erewrite delete_finish_Ok by exact Hn2. }
  split; [exact Hrun|]. split_and!.
  - reflexivity.
  - unfold isEmpty. cbn [_root child]. rewrite bool_decide_eq_true.
    destruct cn as [|b y cb nb]; [done|]. simpl. split; [|done].
    intros Hc. exfalso. by apply (collapse_t_nonLeaf (N b y cb nb)); [|destruct (collapse_t _)].
  - intros (t' & _ & _ & _ & _ & Hsize' & _). simpl in Hsize'. lia.
Qed.

(** X16: Under a comparator that is a strict weak ordering, [collapse] of a
    non-empty sibling list returns one of the siblings of the list itself,
    one whose item no sibling's item compares strictly less than, whatever
    the order among the siblings and below them; the returned node has
    neither a [prev] nor a [next] link. *)
Theorem collapse_returns_least_sibling (fuel : nat) (l : bt) (s : Store) (p : option ref) :
  StrictWeakOrder →
  Rep s p l → NoDup (refs l) → l ≠ Leaf → (length (refs l) ≤ fuel)%nat →
  ∃ r v s',
    collapse fuel (root_of l) s = Ok (Some r, s')
    ∧ r ∈ top_refs l
    ∧ s' !! r = Some v
    ∧ prev v = None ∧ next v = None
    ∧ Forall (λ y, lessThanFunc y (item v) = false) (top_items l).
Proof.
  intros Hswo HR Hnd Hl Hfuel.
  destruct (collapse_Rep fuel l s p Hfuel HR Hnd) as (s' & Hrun & HR' & _).
  pose proof (collapse_t_least Hswo l) as Hleast.
  pose proof (collapse_t_single l) as Hsingle.
  pose proof (collapse_t_nonLeaf l Hl) as Hne.
  destruct (collapse_t l) as [|r z c nx]; [done|].
  simpl in Hsingle. subst nx. destruct HR' as (Hr & _). destruct Hleast as [Hin Hall].
  exists r, (mkNode z (root_of c) None None), s'. split_and!; done.
Qed.

(** X17: [add] does not walk the heap: besides the node it returns, it
    changes at most the former root and the node that was the former root's
    first child. *)
Theorem add_is_local (x : TItem) (h : PairingHeap) (s : Store) :
  WellFormed h s →
  ∃ n h' s',
    add x h s = Ok ((n, h'), s')
    ∧ ∀ k, k ≠ n → _root h ≠ Some k →
        (∀ r v, _root h = Some r → s !! r = Some v → child v ≠ Some k) →
        s' !! k = s !! k.
Proof.
  intros (t & HS).
  pose proof HS as (Hroot & Hsingle & HR & Hnd & Hsize & Hpool).
  destruct (add_Struct x h s t HS) as (n & h' & s' & Hrun & Hn & HS' & _).
  exists n, h', s'. split; [done|]. intros k Hkn Hkr Hkc.
  (* the state between the two steps of [add] *)
  assert (∃ s1 vn root,
            s1 !! n = Some vn ∧ child vn = None
            ∧ (∀ k, k ≠ n → s1 !! k = s !! k)
            ∧ merge (_root h) (Some n) s1 = Ok (root, s'))
    as (s1 & vn & root & Hn1 & Hcn & Hfr1 & Hmerge).
  { pose proof Hrun as Hrun'. unfold add in Hrun'.
    destruct (_objectPool h) as [p|] eqn:Ep.
    - destruct Hpool as [Hwf Hp]. pose proof (pool_get_held p) as Hheld.
      destruct (get p) as [[g|] p']; cbn [fst snd] in *.
      + destruct (Hp g (Hheld g Hwf eq_refl)) as (_ & v & Hv & Hc & _).
        apply bind_inv in Hrun' as (node & s1 & Hnode & Hrun').
        apply bind_inv in Hnode as ([] & s0 & Hset & Hret). injection Hret as <- <-.
        rewrite (set_item_Ok g x s v Hv) in Hset. injection Hset as <-.
        apply bind_inv in Hrun' as (root & s2 & Hmerge & Hret).
        injection Hret as <- <- <-.
        exists (<[g := with_item x v]> s), (with_item x v), root.
        split_and!; [apply lookup_insert_eq|exact Hc| |exact Hmerge].
        intros k' Hk'. by rewrite lookup_insert_ne.
      + apply bind_inv in Hrun' as (node & s1 & Hnode & Hrun').
        unfold alloc in Hnode. injection Hnode as <- <-.
        apply bind_inv in Hrun' as (root & s2 & Hmerge & Hret).
        injection Hret as <- <- <-.
        exists (<[fresh (dom s) := mkNode x None None None]> s),
        (mkNode x None None None), root.
        split_and!; [apply lookup_insert_eq|done| |exact Hmerge].
        intros k' Hk'. by rewrite lookup_insert_ne.
    - apply bind_inv in Hrun' as (node & s1 & Hnode & Hrun').
      unfold alloc in Hnode. injection Hnode as <- <-.
      apply bind_inv in Hrun' as (root & s2 & Hmerge & Hret).
      injection Hret as <- <- <-.
      exists (<[fresh (dom s) := mkNode x None None None]> s),
        (mkNode x None None None), root.
      split_and!; [apply lookup_insert_eq|done| |exact Hmerge].
      intros k' Hk'. by rewrite lookup_insert_ne. }
  rewrite <- (Hfr1 k Hkn).
  destruct t as [|r y c nx].
  - rewrite Hroot in Hmerge. simpl in Hmerge. by injection Hmerge as <- <-.
  - simpl in Hsingle. subst nx. destruct HR as (Hr & HRc & _).
    assert (r ≠ n) as Hrn by (intros ->; apply Hn; simpl; sets).
    rewrite Hroot in Hmerge, Hkr, Hkc. cbn [root_of] in *.
    destruct (merge_new_frame r n (mkNode y (root_of c) None None) vn s1)
      as (root' & s'' & Hmerge' & Hfr); [done|by rewrite Hfr1|done|done| |].
    { cbn [child]. destruct (root_of c) as [rc|] eqn:Hrc; [|done]. simpl.
      apply root_of_refs in Hrc.
      destruct (Rep_lookup s (Some r) c rc HRc Hrc) as [w Hw].
      assert (rc ≠ n) as Hne by (intros ->; apply Hn; simpl; sets).
      rewrite Hfr1 by done. eauto. }
    rewrite Hmerge' in Hmerge. injection Hmerge as _ <-.
    apply Hfr; [done|congruence|]. cbn [child]. by apply (Hkc r _ eq_refl Hr).
Qed.

(** X18: Whatever the comparator returns, no item is lost and none is made
    up: after [add] of a list of items to an empty heap, as many
    [deleteMin()] calls return exactly the added items, each as often as it
    was added, and leave the heap empty with [size] 0. *)
Theorem items_never_lost (xs : list TItem) (fuel : nat) (h0 : PairingHeap) (s0 : Store) :
  WellFormed h0 s0 → _root h0 = None → (length xs < fuel)%nat →
  ∃ ns h s out h' s',
    add_all xs h0 s0 = Ok ((ns, h), s)
    ∧ size h = Z.of_nat (length xs)
    ∧ drain fuel (length xs) h s = Ok ((out, h'), s')
    ∧ out ≡ₚ xs
    ∧ isEmpty h' = true
    ∧ size h' = 0.
Proof.
  intros (t0 & HS0) Hroot0 Hfuel.
  assert (t0 = Leaf) as ->.
  { destruct HS0 as (Hr & _). rewrite Hroot0 in Hr. by destruct t0. }
  destruct (add_all_Struct xs h0 s0 Leaf HS0) as (ns & h & s & t & Hrun & HS & Hitems & _).
  simpl in Hitems.
  assert (length (refs t) = length xs) as Hlen.
  { rewrite refs_items_length. by apply Permutation_length. }
  destruct (drain_Struct fuel (length xs) h s t HS) as (h' & s' & t' & Hrun' & HS' & Hlen' & _);
    [lia|lia|].
  pose proof HS as (_ & Hsingle & _ & _ & Hsize & _).
  assert (isEmpty h' = true) as He.
  { assert (t' = Leaf) as ->.
    { destruct t'; [done|]. simpl in Hlen'. lia. }
    destruct HS' as (Hr' & _). unfold isEmpty. rewrite Hr'. done. }
  exists ns, h, s, (extract (length xs) t), h', s'. split_and!.
  - done.
  - unfold size. lia.
  - done.
  - rewrite extract_perm; done.
  - done.
  - by apply (Struct_isEmpty h' s' t' HS').
Qed.

(** X19: On every heap that satisfies the invariants, however it was
    reached, and under a comparator that is a strict weak ordering, the
    default iteration yields a non-decreasing sequence that holds the item
    of every node of the heap exactly once, and [size] calls of
    [deleteMin()] in its place return the same sequence and leave the heap
    empty. *)
Theorem sorted_from_any_heap (fuel : nat) (h : PairingHeap) (s : Store) :
  StrictWeakOrder → Inv h s → _size h < Z.of_nat fuel →
  ∃ es : list (ref * TItem),
    NoDup (map fst es)
    ∧ (∀ k, k ∈ map fst es ↔ live h s k)
    ∧ Forall (λ e, item <$> (s !! e.1) = Some e.2) es
    ∧ Z.of_nat (length es) = size h
    ∧ StronglySorted (λ x y, lessThanFunc y x = false) (map snd es)
    ∧ (∃ s', iter_collect fuel false (_iterate h) s = Ok (map YItem (map snd es), s'))
    ∧ (∃ h' s', drain fuel (length es) h s = Ok ((map snd es, h'), s')
                ∧ isEmpty h' = true).
Proof.
  intros Hswo (t & HS & Ho) Hfuel.
  pose proof HS as (_ & _ & _ & Hnd & Hsize & _).
  assert (length (refs t) < fuel)%nat as Hf by lia.
  destruct (iterate_nodes_Struct fuel false h s t HS Hf)
    as (s1 & t1 & Hrun1 & _ & _ & _ & _ & Hfst & Hit & _).
  set (es := extract_nodes (length (refs t)) t) in *.
  assert (length es = length (refs t)) as Hlen.
  { by rewrite <- (Permutation_length Hfst), length_map. }
  destruct (drain_Struct fuel (length (refs t)) h s t HS)
    as (h' & s' & t' & Hrun & HS' & Hlen' & _); [lia|lia|].
  exists es. split_and!.
  - by rewrite Hfst.
  - intros k. by rewrite Hfst, (live_iff h s t k HS).
  - done.
  - unfold size. lia.
  - subst es. rewrite extract_nodes_items. by apply extract_sorted.
  - exists s1. rewrite Hrun1. by rewrite map_map.
  - exists h', s'. rewrite Hlen. subst es. rewrite extract_nodes_items. split; [done|].
    assert (t' = Leaf) as ->.
    { destruct t'; [done|]. simpl in Hlen'. lia. }
    destruct HS' as (Hr' & _). unfold isEmpty. rewrite Hr'. done.
Qed.

End Heap.

(** * Comparators that are orderings on the items in use *)

(** The heap calls its comparator on items of its nodes only.  A comparator
    [lt1] that agrees with a strict weak ordering [lt2] on the items that
    satisfy [Q] therefore serves a heap whose items all satisfy [Q] as well
    as [lt2] does. *)
Section Agree.

Context {TItem : Type}.
Variable undefined : TItem.
Variables lt1 lt2 : TItem → TItem → bool.
Variable Q : TItem → Prop.
Hypothesis agree : ∀ x y, Q x → Q y → lt1 x y = lt2 x y.
Hypothesis swo2 : StrictWeakOrder lt2.
Context {P : Type} {pool : IObjectPool P} {laws : PoolLaws P}.

Lemma merge_t_agree (ta tb : bt) :
  Forall Q (items ta) → Forall Q (items tb) → merge_t lt1 ta tb = merge_t lt2 ta tb.
Proof using agree.
  destruct ta as [|a x ca na], tb as [|b y cb nb]; simpl; try done.
  intros Ha Hb. apply Forall_cons in Ha as [Hx _]. apply Forall_cons in Hb as [Hy _].
  by rewrite agree.
Qed.

Lemma merge_t_Q lt (ta tb : bt) :
  Forall Q (items ta) → Forall Q (items tb) → Forall Q (items (merge_t lt ta tb)).
Proof using Type.
  clear agree swo2 lt1 lt2 undefined.
  destruct ta as [|a x ca na], tb as [|b y cb nb]; simpl; try done.
  rewrite !Forall_forall. intros Ha Hb.
  destruct (lt y x); simpl; intros d Hd;
    repeat (rewrite elem_of_cons in Hd || rewrite elem_of_app in Hd);
    destruct_or!; subst;
    first [apply Ha; set_solver|apply Hb; set_solver|set_solver].
Qed.

Lemma pairs_agree (l : bt) :
  Forall Q (items l) →
  pairs lt1 l = pairs lt2 l ∧ Forall (λ t, Forall Q (items t)) (pairs lt2 l).
Proof using agree.
  clear swo2 undefined.
  induction l as [|a x ca|a x ca b y cb rest IH] using bt_pair_ind.
  - done.
  - intros H. split; [done|]. by constructor.
  - intros H. rewrite !pairs_cons2.
    assert (Forall Q (items (N a x ca Leaf)) ∧ Forall Q (items (N b y cb Leaf))
            ∧ Forall Q (items rest)) as (Ha & Hb & Hrest).
    { simpl in *. rewrite !Forall_forall in *.
      split_and!; intros d Hd; apply H; set_solver. }
    destruct (IH Hrest) as [-> Hall]. rewrite merge_t_agree by done.
    split; [done|]. constructor; [by apply merge_t_Q|done].
Qed.

Lemma fold_agree (done : list bt) : ∀ acc,
  Forall (λ t, Forall Q (items t)) done → Forall Q (items acc) →
  fold_left (merge_t lt1) done acc = fold_left (merge_t lt2) done acc.
Proof using agree.
  induction done as [|t done IH]; intros acc Hd Hacc; [done|].
  apply Forall_cons in Hd as [Ht Hd]. simpl.
  rewrite merge_t_agree by done. apply IH; [done|by apply merge_t_Q].
Qed.

Lemma collapse_t_agree (l : bt) :
  Forall Q (items l) → collapse_t lt1 l = collapse_t lt2 l.
Proof using agree.
  intros H. unfold collapse_t, fold_back.
  destruct (pairs_agree l H) as [-> Hall].
  apply fold_agree; [by apply Forall_rev|constructor].
Qed.

Lemma extract_agree k : ∀ t,
  Forall Q (items t) → extract lt1 k t = extract lt2 k t.
Proof using agree.
  clear swo2 undefined.
  induction k as [|k IH]; intros t H; [done|].
  destruct t as [|a x c n]; [done|]. cbn [extract]. f_equal.
  assert (Forall Q (items c)) as Hc.
  { simpl in H. rewrite !Forall_forall in *. intros d Hd. apply H. set_solver. }
  rewrite collapse_t_agree by done. apply IH.
  by rewrite collapse_t_items.
Qed.

Lemma add_all_agree xs : ∀ (h : PairingHeap) s t,
  Struct h s t → Forall Q (items t) → heap_ordered lt2 t → Forall Q xs →
  ∃ ns h' s' t',
    add_all lt1 xs h s = Ok ((ns, h'), s')
    ∧ Struct h' s' t'
    ∧ Forall Q (items t')
    ∧ heap_ordered lt2 t'
    ∧ items t' ≡ₚ items t ++ xs.
Proof using agree swo2.
  induction xs as [|x xs IH]; intros h s t HS HQ Ho Hxs.
  { exists [], h, s, t. simpl. rewrite app_nil_r. done. }
  apply Forall_cons in Hxs as [Hx Hxs].
  destruct (add_Struct lt1 x h s t HS) as (n & h1 & s1 & Hrun & Hn & HS1 & _).
  pose proof HS as (_ & Hsingle & _).
  assert (Forall Q (items (N n x Leaf Leaf))) as HQn by (simpl; by constructor).
  rewrite merge_t_agree in HS1 by done.
  destruct (IH h1 s1 _ HS1) as (ns & h' & s' & t' & Hrun' & HS' & HQ' & Ho' & Hitems).
  { by apply merge_t_Q. }
  { apply merge_t_ho; simpl; done. }
  { done. }
  exists (n :: ns), h', s', t'. split_and!; try done.
  - cbn [add_all]. erewrite bind_Ok by exact Hrun. cbn beta iota.
    erewrite bind_Ok by exact Hrun'. reflexivity.
  - rewrite Hitems, merge_t_items by done. simpl. rewrite <- app_assoc. done.
Qed.

Lemma StronglySorted_on (R R' : TItem → TItem → Prop) (l : list TItem) :
  (∀ x y, Q x → Q y → R x y → R' x y) →
  Forall Q l → StronglySorted R l → StronglySorted R' l.
Proof using Type.
  clear agree swo2. intros Himp HQ Hs.
  induction Hs as [|x l Hs IH Hall]; [constructor|].
  apply Forall_cons in HQ as [Hx HQ]. constructor; [by apply IH|].
  rewrite !Forall_forall in *. intros y Hy. apply Himp; auto.
Qed.

(** Sorted extraction under a comparator that agrees with an ordering. *)
Lemma sorted_under_agreement (xs : list TItem) (fuel : nat)
    (h0 : PairingHeap) (s0 : gmap ref (PairingNode TItem)) :
  Forall Q xs → WellFormed h0 s0 → _root h0 = None → (length xs < fuel)%nat →
  ∃ ns h s t h' s',
    add_all lt1 xs h0 s0 = Ok ((ns, h), s)
    ∧ Struct h s t
    ∧ length (refs t) = length xs
    ∧ drain undefined lt1 fuel (length xs) h s
      = Ok ((extract lt1 (length xs) t, h'), s')
    ∧ extract lt1 (length xs) t ≡ₚ xs
    ∧ StronglySorted (λ x y, lt1 y x = false) (extract lt1 (length xs) t)
    ∧ isEmpty h' = true.
Proof using agree swo2.
  intros HQ (t0 & HS0) Hroot0 Hfuel.
  assert (t0 = Leaf) as ->.
  { destruct HS0 as (Hr & _). rewrite Hroot0 in Hr. by destruct t0. }
  destruct (add_all_agree xs h0 s0 Leaf HS0)
    as (ns & h & s & t & Hrun & HS & HQt & Ho & Hitems);
    [by constructor|done|done|].
  simpl in Hitems.
  assert (length (refs t) = length xs) as Hlen.
  { rewrite refs_items_length. by apply Permutation_length. }
  destruct (drain_Struct undefined lt1 fuel (length xs) h s t HS)
    as (h' & s' & t' & Hrun' & HS' & Hlen' & _); [lia|lia|].
  pose proof HS as (_ & Hsingle & _).
  assert (extract lt1 (length xs) t ≡ₚ xs) as Hperm.
  { rewrite extract_perm; done. }
  exists ns, h, s, t, h', s'. split_and!; try done.
  - apply (StronglySorted_on (λ x y, lt2 y x = false)).
    + intros x y Hx Hy H. by rewrite agree.
    + by rewrite Hperm.
    + rewrite extract_agree by done. by apply extract_sorted.
  - assert (t' = Leaf) as ->.
    { destruct t'; [done|]. simpl in Hlen'. lia. }
    destruct HS' as (Hr' & _). unfold isEmpty. rewrite Hr'. done.
Qed.

(** X20: The heap needs its comparator to be an ordering only on the items
    that are added.  When the comparator agrees with a strict weak ordering
    on the items that satisfy [Q], and all added items satisfy [Q], then
    after [add] of the items, in any order, as many [deleteMin()] calls
    return them in non-decreasing order, each as often as it was added, and
    leave the heap empty; the default iteration, in place of the
    [deleteMin()] calls, yields the same sequence. *)
Theorem ordering_needed_on_items_only (xs : list TItem) (fuel : nat)
    (h0 : PairingHeap) (s0 : gmap ref (PairingNode TItem)) :
  Forall Q xs → WellFormed h0 s0 → _root h0 = None → (length xs < fuel)%nat →
  ∃ ns h s out h' s' s'',
    add_all lt1 xs h0 s0 = Ok ((ns, h), s)
    ∧ drain undefined lt1 fuel (length xs) h s = Ok ((out, h'), s')
    ∧ out ≡ₚ xs
    ∧ StronglySorted (λ x y, lt1 y x = false) out
    ∧ isEmpty h' = true
    ∧ iter_collect lt1 fuel false (_iterate h) s = Ok (map YItem out, s'').
Proof using agree swo2.
  intros HQ HW Hroot0 Hfuel.
  destruct (sorted_under_agreement xs fuel h0 s0 HQ HW Hroot0 Hfuel)
    as (ns & h & s & t & h' & s' & Hadd & HS & Hlen & Hdrain & Hperm & Hsorted & Hempty).
  destruct (iterate_Struct lt1 fuel h s t HS) as (s'' & t'' & Hiter & _); [lia|].
  exists ns, h, s, (extract lt1 (length xs) t), h', s', s''.
  split_and!; try done. by rewrite <- Hlen.
Qed.

End Agree.

(** * The claims on concrete heaps *)

Definition example_node (z : Z) (c n p : option ref) : PairingNode JsValue :=
  mkNode (JsNumber z) c n p.

(** A heap of two nodes, 3 above 5, without a pool and with an empty pool. *)
Definition example_store : gmap ref (PairingNode JsValue) :=
  {[ 1%positive := example_node 3 (Some 2%positive) None None;
     2%positive := example_node 5 None None (Some 1%positive) ]}.

Definition example_tree : bt :=
  N 1%positive (JsNumber 3) (N 2%positive (JsNumber 5) Leaf Leaf) Leaf.

Definition example_heap : PairingHeap (P := ObjectPool) :=
  mkHeap None 2 (Some 1%positive).

Definition example_pooled_heap : PairingHeap (P := ObjectPool) :=
  mkHeap (Some (mkPool [] 3)) 2 (Some 1%positive).

Lemma numbersFirst_swo : StrictWeakOrder numbersFirst.
Proof.
  split_and!.
  - intros [|a]; simpl; [done|]. apply Z.ltb_irrefl.
  - intros [|a] [|b] [|c]; simpl; try done.
    rewrite !Z.ltb_lt. lia.
  - intros [|a] [|b] [|c]; simpl; try done.
    rewrite !Z.ltb_ge. lia.
Qed.

Lemma example_Struct : Struct example_heap example_store example_tree.
Proof.
  split_and!; try done.
  simpl. repeat constructor; set_solver.
Qed.

Lemma example_pooled_Struct : Struct example_pooled_heap example_store example_tree.
Proof.
  split_and!; try done.
  - simpl. repeat constructor; set_solver.
  - split; [constructor|]. intros n Hn. simpl in Hn. set_solver.
Qed.

Lemma example_ordered : heap_ordered numbersFirst example_tree.
Proof. simpl. repeat constructor. Qed.

(** ** The default comparator and the comparator of the tests *)

Lemma numbersFirstDescending_ordering : StrictWeakOrder numbersFirstDescending.
Proof.
  split_and!.
  - intros [|a]; simpl; [done|]. apply Z.ltb_irrefl.
  - intros [|a] [|b] [|c]; simpl; try done.
    rewrite !Z.ltb_lt. lia.
  - intros [|a] [|b] [|c]; simpl; try done.
    rewrite !Z.ltb_ge. lia.
Qed.

Lemma StronglySorted_numbers (R : JsValue → JsValue → Prop) (R' : Z → Z → Prop) zs :
  (∀ a b, R (JsNumber a) (JsNumber b) → R' a b) →
  StronglySorted R (map JsNumber zs) → StronglySorted R' zs.
Proof.
  intros Himp. induction zs as [|z zs IH]; simpl; intros Hs; [constructor|].
  apply StronglySorted_inv in Hs as [Hs Hall]. constructor; [by apply IH|].
  rewrite Forall_forall in Hall. rewrite Forall_forall. intros b Hb.
  apply Himp, Hall. apply list_elem_of_In, in_map, list_elem_of_In, Hb.
Qed.

(** X21: A heap built without a comparator compares with [o1 < o2]: numbers
    added to it, in any order, come out of [deleteMin()] in ascending order.
    With the comparator that the tests build for their variant [sort] they
    come out ascending when [sort > 0] and descending otherwise. *)
Theorem numbers_come_out_in_order {P : Type} {pool : IObjectPool P} {laws : PoolLaws P}
    (sort : option Z) (zs : list Z) (fuel : nat)
    (h0 : PairingHeap) (s0 : gmap ref (PairingNode JsValue)) :
  WellFormed h0 s0 → _root h0 = None → (length zs < fuel)%nat →
  let lessThanFunc := _lessThanFunc (test_lessThanFunc sort) in
  let ascending := match sort with None => true | Some k => 0 <? k end in
  ∃ ns h s out h' s',
    add_all lessThanFunc (map JsNumber zs) h0 s0 = Ok ((ns, h), s)
    ∧ drain JsUndefined lessThanFunc fuel (length zs) h s
      = Ok ((map JsNumber out, h'), s')
    ∧ out ≡ₚ zs
    ∧ StronglySorted (if ascending then Z.le else Z.ge) out
    ∧ isEmpty h' = true.
Proof.
  intros HW Hroot Hfuel lessThanFunc ascending.
  set (lt2 := if ascending then numbersFirst else numbersFirstDescending).
  assert (∀ x y, is_number x → is_number y → lessThanFunc x y = lt2 x y) as Hagree.
  { intros x y [a ->] [b ->]. subst lessThanFunc lt2 ascending.
    destruct sort as [k|]; simpl; [|done]. by destruct (0 <? k). }
  assert (StrictWeakOrder lt2) as Hswo.
  { subst lt2. destruct ascending;
      [apply numbersFirst_swo|apply numbersFirstDescending_ordering]. }
  destruct (sorted_under_agreement JsUndefined lessThanFunc lt2 is_number
              Hagree Hswo (map JsNumber zs) fuel h0 s0)
    as (ns & h & s & t & h' & s' & Hadd & _ & _ & Hdrain & Hperm & Hsorted & Hempty).
  { apply Forall_forall. intros x Hx. apply list_elem_of_In, in_map_iff in Hx as (z & <- & _).
    by exists z. }
  { done. }
  { done. }
  { by rewrite length_map. }
  rewrite length_map in Hdrain, Hperm, Hsorted.
  apply Permutation_map_inv in Hperm as (out' & Hout & Hperm).
  rewrite Hout in Hdrain, Hsorted.
  exists ns, h, s, out', h', s'. split_and!; try done.
  apply (StronglySorted_numbers (λ x y, lessThanFunc y x = false)); [|done].
  intros a b. rewrite (Hagree (JsNumber b) (JsNumber a)) by (by eexists).
  subst lt2. destruct ascending; simpl; rewrite Z.ltb_ge; lia.
Qed.

(** ** The scenarios of the tests *)

(** The default comparator. *)
Example scenario_A :
  match add_all lessThanDefault [JsNumber 5; JsNumber 3; JsNumber 8; JsNumber 1]
          (new_heap (P := ObjectPool) None) ∅ with
  | Ok ((_, h), s) =>
    match drain JsUndefined lessThanDefault 5 4 h s with
    | Ok ((out, h'), _) => Some (out, size h')
    | _ => None
    end
  | _ => None
  end = Some ([JsNumber 1; JsNumber 3; JsNumber 5; JsNumber 8], 0).
Proof. vm_compute. reflexivity. Qed.

(** The descending comparator of the tests. *)
Example scenario_B :
  let greater (o1 o2 : JsValue) := lessThanDefault o2 o1 in
  match add_all greater [JsNumber 5; JsNumber 3; JsNumber 8; JsNumber 1]
          (new_heap (P := ObjectPool) None) ∅ with
  | Ok ((_, h), s) =>
    match drain JsUndefined greater 5 4 h s with
    | Ok ((out, _), _) => Some out
    | _ => None
    end
  | _ => None
  end = Some [JsNumber 8; JsNumber 5; JsNumber 3; JsNumber 1].
Proof. vm_compute. reflexivity. Qed.

(** A pool of capacity 2: three deletions, and the next [add] reuses the node
    released last that the pool still accepted. *)
Example scenario_C :
  match add_all lessThanDefault [JsNumber 1; JsNumber 2; JsNumber 3]
          (new_heap (Some (mkPool [] 2))) ∅ with
  | Ok ((_, h), s) =>
    match drain JsUndefined lessThanDefault 4 3 h s with
    | Ok ((_, h'), s') =>
      match add lessThanDefault (JsNumber 9) h' s' with
      | Ok ((n, h''), _) => Some (_objectPool h', n, _objectPool h'')
      | _ => None
      end
    | _ => None
    end
  | _ => None
  end = Some (Some (mkPool [2%positive; 1%positive] 2), 2%positive,
              Some (mkPool [1%positive] 2)).
Proof. vm_compute. reflexivity. Qed.

(** Decrease-key to a new minimum. *)
Example scenario_D :
  match add_all lessThanDefault [JsNumber 10; JsNumber 20; JsNumber 30]
          (new_heap (P := ObjectPool) None) ∅ with
  | Ok ((_, h), s) =>
    match set_item 3%positive (JsNumber 5) s with
    | Ok (_, s1) =>
      match decreaseKey lessThanDefault 3%positive h s1 with
      | Ok (h', s') =>
        match getMin JsUndefined h' s' with
        | Ok (m, _) => Some m
        | _ => None
        end
      | _ => None
      end
    | _ => None
    end
  | _ => None
  end = Some (JsNumber 5).
Proof. vm_compute. reflexivity. Qed.

(** The default iteration yields the items in ascending order and a second
    iteration yields them again. *)
Example scenario_iterator :
  match add_all lessThanDefault
          [JsNumber 7; JsNumber 4; JsNumber 1; JsNumber 28; JsNumber 25; JsNumber 22]
          (new_heap (P := ObjectPool) None) ∅ with
  | Ok ((_, h), s) =>
    match iter_collect lessThanDefault 7 false (_iterate h) s with
    | Ok (ys, s') =>
      match iter_collect lessThanDefault 7 false (_iterate h) s' with
      | Ok (ys', _) => Some (ys, ys', size h)
      | _ => None
      end
    | _ => None
    end
  | _ => None
  end
  = let sorted := map (λ z, YItem (JsNumber z)) [1; 4; 7; 22; 25; 28] in
    Some (sorted, sorted, 6).
Proof. vm_compute. reflexivity. Qed.

(** ** The claims at these heaps *)

Lemma sorted_extraction_witness :
  let xs := [JsNumber 5; JsNumber 3; JsNumber 8; JsNumber 1] in
  ∃ ns h s out h' s' s'',
    add_all numbersFirst xs (new_heap (P := ObjectPool) None) ∅ = Ok ((ns, h), s)
    ∧ drain JsUndefined numbersFirst 5 (length xs) h s = Ok ((out, h'), s')
    ∧ StronglySorted (λ x y, numbersFirst y x = false) out
    ∧ out ≡ₚ xs
    ∧ isEmpty h' = true
    ∧ iter_collect numbersFirst 5 false (_iterate h) s = Ok (map YItem out, s'')
    ∧ size h = Z.of_nat (length xs)
    ∧ size_counts h s''
    ∧ (∃ h3 s3, drain JsUndefined numbersFirst 5 (length xs) h s'' = Ok ((out, h3), s3)).
Proof.
  intros xs.
  apply (sorted_extraction JsUndefined numbersFirst xs 5 (new_heap None) ∅).
  - exact numbersFirst_swo.
  - exists Leaf. apply Struct_new. exact I.
  - reflexivity.
  - simpl. lia.
Defined.

Lemma heap_invariants_witness :
  Inv numbersFirst example_heap example_store
  ∧ heap_order numbersFirst example_heap example_store
  ∧ size_counts example_heap example_store
  ∧ ∃ h' s',
      delete JsUndefined numbersFirst 2 2%positive example_heap example_store = Ok (h', s')
      ∧ invariants_hold numbersFirst h' s'.
Proof.
  assert (Inv numbersFirst example_heap example_store) as HI.
  { exists example_tree. split; [exact example_Struct|exact example_ordered]. }
  destruct (heap_invariants JsUndefined numbersFirst example_heap example_store
              numbersFirst_swo HI) as ((Ho & _ & Hs) & _ & _ & Hdel & _).
  split_and!; [exact HI|exact Ho|exact Hs|].
  apply Hdel.
  - simpl. lia.
  - eapply reach_child; [reflexivity|]. constructor.
Defined.

Lemma merge_contract_witness :
  let s : gmap ref (PairingNode JsValue) :=
    {[ 1%positive := example_node 3 (Some 3%positive) None None;
       2%positive := example_node 5 None None None;
       3%positive := example_node 9 None None (Some 1%positive) ]} in
  ∃ s',
    merge lessThanDefault (Some 1%positive) (Some 2%positive) s = Ok (Some 1%positive, s')
    ∧ s' !! 1%positive = Some (example_node 3 (Some 2%positive) None None)
    ∧ s' !! 2%positive = Some (example_node 5 None (Some 3%positive) (Some 1%positive))
    ∧ s' !! 3%positive = Some (example_node 9 None None (Some 2%positive)).
Proof.
  intros s.
  destruct (merge_contract lessThanDefault) as (_ & _ & _ & H).
  destruct (H 1%positive 2%positive (example_node 3 (Some 3%positive) None None)
              (example_node 5 None None None) s) as (s' & H1 & H2 & H3 & H4 & _).
  - done.
  - reflexivity.
  - reflexivity.
  - simpl. eexists. reflexivity.
  - exists s'. simpl in *. split_and!; [done..|].
    apply (H4 3%positive (example_node 9 None None (Some 1%positive))); done.
Defined.

Lemma collapse_two_pass_witness :
  let l := N 1%positive (JsNumber 5) Leaf
             (N 2%positive (JsNumber 3) Leaf
                (N 3%positive (JsNumber 8) Leaf Leaf)) in
  let s : gmap ref (PairingNode JsValue) :=
    {[ 1%positive := example_node 5 None (Some 2%positive) None;
       2%positive := example_node 3 None (Some 3%positive) (Some 1%positive);
       3%positive := example_node 8 None None (Some 2%positive) ]} in
  ∃ s',
    collapse lessThanDefault 3 (Some 1%positive) s = Ok (Some 2%positive, s')
    ∧ s' !! 2%positive = Some (example_node 3 (Some 3%positive) None None)
    ∧ s' !! 3%positive = Some (example_node 8 None (Some 1%positive) (Some 2%positive))
    ∧ s' !! 1%positive = Some (example_node 5 None None (Some 3%positive)).
Proof.
  intros l s.
  destruct (collapse_two_pass lessThanDefault 3 l s None) as (_ & _ & s' & Hrun & HR & _).
  - simpl. done.
  - simpl. repeat constructor; set_solver.
  - simpl. lia.
  - exists s'. split; [exact Hrun|]. simpl in HR. tauto.
Defined.

Lemma decreaseKey_contract_witness :
  decreaseKey lessThanDefault 1%positive example_heap example_store
  = Ok (example_heap, example_store)
  ∧ ∃ h' s',
      decreaseKey lessThanDefault 2%positive example_heap example_store = Ok (h', s')
      ∧ Struct h' s' (merge_t lessThanDefault (cut 2%positive example_tree)
                                (sub 2%positive example_tree)).
Proof.
  destruct (decreaseKey_contract JsUndefined lessThanDefault 1%positive
              example_heap example_store) as (Hroot & _).
  destruct (decreaseKey_contract JsUndefined lessThanDefault 2%positive
              example_heap example_store) as (_ & _ & _ & Hlive).
  split.
  - apply Hroot. reflexivity.
  - apply Hlive.
    + exact example_Struct.
    + simpl. set_solver.
    + simpl. discriminate.
Defined.

(** The node 2 has been removed: [delete] returns silently where
    [decreaseKey] fails. *)
Lemma decreaseKey_absent_prev_differs :
  let s : gmap ref (PairingNode JsValue) :=
    {[ 1%positive := example_node 3 None None None;
       2%positive := mkNode JsUndefined None None None ]} in
  let h : PairingHeap (P := ObjectPool) := mkHeap None 1 (Some 1%positive) in
  delete JsUndefined lessThanDefault 2 2%positive h s = Ok (h, s)
  ∧ decreaseKey lessThanDefault 2%positive h s = Throw TypeError.
Proof. split; reflexivity. Qed.

Lemma delete_twice_witness :
  (∃ h1 s1,
     delete JsUndefined lessThanDefault 2 2%positive example_heap example_store
       = Ok (h1, s1)
     ∧ delete JsUndefined lessThanDefault 2 2%positive h1 s1 = Ok (h1, s1))
  ∧ (∃ h1 s1,
       delete JsUndefined lessThanDefault 2 2%positive example_pooled_heap example_store
         = Ok (h1, s1)
       ∧ delete JsUndefined lessThanDefault 2 2%positive h1 s1 = Throw AlreadyDeleted).
Proof.
  split.
  - destruct (delete_twice JsUndefined lessThanDefault 2 2%positive
                example_heap example_store) as (H & _).
    + exists example_tree. exact example_Struct.
    + eapply reach_child; [reflexivity|]. constructor.
    + simpl. lia.
    + exact H.
  - destruct (delete_twice JsUndefined lessThanDefault 2 2%positive
                example_pooled_heap example_store) as (H & _).
    + exists example_tree. exact example_pooled_Struct.
    + eapply reach_child; [reflexivity|]. constructor.
    + simpl. lia.
    + exact H.
Defined.

Lemma add_contract_witness :
  let s := <[3%positive := mkNode JsUndefined None None None]> example_store in
  let h : PairingHeap := mkHeap (Some (mkPool [3%positive] 3)) 2 (Some 1%positive) in
  (∃ v, s !! 3%positive = Some v ∧ cleared v)
  ∧ ∃ n h' s',
      add lessThanDefault (JsNumber 4) h s = Ok ((n, h'), s')
      ∧ size h' = size h + 1
      ∧ WellFormed h' s'.
Proof.
  intros s h.
  destruct (add_contract lessThanDefault (JsNumber 4) h s) as (_ & _ & _ & H).
  destruct H as [H1 H2].
  - exists example_tree. split_and!; try done.
    + simpl. repeat constructor; set_solver.
    + split; [repeat constructor; set_solver|].
      intros n Hn. simpl in Hn. apply list_elem_of_singleton in Hn as ->.
      split; [simpl; set_solver|]. eexists. split; [reflexivity|]. done.
  - split; [|exact H2]. apply (H1 3%positive). reflexivity.
Defined.

(** A pool that supplies a node whose [child] link is set: [add] stores the
    item and leaves the link. *)
Lemma add_keeps_pooled_links :
  let s : gmap ref (PairingNode JsValue) :=
    {[ 1%positive := mkNode JsUndefined (Some 2%positive) None None;
       2%positive := example_node 7 None None None ]} in
  let h : PairingHeap := new_heap (Some (mkPool [1%positive] 3)) in
  ∃ h' s',
    add lessThanDefault (JsNumber 4) h s = Ok ((1%positive, h'), s')
    ∧ s' !! 1%positive = Some (example_node 4 (Some 2%positive) None None).
Proof. eexists _, _. split; reflexivity. Qed.

Lemma add_delete_roundtrip_witness :
  ∃ n h1 s1 h2 s2 m,
    add lessThanDefault (JsNumber 1) example_heap example_store = Ok ((n, h1), s1)
    ∧ delete JsUndefined lessThanDefault 3 n h1 s1 = Ok (h2, s2)
    ∧ size h2 = size example_heap
    ∧ getMin JsUndefined example_heap example_store = Ok (m, example_store)
    ∧ getMin JsUndefined h2 s2 = Ok (m, s2).
Proof.
  apply (add_delete_roundtrip JsUndefined lessThanDefault (JsNumber 1) 3
           example_heap example_store).
  - exists example_tree. exact example_Struct.
  - simpl. lia.
Defined.

Lemma removed_nodes_cleared_witness :
  ∃ h' s',
    delete JsUndefined lessThanDefault 2 1%positive example_heap example_store = Ok (h', s')
    ∧ s' !! 1%positive = Some (mkNode JsUndefined None None None)
    ∧ ¬ live h' s' 1%positive.
Proof.
  destruct (removed_nodes_cleared JsUndefined lessThanDefault example_heap example_store)
    as (H & _).
  - exists example_tree. exact example_Struct.
  - apply H.
    + constructor.
    + simpl. lia.
Defined.

(** After [clear()] the two nodes are outside the heap, and the first still
    has its item and its [child] link. *)
Lemma clear_keeps_links :
  let h := clear example_heap in
  _root h = None ∧ size h = 0
  ∧ ¬ live h example_store 1%positive
  ∧ example_store !! 1%positive = Some (example_node 3 (Some 2%positive) None None).
Proof.
  split_and!; try reflexivity. intros H. inversion H.
Qed.

Lemma root_stays_detached_witness :
  root_detached example_heap example_store
  ∧ ∃ x h' s',
      deleteMin JsUndefined lessThanDefault 2 example_heap example_store
        = Ok ((x, h'), s')
      ∧ WellFormed h' s' ∧ root_detached h' s'.
Proof.
  destruct (root_stays_detached JsUndefined lessThanDefault example_heap example_store)
    as (H1 & _ & H2 & _).
  - exists example_tree. exact example_Struct.
  - split; [exact H1|]. apply H2. simpl. lia.
Defined.

(** ** The further properties at these heaps *)

Lemma example_live_1 : live example_heap example_store 1%positive.
Proof. constructor. Qed.

Lemma example_live_2 : live example_heap example_store 2%positive.
Proof. eapply reach_child; [reflexivity|]. constructor. Qed.

Lemma example_WellFormed : WellFormed example_heap example_store.
Proof. exists example_tree. exact example_Struct. Qed.

Lemma example_Inv : Inv numbersFirst example_heap example_store.
Proof. exists example_tree. split; [exact example_Struct|exact example_ordered]. Qed.

Lemma relink_only_witness :
  let s : gmap ref (PairingNode JsValue) :=
    {[ 1%positive := example_node 5 None (Some 2%positive) None;
       2%positive := example_node 3 None (Some 3%positive) (Some 1%positive);
       3%positive := example_node 8 None None (Some 2%positive) ]} in
  (∃ r s',
     merge lessThanDefault (Some 1%positive) (Some 2%positive) s = Ok (r, s')
     ∧ same_items s s'
     ∧ (r = Some 1%positive ∨ r = Some 2%positive))
  ∧ (∃ r s',
       collapse lessThanDefault 3 (Some 1%positive) s = Ok (r, s')
       ∧ same_items s s').
Proof.
  intros s. destruct (relink_only lessThanDefault) as (Hm & Ht & Hc).
  split.
  - destruct (Ht (Some 1%positive) (Some 2%positive) s) as (r & s' & Hrun).
    + intros a v Hv. subst s.
      repeat (apply lookup_insert_Some in Hv as [[<- <-]|[_ Hv]];
              [simpl; split_and!; by eauto|]).
      apply lookup_singleton_Some in Hv as [<- <-]. simpl. split_and!; by eauto.
    + simpl. by eexists.
    + simpl. by eexists.
    + exists r, s'. split; [exact Hrun|]. exact (Hm _ _ _ _ _ Hrun).
  - destruct (collapse lessThanDefault 3 (Some 1%positive) s) as [[r s']|e|] eqn:E.
    + exists r, s'. split; [reflexivity|]. exact (Hc _ _ _ _ _ E).
    + vm_compute in E. discriminate E.
    + vm_compute in E. discriminate E.
Defined.

Lemma isEmpty_iff_size_zero_witness :
  (isEmpty example_heap = true ↔ size example_heap = 0)
  ∧ (isEmpty example_heap = false ↔ 0 < size example_heap)
  ∧ (isEmpty example_heap = true ↔ ∀ n, ¬ live example_heap example_store n).
Proof.
  apply (isEmpty_iff_size_zero example_heap example_store).
  exact example_WellFormed.
Defined.

Lemma empty_heap_operations_witness :
  let h : PairingHeap (P := ObjectPool) := new_heap None in
  let s : gmap ref (PairingNode JsValue) := ∅ in
  isEmpty h = true
  ∧ getMinNode h = None
  ∧ getMin JsUndefined h s = Ok (JsUndefined, s)
  ∧ (∀ fuel, deleteMin JsUndefined lessThanDefault fuel h s = Ok ((JsUndefined, h), s))
  ∧ (∀ fuel nodes, iter_collect lessThanDefault (S fuel) nodes (_iterate h) s = Ok ([], s)).
Proof.
  intros h s. apply (empty_heap_operations JsUndefined lessThanDefault h s).
  - exists Leaf. apply Struct_new. exact I.
  - reflexivity.
Defined.

Lemma min_accessors_agree_witness :
  ∃ r v h' s',
    getMinNode example_heap = Some r
    ∧ example_store !! r = Some v
    ∧ getMin JsUndefined example_heap example_store = Ok (item v, example_store)
    ∧ deleteMin JsUndefined lessThanDefault 2 example_heap example_store
      = Ok ((item v, h'), s')
    ∧ delete JsUndefined lessThanDefault 2 r example_heap example_store = Ok (h', s')
    ∧ size h' = size example_heap - 1
    ∧ (∀ k, live h' s' k ↔ live example_heap example_store k ∧ k ≠ r)
    ∧ same_items_off (Some r) example_store s'.
Proof.
  apply (min_accessors_agree JsUndefined lessThanDefault 2 example_heap example_store).
  - exact example_WellFormed.
  - reflexivity.
  - simpl. lia.
Defined.

Lemma add_extends_heap_witness :
  ∃ n h' s',
    add lessThanDefault (JsNumber 1) example_heap example_store = Ok ((n, h'), s')
    ∧ ¬ live example_heap example_store n
    ∧ (∀ k, live h' s' k ↔ live example_heap example_store k ∨ k = n)
    ∧ item <$> (s' !! n) = Some (JsNumber 1)
    ∧ same_items_off (Some n) example_store s'
    ∧ getMinNode h' = Some n.
Proof.
  destruct (add_extends_heap lessThanDefault (JsNumber 1) example_heap example_store)
    as (n & h' & s' & H1 & H2 & H3 & H4 & H5 & _ & H6).
  - exact example_WellFormed.
  - exists n, h', s'. split_and!; try done.
    exact (H6 1%positive (example_node 3 (Some 2%positive) None None) eq_refl eq_refl).
Defined.

Lemma delete_removes_exactly_witness :
  ∃ h' s',
    delete JsUndefined lessThanDefault 2 2%positive example_heap example_store = Ok (h', s')
    ∧ size h' = size example_heap - 1
    ∧ (∀ k, live h' s' k ↔ live example_heap example_store k ∧ k ≠ 2%positive)
    ∧ same_items_off (Some 2%positive) example_store s'.
Proof.
  apply (delete_removes_exactly JsUndefined lessThanDefault 2 2%positive
           example_heap example_store).
  - exact example_WellFormed.
  - exact example_live_2.
  - simpl. lia.
Defined.

Lemma decreaseKey_keeps_content_witness :
  ∃ h' s',
    decreaseKey lessThanDefault 2%positive example_heap example_store = Ok (h', s')
    ∧ size h' = size example_heap
    ∧ (∀ k, live h' s' k ↔ live example_heap example_store k)
    ∧ same_items example_store s'
    ∧ getMinNode h' = Some 1%positive.
Proof.
  destruct (decreaseKey_keeps_content lessThanDefault 2%positive example_heap example_store)
    as (h' & s' & H1 & H2 & H3 & H4 & H5).
  - exact example_WellFormed.
  - exact example_live_2.
  - exists h', s'. split_and!; try done.
    exact (H5 1%positive (example_node 3 (Some 2%positive) None None)
             (example_node 5 None None (Some 1%positive))
             eq_refl ltac:(discriminate) eq_refl eq_refl).
Defined.

Lemma delete_all_in_any_order_witness :
  ∃ h' s',
    delete_all JsUndefined lessThanDefault 2 [2%positive; 1%positive]
      example_heap example_store = Ok (h', s')
    ∧ WellFormed h' s'
    ∧ size h' = 0
    ∧ isEmpty h' = true.
Proof.
  destruct (delete_all_in_any_order JsUndefined lessThanDefault 2 [2%positive; 1%positive]
              example_heap example_store) as (h' & s' & H1 & H2 & _ & H4 & H5).
  - exact example_WellFormed.
  - repeat constructor; set_solver.
  - intros n Hn. apply elem_of_cons in Hn as [->|Hn]; [exact example_live_2|].
    apply list_elem_of_singleton in Hn as ->. exact example_live_1.
  - simpl. lia.
  - exists h', s'. destruct H5 as [H5 H6].
    + intros n Hn. apply (live_iff _ _ _ n example_Struct) in Hn. simpl in Hn. set_solver.
    + split_and!; done.
Defined.

Lemma iteration_visits_every_node_witness :
  ∃ es : list (ref * JsValue),
    NoDup (map fst es)
    ∧ (∀ k, k ∈ map fst es ↔ live example_heap example_store k)
    ∧ Forall (λ e, item <$> (example_store !! e.1) = Some e.2) es
    ∧ (∃ s', iter_collect lessThanDefault 3 true (_iterate example_heap) example_store
             = Ok (map YNode (map fst es), s'))
    ∧ (∃ s', iter_collect lessThanDefault 3 false (_iterate example_heap) example_store
             = Ok (map YItem (map snd es), s')).
Proof.
  apply (iteration_visits_every_node lessThanDefault 3 example_heap example_store).
  - exact example_WellFormed.
  - simpl. lia.
Defined.

Lemma iteration_flattens_witness :
  ∃ ys s',
    iter_collect lessThanDefault 3 false (_iterate example_heap) example_store = Ok (ys, s')
    ∧ (∀ k, live example_heap s' k ↔ live example_heap example_store k)
    ∧ same_items example_store s'
    ∧ (∀ k v, live example_heap s' k → s' !! k = Some v → next v = None)
    ∧ iter_collect lessThanDefault 3 false (_iterate example_heap) s' = Ok (ys, s').
Proof.
  apply (iteration_flattens lessThanDefault 3 false example_heap example_store).
  - exact example_WellFormed.
  - simpl. lia.
Defined.

Lemma iteration_keeps_invariants_witness :
  (∃ y it' s',
     iter_next numbersFirst 2 false (IterAt 1%positive) example_store = Ok ((y, it'), s')
     ∧ invariants_hold numbersFirst example_heap s')
  ∧ (∃ ys s',
       iter_collect numbersFirst 3 true (_iterate example_heap) example_store = Ok (ys, s')
       ∧ invariants_hold numbersFirst example_heap s').
Proof.
  destruct (iteration_keeps_invariants numbersFirst example_heap example_store
              numbersFirst_swo example_Inv) as (Hstep & Hall).
  split.
  - destruct (Hstep 2%nat false 1%positive) as (y & it' & s' & H1 & H2 & _).
    + simpl. lia.
    + exact example_live_1.
    + by exists y, it', s'.
  - apply Hall. simpl. lia.
Defined.

Lemma add_all_then_delete_all_witness :
  let xs := [JsNumber 7; JsNumber 1] in
  ∃ ns h1 s1,
    add_all lessThanDefault xs example_heap example_store = Ok ((ns, h1), s1)
    ∧ NoDup ns
    ∧ Forall2 (λ n x, item <$> (s1 !! n) = Some x) ns xs
    ∧ size h1 = size example_heap + 2
    ∧ ∃ h2 s2,
        delete_all JsUndefined lessThanDefault 4 (rev ns) h1 s1 = Ok (h2, s2)
        ∧ WellFormed h2 s2
        ∧ size h2 = size example_heap
        ∧ (∀ k, live h2 s2 k ↔ live example_heap example_store k).
Proof.
  intros xs.
  destruct (add_all_then_delete_all JsUndefined lessThanDefault xs 4
              example_heap example_store) as (ns & h1 & s1 & H1 & H2 & _ & _ & H5 & H6 & H7).
  - exact example_WellFormed.
  - simpl. lia.
  - exists ns, h1, s1. split_and!; try done.
    apply H7. symmetry. apply Permutation_rev.
Defined.

Lemma pool_recycles_handle_witness :
  ∃ h1 s1 h2 s2,
    delete JsUndefined lessThanDefault 2 2%positive example_pooled_heap example_store
      = Ok (h1, s1)
    ∧ ¬ live h1 s1 2%positive
    ∧ add lessThanDefault (JsNumber 4) h1 s1 = Ok ((2%positive, h2), s2)
    ∧ live h2 s2 2%positive
    ∧ item <$> (s2 !! 2%positive) = Some (JsNumber 4)
    ∧ size h2 = size example_pooled_heap
    ∧ WellFormed h2 s2.
Proof.
  apply (pool_recycles_handle JsUndefined lessThanDefault 2 2%positive (JsNumber 4)
           (mkPool [] 3) example_pooled_heap example_store).
  - exists example_tree. exact example_pooled_Struct.
  - exact example_live_2.
  - simpl. lia.
  - reflexivity.
  - reflexivity.
Defined.

Lemma drain_smallest_first_witness :
  ∃ firsts h' s',
    drain JsUndefined numbersFirst 2 3 example_heap example_store
      = Ok ((firsts ++ [JsUndefined], h'), s')
    ∧ length firsts = 2%nat
    ∧ StronglySorted (λ x y, numbersFirst y x = false) firsts
    ∧ size h' = size example_heap - Z.of_nat (length firsts)
    ∧ invariants_hold numbersFirst h' s'.
Proof.
  destruct (drain_smallest_first JsUndefined numbersFirst 2 3 example_heap example_store
              numbersFirst_swo example_Inv) as (firsts & h' & s' & H1 & H2 & H3 & H4 & H5 & _).
  - simpl. lia.
  - exists firsts, h', s'. split_and!; done.
Defined.

Lemma stale_handle_after_clear_witness :
  ∃ v h' s',
    example_store !! 2%positive = Some v
    ∧ delete JsUndefined lessThanDefault 2 2%positive (clear example_heap) example_store
      = Ok (h', s')
    ∧ size h' = -1
    ∧ (isEmpty h' = true ↔ child v = None)
    ∧ ¬ WellFormed h' s'.
Proof.
  apply (stale_handle_after_clear JsUndefined lessThanDefault 2 2%positive
           example_heap example_store).
  - exact example_WellFormed.
  - exact example_live_2.
  - discriminate.
  - simpl. lia.
Defined.

Lemma collapse_returns_least_sibling_witness :
  let l := N 1%positive (JsNumber 5) Leaf
             (N 2%positive (JsNumber 3) Leaf
                (N 3%positive (JsNumber 8) Leaf Leaf)) in
  let s : gmap ref (PairingNode JsValue) :=
    {[ 1%positive := example_node 5 None (Some 2%positive) None;
       2%positive := example_node 3 None (Some 3%positive) (Some 1%positive);
       3%positive := example_node 8 None None (Some 2%positive) ]} in
  ∃ r v s',
    collapse numbersFirst 3 (Some 1%positive) s = Ok (Some r, s')
    ∧ r ∈ [1%positive; 2%positive; 3%positive]
    ∧ s' !! r = Some v
    ∧ prev v = None ∧ next v = None
    ∧ Forall (λ y, numbersFirst y (item v) = false) [JsNumber 5; JsNumber 3; JsNumber 8].
Proof.
  intros l s.
  apply (collapse_returns_least_sibling numbersFirst 3 l s None numbersFirst_swo).
  - simpl. done.
  - simpl. repeat constructor; set_solver.
  - discriminate.
  - simpl. lia.
Defined.

Lemma ordering_needed_on_items_only_witness :
  let xs := [JsNumber 5; JsNumber 3; JsNumber 8; JsNumber 1] in
  ∃ ns h s out h' s' s'',
    add_all lessThanDefault xs (new_heap (P := ObjectPool) None) ∅ = Ok ((ns, h), s)
    ∧ drain JsUndefined lessThanDefault 5 (length xs) h s = Ok ((out, h'), s')
    ∧ out ≡ₚ xs
    ∧ StronglySorted (λ x y, lessThanDefault y x = false) out
    ∧ isEmpty h' = true
    ∧ iter_collect lessThanDefault 5 false (_iterate h) s = Ok (map YItem out, s'').
Proof.
  intros xs.
  assert (∀ x y, is_number x → is_number y → lessThanDefault x y = numbersFirst x y)
    as Hagree by (by intros x y [a ->] [b ->]).
  apply (ordering_needed_on_items_only JsUndefined lessThanDefault numbersFirst is_number
           Hagree numbersFirst_swo xs 5 (new_heap None) ∅).
  - repeat constructor; by eexists.
  - exists Leaf. apply Struct_new. exact I.
  - reflexivity.
  - simpl. lia.
Defined.

Lemma numbers_come_out_in_order_witness :
  let zs := [5; 3; 8; 1] in
  let lessThanFunc := _lessThanFunc (test_lessThanFunc (Some (-1))) in
  ∃ ns h s out h' s',
    add_all lessThanFunc (map JsNumber zs) (new_heap (P := ObjectPool) None) ∅
      = Ok ((ns, h), s)
    ∧ drain JsUndefined lessThanFunc 5 (length zs) h s = Ok ((map JsNumber out, h'), s')
    ∧ out ≡ₚ zs
    ∧ StronglySorted Z.ge out
    ∧ isEmpty h' = true.
Proof.
  intros zs lessThanFunc.
  apply (numbers_come_out_in_order (Some (-1)) zs 5 (new_heap None) ∅).
  - exists Leaf. apply Struct_new. exact I.
  - reflexivity.
  - simpl. lia.
Defined.

Lemma add_is_local_witness :
  ∃ n h' s',
    add lessThanDefault (JsNumber 4) example_heap example_store = Ok ((n, h'), s')
    ∧ ∀ k, k ≠ n → _root example_heap ≠ Some k →
        (∀ r v, _root example_heap = Some r → example_store !! r = Some v →
                child v ≠ Some k) →
        s' !! k = example_store !! k.
Proof.
  apply (add_is_local lessThanDefault (JsNumber 4) example_heap example_store).
  exact example_WellFormed.
Defined.

(** A comparator that answers [true] to everything. *)
Lemma items_never_lost_witness :
  let always (o1 o2 : JsValue) := true in
  let xs := [JsNumber 5; JsUndefined; JsNumber 1] in
  ∃ ns h s out h' s',
    add_all always xs (new_heap (P := ObjectPool) None) ∅ = Ok ((ns, h), s)
    ∧ size h = 3
    ∧ drain JsUndefined always 4 (length xs) h s = Ok ((out, h'), s')
    ∧ out ≡ₚ xs
    ∧ isEmpty h' = true
    ∧ size h' = 0.
Proof.
  intros always xs.
  apply (items_never_lost JsUndefined always xs 4 (new_heap None) ∅).
  - exists Leaf. apply Struct_new. exact I.
  - reflexivity.
  - simpl. lia.
Defined.

Lemma sorted_from_any_heap_witness :
  ∃ es : list (ref * JsValue),
    NoDup (map fst es)
    ∧ (∀ k, k ∈ map fst es ↔ live example_heap example_store k)
    ∧ Forall (λ e, item <$> (example_store !! e.1) = Some e.2) es
    ∧ Z.of_nat (length es) = size example_heap
    ∧ StronglySorted (λ x y, numbersFirst y x = false) (map snd es)
    ∧ (∃ s', iter_collect numbersFirst 3 false (_iterate example_heap) example_store
             = Ok (map YItem (map snd es), s'))
    ∧ (∃ h' s', drain JsUndefined numbersFirst 3 (length es) example_heap example_store
                = Ok ((map snd es, h'), s')
                ∧ isEmpty h' = true).
Proof.
  apply (sorted_from_any_heap JsUndefined numbersFirst 3 example_heap example_store).
  - exact numbersFirst_swo.
  - exact example_Inv.
  - simpl. lia.
Defined.
